(** * Aruba Central API database: validators, error handler, resolver, importer

    A shallow embedding of
      - [src/utils/validators.ts]     (module [Validators]),
      - [src/utils/error-handler.ts]  (module [ErrorHandler]),
    and, for the ingestion pipeline that the specification describes,
      - the variable resolver         (module [Resolver]),
      - the batch importer            (module [Importer]).

    Conventions.  A JavaScript string is a [string]: a sequence of code
    units, here restricted to the code units below 256.  A JavaScript
    number is a [JsNumber]: NaN, the two infinities, or a finite double seen
    as the rational it denotes (comparisons of doubles are exact, so [<] and
    [>] on finite numbers are the order of [Q]).  A value of dynamic type is
    a [JsValue]; objects are finite trees whose own enumerable properties
    are listed in [Object.entries] order.  What the host provides and the
    repository does not define (the WHATWG URL parser behind [new URL],
    [JSON.parse], the conversion of a number to a string inside a template
    literal) is a field of the class [Host]. *)

From Stdlib Require Import String Ascii List ZArith QArith Bool Lia DecimalString.
From stdpp Require Import base gmap strings list.
Import ListNotations.
Open Scope string_scope.

#[local] Set Warnings "-register-all".

(* ===================================================================== *)
(** * Part I: definitions                                                 *)
(* ===================================================================== *)

(** ** JavaScript values *)

Module Js.

Inductive JsNumber : Type :=
| NaN
| PosInf
| NegInf
| Finite (q : Q).

Inductive JsValue : Type :=
| JUndefined
| JNull
| JBool (b : bool)
| JNum (n : JsNumber)
| JStr (s : string)
| JObj (fields : list (string * JsValue))
| JArr (items : list JsValue)
| JFun.

Inductive JsType : Type :=
| TUndefined | TObject | TBoolean | TNumber | TString | TFunction.

(** [typeof v] *)
Definition typeof (v : JsValue) : JsType :=
  match v with
  | JUndefined => TUndefined
  | JNull => TObject
  | JBool _ => TBoolean
  | JNum _ => TNumber
  | JStr _ => TString
  | JObj _ => TObject
  | JArr _ => TObject
  | JFun => TFunction
  end.

Definition isString (v : JsValue) : bool :=
  match v with JStr _ => true | _ => false end.

Definition isObjectType (v : JsValue) : bool :=
  match typeof v with TObject => true | _ => false end.

(** ToBoolean: [undefined], [null], [false], [0], [NaN] and [''] are falsy. *)
Definition truthy (v : JsValue) : bool :=
  match v with
  | JUndefined | JNull => false
  | JBool b => b
  | JNum NaN => false
  | JNum (Finite q) => negb (Qeq_bool q 0)
  | JNum _ => true
  | JStr s => negb (String.eqb s "")
  | JObj _ | JArr _ | JFun => true
  end.

Definition falsy (v : JsValue) : bool := negb (truthy v).

Definition ofNat (n : nat) : JsNumber := Finite (inject_Z (Z.of_nat n)).
Definition ofZ (z : Z) : JsNumber := Finite (inject_Z z).

(** [a < b] on numbers; any comparison with NaN is false. *)
Definition lt (a b : JsNumber) : bool :=
  match a, b with
  | NaN, _ | _, NaN => false
  | NegInf, NegInf => false
  | NegInf, _ => true
  | _, NegInf => false
  | PosInf, _ => false
  | Finite _, PosInf => true
  | Finite p, Finite q => negb (Qle_bool q p)
  end.

Definition gt (a b : JsNumber) : bool := lt b a.

(** [Number.isFinite] *)
Definition isFinite (n : JsNumber) : bool :=
  match n with Finite _ => true | _ => false end.

Definition MAX_SAFE_INTEGER : JsNumber := ofZ 9007199254740991.

(** The key under which [Object.entries] lists the element of index [i]. *)
Definition indexKey (i : nat) : string := NilEmpty.string_of_uint (Nat.to_uint i).

Fixpoint indexed {A : Type} (i : nat) (l : list A) : list (string * A) :=
  match l with
  | [] => []
  | x :: l' => (indexKey i, x) :: indexed (S i) l'
  end.

Fixpoint assoc (k : string) (fields : list (string * JsValue)) : JsValue :=
  match fields with
  | [] => JUndefined
  | (k', v) :: rest => if String.eqb k k' then v else assoc k rest
  end.

(** Own-property read [v.k] (the prototype chain holds none of the names
    the code reads). *)
Definition getProp (v : JsValue) (k : string) : JsValue :=
  match v with
  | JObj fields => assoc k fields
  | JArr items =>
      if String.eqb k "length" then JNum (ofNat (List.length items))
      else assoc k (indexed 0 items)
  | _ => JUndefined
  end.

(** [v === s] for a string literal [s]. *)
Definition strictEqStr (v : JsValue) (s : string) : bool :=
  match v with JStr t => String.eqb t s | _ => false end.

(** [l.includes(v)] for an array [l] of string literals (SameValueZero). *)
Definition includes (l : list string) (v : JsValue) : bool :=
  match v with JStr s => existsb (String.eqb s) l | _ => false end.

(** *** Strings *)

Definition isLower (c : ascii) : bool :=
  let n := nat_of_ascii c in (97 <=? n)%nat && (n <=? 122)%nat.
Definition isUpper (c : ascii) : bool :=
  let n := nat_of_ascii c in (65 <=? n)%nat && (n <=? 90)%nat.
Definition isDigit (c : ascii) : bool :=
  let n := nat_of_ascii c in (48 <=? n)%nat && (n <=? 57)%nat.

Definition upperChar (c : ascii) : ascii :=
  if isLower c then ascii_of_nat (nat_of_ascii c - 32) else c.

(** Equality of two code units under the [i] flag of a regular expression. *)
Definition ciEq (a b : ascii) : bool := Ascii.eqb (upperChar a) (upperChar b).

(** [s.toUpperCase()], on the letters a-z. *)
Fixpoint toUpperCase (s : string) : string :=
  match s with
  | EmptyString => EmptyString
  | String c s' => String (upperChar c) (toUpperCase s')
  end.

(** [s.startsWith(p)] *)
Definition startsWith (s p : string) : bool := String.prefix p s.

(** The class [\s] of regular expressions, which is also what [trim]
    removes: tab, line feed, vertical tab, form feed, carriage return,
    space and no-break space. *)
Definition isSpace (c : ascii) : bool :=
  let n := nat_of_ascii c in
  ((9 <=? n)%nat && (n <=? 13)%nat) || (n =? 32)%nat || (n =? 160)%nat.

Fixpoint dropSpaces (l : list ascii) : list ascii :=
  match l with
  | [] => []
  | c :: l' => if isSpace c then dropSpaces l' else l
  end.

(** [s.trim()] *)
Definition trim (s : string) : string :=
  string_of_list_ascii
    (rev (dropSpaces (rev (dropSpaces (list_ascii_of_string s))))).

(** [l.join(sep)] *)
Definition join (sep : string) (l : list string) : string := String.concat sep l.

End Js.

(** ** Regular expressions, as far as [RegExp.prototype.test] needs them *)

Module Regex.

Inductive Re : Type :=
| Void
| Eps
| Chr (p : ascii -> bool)
| Cat (r1 r2 : Re)
| Alt (r1 r2 : Re)
| Star (r : Re).

Fixpoint nullable (r : Re) : bool :=
  match r with
  | Void => false
  | Eps => true
  | Chr _ => false
  | Cat r1 r2 => nullable r1 && nullable r2
  | Alt r1 r2 => nullable r1 || nullable r2
  | Star _ => true
  end.

Fixpoint deriv (c : ascii) (r : Re) : Re :=
  match r with
  | Void => Void
  | Eps => Void
  | Chr p => if p c then Eps else Void
  | Cat r1 r2 =>
      if nullable r1 then Alt (Cat (deriv c r1) r2) (deriv c r2)
      else Cat (deriv c r1) r2
  | Alt r1 r2 => Alt (deriv c r1) (deriv c r2)
  | Star r1 => Cat (deriv c r1) (Star r1)
  end.

(** The whole of [s] is a word of [r]: the pattern [^r$]. *)
Fixpoint fullMatch (r : Re) (s : string) : bool :=
  match s with
  | EmptyString => nullable r
  | String c s' => fullMatch (deriv c r) s'
  end.

Definition anything : Re := Star (Chr (fun _ => true)).

(** Some substring of [s] is a word of [r]: the pattern [r], unanchored. *)
Definition search (r : Re) (s : string) : bool :=
  fullMatch (Cat anything (Cat r anything)) s.

Definition Plus (r : Re) : Re := Cat r (Star r).

Fixpoint Times (n : nat) (r : Re) : Re :=
  match n with
  | O => Eps
  | S n' => Cat r (Times n' r)
  end.

Definition chr (c : ascii) : Re := Chr (Ascii.eqb c).

(** A literal under the [i] flag: both sides are compared in upper case. *)
Definition chrI (c : ascii) : Re := Chr (fun x => Js.ciEq x c).

Fixpoint lit (s : string) : Re :=
  match s with
  | EmptyString => Eps
  | String c s' => Cat (chr c) (lit s')
  end.

Fixpoint litI (s : string) : Re :=
  match s with
  | EmptyString => Eps
  | String c s' => Cat (chrI c) (litI s')
  end.

Definition oneOf (s : string) : Re :=
  Chr (fun x => existsb (Ascii.eqb x) (list_ascii_of_string s)).

(** [[0-9a-f]] under the [i] flag *)
Definition hexI : Re :=
  Chr (fun x => Js.isDigit x ||
                existsb (Js.ciEq x) (list_ascii_of_string "abcdef")).

(** [\d], [\w], [\s] *)
Definition digit : Re := Chr Js.isDigit.
Definition word : Re :=
  Chr (fun x => Js.isDigit x || Js.isLower x || Js.isUpper x || Ascii.eqb x "_").
Definition space : Re := Chr Js.isSpace.

End Regex.

(** ** What the host provides *)

Class Host : Type := {
  (** [new URL(url)] returns instead of throwing *)
  urlParses : string -> bool;
  (** [JSON.parse(text)] returns instead of throwing *)
  jsonParses : string -> bool;
  (** the string a number becomes inside a template literal *)
  numberToString : Js.JsNumber -> string;
}.

(** A host for the examples: its URL parser asks for a scheme separator,
    its JSON parser for a first character that can start a JSON text; a
    number is printed as the integer part of its quotient. *)
Definition exampleHost : Host := {|
  urlParses := fun s =>
    match index 0 "://" s with Some (S _) => true | _ => false end;
  jsonParses := fun s =>
    match s with
    | String c _ =>
        existsb (Ascii.eqb c) (list_ascii_of_string "{[0123456789tfn-")
        || (nat_of_ascii c =? 34)%nat
    | EmptyString => false
    end;
  numberToString := fun n =>
    match n with
    | Js.NaN => "NaN"
    | Js.PosInf => "Infinity"
    | Js.NegInf => "-Infinity"
    | Js.Finite q => NilEmpty.string_of_int (Z.to_int (Qnum q / Zpos (Qden q)))
    end;
|}.

(** ** src/utils/validators.ts *)

Module Validators.
Import Js.

Record ValidationResult : Type := {
  isValid : bool;
  errors : list string;
}.

(** [errors.push(e)] and [errors.push(...es)] *)
Definition push (errs : list string) (e : string) : list string := errs ++ [e].
Definition pushAll (errs es : list string) : list string := errs ++ es.

(** [{ isValid: errors.length === 0, errors }] *)
Definition result (errs : list string) : ValidationResult :=
  {| isValid := Nat.eqb (List.length errs) 0; errors := errs |}.

Definition validMethods : list string :=
  ["GET"; "POST"; "PUT"; "DELETE"; "PATCH"; "HEAD"; "OPTIONS"].

Definition validateHttpMethod (method : JsValue) : ValidationResult :=
  let errs := [] in
  let errs :=
    if falsy method then push errs "HTTP method is required"
    else match method with
         | JStr s =>
             if existsb (String.eqb (toUpperCase s)) validMethods then errs
             else push errs ("HTTP method must be one of: " ++ join ", " validMethods)
         | _ => push errs "HTTP method must be a string"
         end in
  result errs.

Section WithHost.
Context `{Host}.

Definition validateUrl (url : JsValue) : ValidationResult :=
  let errs := [] in
  let errs :=
    if falsy url then push errs "URL is required"
    else match url with
         | JStr s =>
             if urlParses s then
               let errs :=
                 if negb (startsWith s "https://")
                 then push errs "URL must use HTTPS protocol" else errs in
               let errs :=
                 if (2000 <? String.length s)%nat
                 then push errs "URL is too long (max 2000 characters)" else errs in
               errs
             else push errs "URL format is invalid"
         | _ => push errs "URL must be a string"
         end in
  result errs.

Definition validateStringLength
    (value : JsValue) (field : string) (minLength maxLength : option JsNumber)
    : ValidationResult :=
  let minLength := default (ofZ 1) minLength in
  let maxLength := default (ofZ 1000) maxLength in
  let errs := [] in
  let errs :=
    match value with
    | JStr s =>
        let errs :=
          if lt (ofNat (String.length s)) minLength
          then push errs (field ++ " must be at least " ++ numberToString minLength
                                ++ " characters long")
          else errs in
        let errs :=
          if gt (ofNat (String.length s)) maxLength
          then push errs (field ++ " must not exceed " ++ numberToString maxLength
                                ++ " characters")
          else errs in
        errs
    | _ => push errs (field ++ " must be a string")
    end in
  result errs.

Definition validateNumericRange
    (value : JsValue) (field : string) (min max : option JsNumber)
    : ValidationResult :=
  let min := default (ofZ 0) min in
  let max := default MAX_SAFE_INTEGER max in
  let errs := [] in
  let errs :=
    match value with
    | JNum n =>
        if negb (isFinite n) then push errs (field ++ " must be a finite number")
        else
          let errs :=
            if lt n min
            then push errs (field ++ " must be at least " ++ numberToString min)
            else errs in
          let errs :=
            if gt n max
            then push errs (field ++ " must not exceed " ++ numberToString max)
            else errs in
          errs
    | _ => push errs (field ++ " must be a number")
    end in
  result errs.

End WithHost.

(** [/^[0-9a-f]{8}-[0-9a-f]{4}-[1-5][0-9a-f]{3}-[89ab][0-9a-f]{3}-[0-9a-f]{12}$/i] *)
Definition uuidRegex : Regex.Re :=
  let h := Regex.hexI in
  let dash := Regex.chr "-" in
  Regex.Cat (Regex.Times 8 h) (Regex.Cat dash
  (Regex.Cat (Regex.Times 4 h) (Regex.Cat dash
  (Regex.Cat (Regex.oneOf "12345") (Regex.Cat (Regex.Times 3 h) (Regex.Cat dash
  (Regex.Cat (Regex.oneOf "89abAB") (Regex.Cat (Regex.Times 3 h) (Regex.Cat dash
  (Regex.Times 12 h)))))))))).

(** [/^\d+$/] *)
Definition numericRegex : Regex.Re := Regex.Plus Regex.digit.

Definition validateDatabaseId (id : JsValue) : ValidationResult :=
  let errs := [] in
  let errs :=
    if falsy id then push errs "ID is required"
    else match id with
         | JStr s =>
             let isUuid := Regex.fullMatch uuidRegex s in
             let isNumeric := Regex.fullMatch numericRegex s in
             let errs :=
               if negb isUuid && negb isNumeric
               then push errs "ID must be a valid UUID or numeric identifier"
               else errs in
             let errs :=
               if (100 <? String.length s)%nat
               then push errs "ID is too long (max 100 characters)" else errs in
             errs
         | _ => push errs "ID must be a string"
         end in
  result errs.

(** [/^[^\s@]+@[^\s@]+\.[^\s@]+$/] *)
Definition emailRegex : Regex.Re :=
  let part := Regex.Plus (Regex.Chr (fun x => negb (isSpace x || Ascii.eqb x "@"))) in
  Regex.Cat part (Regex.Cat (Regex.chr "@")
  (Regex.Cat part (Regex.Cat (Regex.chr ".") part))).

Definition validateEmail (email : JsValue) : ValidationResult :=
  let errs := [] in
  let errs :=
    if falsy email then push errs "Email is required"
    else match email with
         | JStr s =>
             let errs :=
               if negb (Regex.fullMatch emailRegex s)
               then push errs "Email format is invalid" else errs in
             let errs :=
               if (254 <? String.length s)%nat
               then push errs "Email is too long (max 254 characters)" else errs in
             errs
         | _ => push errs "Email must be a string"
         end in
  result errs.

(** [/<script/i], [/javascript:/i], [/on\w+\s*=/i], [/data:/i] *)
Definition suspiciousPatterns : list Regex.Re :=
  [ Regex.litI "<script";
    Regex.litI "javascript:";
    Regex.Cat (Regex.litI "on")
      (Regex.Cat (Regex.Plus Regex.word)
         (Regex.Cat (Regex.Star Regex.space) (Regex.chr "=")));
    Regex.litI "data:" ].

Definition validateSearchQuery (query : JsValue) : ValidationResult :=
  let errs := [] in
  let errs :=
    match query with
    | JUndefined | JNull => errs
    | JStr s =>
        let errs :=
          if (String.length (trim s) =? 0)%nat
          then push errs "Search query cannot be empty" else errs in
        let errs :=
          if (500 <? String.length s)%nat
          then push errs "Search query too long (max 500 characters)" else errs in
        (* the loop pushes once, at the first pattern that matches *)
        let errs :=
          if existsb (fun pattern => Regex.search pattern s) suspiciousPatterns
          then push errs "Search query contains invalid characters" else errs in
        errs
    | _ => push errs "Search query must be a string"
    end in
  result errs.

Section WithHost.
Context `{Host}.

Definition validateJson (value : JsValue) (field : string) : ValidationResult :=
  let errs := [] in
  if falsy value then {| isValid := true; errors := errs |}
  else
    let errs :=
      match value with
      | JStr s =>
          if jsonParses s then errs else push errs (field ++ " must be valid JSON")
      | _ => push errs (field ++ " must be a string")
      end in
    result errs.

Definition validatePaginationParams (page limit : JsValue) : ValidationResult :=
  let errs := [] in
  let errs :=
    match page with
    | JUndefined => errs
    | _ =>
        let pageValidation :=
          validateNumericRange page "page" (Some (ofZ 1)) (Some (ofZ 10000)) in
        if negb (isValid pageValidation) then pushAll errs (errors pageValidation)
        else errs
    end in
  let errs :=
    match limit with
    | JUndefined => errs
    | _ =>
        let limitValidation :=
          validateNumericRange limit "limit" (Some (ofZ 1)) (Some (ofZ 1000)) in
        if negb (isValid limitValidation) then pushAll errs (errors limitValidation)
        else errs
    end in
  result errs.

End WithHost.

Definition authTypes : list string := ["bearer"; "apikey"; "basic"; "oauth2"].

Definition validateAuthConfig (authConfig : JsValue) : ValidationResult :=
  let errs := [] in
  if falsy authConfig then {| isValid := true; errors := errs |}
  else if negb (isObjectType authConfig) then
    let errs := push errs "Auth config must be an object" in
    {| isValid := false; errors := errs |}
  else
    let type := getProp authConfig "type" in
    let token := getProp authConfig "token" in
    let key := getProp authConfig "key" in
    let value := getProp authConfig "value" in
    let errs :=
      if falsy type then push errs "Auth type is required"
      else if negb (includes authTypes type)
      then push errs "Auth type must be one of: bearer, apikey, basic, oauth2"
      else errs in
    let errs :=
      if strictEqStr type "bearer" && falsy token
      then push errs "Bearer token is required for bearer auth" else errs in
    let errs :=
      if strictEqStr type "apikey" && (falsy key || falsy value)
      then push errs "API key and value are required for apikey auth" else errs in
    result errs.

(** The parameter of [validateApiRequest]; an absent field is [JUndefined]. *)
Record ApiRequest : Type := {
  req_name : JsValue;
  req_method : JsValue;
  req_url : JsValue;
  req_description : JsValue;
  req_headers : JsValue;
  req_authConfig : JsValue;
  req_body : JsValue;
}.

Section WithHost.
Context `{Host}.

Definition validateApiRequest (request : ApiRequest) : ValidationResult :=
  let errs := [] in
  (* required fields *)
  let errs :=
    if falsy (req_name request) then push errs "API name is required"
    else
      let nameValidation :=
        validateStringLength (req_name request) "name"
                             (Some (ofZ 1)) (Some (ofZ 200)) in
      if negb (isValid nameValidation) then pushAll errs (errors nameValidation)
      else errs in
  let errs :=
    if falsy (req_method request) then push errs "HTTP method is required"
    else
      let methodValidation := validateHttpMethod (req_method request) in
      if negb (isValid methodValidation) then pushAll errs (errors methodValidation)
      else errs in
  let errs :=
    if falsy (req_url request) then push errs "URL is required"
    else
      let urlValidation := validateUrl (req_url request) in
      if negb (isValid urlValidation) then pushAll errs (errors urlValidation)
      else errs in
  (* optional fields *)
  let errs :=
    if truthy (req_description request) then
      let descValidation :=
        validateStringLength (req_description request) "description"
                             (Some (ofZ 0)) (Some (ofZ 1000)) in
      if negb (isValid descValidation) then pushAll errs (errors descValidation)
      else errs
    else errs in
  let errs :=
    if truthy (req_authConfig request) then
      let authValidation := validateAuthConfig (req_authConfig request) in
      if negb (isValid authValidation) then pushAll errs (errors authValidation)
      else errs
    else errs in
  let errs :=
    if truthy (req_headers request) && isString (req_headers request) then
      let headersValidation := validateJson (req_headers request) "headers" in
      if negb (isValid headersValidation) then pushAll errs (errors headersValidation)
      else errs
    else errs in
  let errs :=
    if truthy (req_body request) && isString (req_body request) then
      let bodyValidation := validateJson (req_body request) "body" in
      if negb (isValid bodyValidation) then pushAll errs (errors bodyValidation)
      else errs
    else errs in
  result errs.

End WithHost.

(** The request that has none of its fields. *)
Definition emptyRequest : ApiRequest :=
  {| req_name := JUndefined; req_method := JUndefined; req_url := JUndefined;
     req_description := JUndefined; req_headers := JUndefined;
     req_authConfig := JUndefined; req_body := JUndefined |}.

(** [validations.flatMap(v => v.errors)] *)
Definition combineValidations (validations : list ValidationResult) : ValidationResult :=
  let allErrors := flat_map errors validations in
  {| isValid := Nat.eqb (List.length allErrors) 0; errors := allErrors |}.

(** *** Specification vocabulary *)

(** A result is consistent when [isValid] tells whether [errors] is empty. *)
Definition Consistent (r : ValidationResult) : Prop :=
  isValid r = true <-> errors r = [].

Definition whitelistError : string :=
  "HTTP method must be one of: GET, POST, PUT, DELETE, PATCH, HEAD, OPTIONS".

(** What each field of a request adds to the errors of
    [validateApiRequest]. *)
Section Parts.
Context `{Host}.
Variable request : ApiRequest.

Definition nameValidation : ValidationResult :=
  validateStringLength (req_name request) "name" (Some (ofZ 1)) (Some (ofZ 200)).
Definition descValidation : ValidationResult :=
  validateStringLength (req_description request) "description"
                       (Some (ofZ 0)) (Some (ofZ 1000)).

(** What each field of the request adds to the errors. *)
Definition nameErrors : list string :=
  if falsy (req_name request) then ["API name is required"] else errors nameValidation.
Definition methodErrors : list string :=
  if falsy (req_method request) then ["HTTP method is required"]
  else errors (validateHttpMethod (req_method request)).
Definition urlErrors : list string :=
  if falsy (req_url request) then ["URL is required"]
  else errors (validateUrl (req_url request)).
Definition descriptionErrors : list string :=
  if truthy (req_description request) then errors descValidation else [].
Definition authErrors : list string :=
  if truthy (req_authConfig request)
  then errors (validateAuthConfig (req_authConfig request)) else [].
Definition headersErrors : list string :=
  if truthy (req_headers request) && isString (req_headers request)
  then errors (validateJson (req_headers request) "headers") else [].
Definition bodyErrors : list string :=
  if truthy (req_body request) && isString (req_body request)
  then errors (validateJson (req_body request) "body") else [].

End Parts.

End Validators.

(** ** src/utils/error-handler.ts *)

Module ErrorHandler.
Import Js.

Inductive ErrorCode : Type :=
| VALIDATION_ERROR
| DATABASE_ERROR
| AUTHENTICATION_ERROR
| AUTHORIZATION_ERROR
| NOT_FOUND
| INTERNAL_ERROR
| TIMEOUT_ERROR
| RATE_LIMIT_ERROR
| EXTERNAL_SERVICE_ERROR.

(** The [error] member of an [ErrorResponse]. *)
Record ErrorBody : Type := {
  code : ErrorCode;
  message : string;
  details : JsValue;
  timestamp : string;
}.

Record ErrorResponse : Type := {
  success : bool;
  error : ErrorBody;
}.

Record SuccessResponse (T : Type) : Type := {
  ok_success : bool;
  data : T;
  ok_timestamp : string;
}.
Arguments ok_success {T} _.
Arguments data {T} _.
Arguments ok_timestamp {T} _.

(** [ApiResponse<T> = SuccessResponse<T> | ErrorResponse] *)
Inductive ApiResponse (T : Type) : Type :=
| IsSuccess (r : SuccessResponse T)
| IsError (r : ErrorResponse).
Arguments IsSuccess {T} r.
Arguments IsError {T} r.

Definition responseSuccess {T : Type} (r : ApiResponse T) : bool :=
  match r with
  | IsSuccess r => ok_success r
  | IsError r => success r
  end.

(** An instance of [AppError] or of one of its subclasses. *)
Record AppError : Type := {
  app_name : string;
  app_code : ErrorCode;
  app_message : string;
  app_details : JsValue;
  app_statusCode : Z;
  app_stack : string;
}.

(** What a [catch] clause can receive: an [AppError], another [Error], or
    any other value. *)
Inductive Thrown : Type :=
| ThrownAppError (e : AppError)
| ThrownError (message stack : string)
| ThrownValue (v : JsValue).

Definition newAppError (code : ErrorCode) (message : string) (details : JsValue)
    (statusCode : option Z) (stack : string) : AppError :=
  {| app_name := "AppError"; app_code := code; app_message := message;
     app_details := details; app_statusCode := default 500%Z statusCode;
     app_stack := stack |}.

Definition setName (name : string) (e : AppError) : AppError :=
  {| app_name := name; app_code := app_code e; app_message := app_message e;
     app_details := app_details e; app_statusCode := app_statusCode e;
     app_stack := app_stack e |}.

Definition newDatabaseError (message : string) (details : JsValue) (stack : string)
    : AppError :=
  setName "DatabaseError" (newAppError DATABASE_ERROR message details (Some 500%Z) stack).

Definition newValidationError (message : string) (details : JsValue) (stack : string)
    : AppError :=
  setName "ValidationError" (newAppError VALIDATION_ERROR message details (Some 400%Z) stack).

Definition newNotFoundError (resource : string) (identifier : option string)
    (stack : string) : AppError :=
  let ident := match identifier with Some i => JStr i | None => JUndefined end in
  let message :=
    match identifier with
    | Some i =>
        if String.eqb i "" then resource ++ " not found"
        else resource ++ " with identifier '" ++ i ++ "' not found"
    | None => resource ++ " not found"
    end in
  setName "NotFoundError"
    (newAppError NOT_FOUND message
       (JObj [("resource", JStr resource); ("identifier", ident)]) (Some 404%Z) stack).

(** [ErrorHandler.createValidationError] *)
Definition createValidationError (errors : list string) (stack : string) : AppError :=
  let message := "Validation failed: " ++ join ", " errors in
  newValidationError message (JObj [("errors", JArr (map JStr errors))]) stack.

(** *** Sanitizing *)

Definition chars (s : string) : list ascii := list_ascii_of_string s.

Definition isDelim (c : ascii) : bool := Ascii.eqb c "=" || Ascii.eqb c ":".
Definition nonSpace (c : ascii) : bool := negb (isSpace c).

(** Case analysis on the eight bits of a code unit. *)
Ltac each_ascii c :=
  destruct c as [[|] [|] [|] [|] [|] [|] [|] [|]].

Fixpoint dropWhile (p : ascii -> bool) (l : list ascii) : list ascii :=
  match l with
  | [] => []
  | c :: l' => if p c then dropWhile p l' else l
  end.

(** The keyword of a pattern, under the [i] flag, at the head of [s]: what
    follows it. *)
Fixpoint stripPrefixI (kw s : list ascii) : option (list ascii) :=
  match kw with
  | [] => Some s
  | k :: kw' =>
      match s with
      | [] => None
      | c :: s' => if ciEq c k then stripPrefixI kw' s' else None
      end
  end.

(** [[=:]\s*[^\s]+] at the head of [s]: what follows the match.  Both
    repetitions are greedy, and giving back a space never helps, so the
    match takes every space and then the whole run of non-spaces. *)
Definition matchValue (s : list ascii) : option (list ascii) :=
  match s with
  | d :: r =>
      if isDelim d then
        match dropWhile isSpace r with
        | [] => None
        | v => Some (dropWhile nonSpace v)
        end
      else None
  | [] => None
  end.

(** [/kw[=:]\s*[^\s]+/i] at the head of [s]: what follows the match. *)
Definition matchSecret (kw s : list ascii) : option (list ascii) :=
  match stripPrefixI kw s with
  | Some r => matchValue r
  | None => None
  end.

Definition mask (kw : list ascii) : list ascii := kw ++ chars "=***".

(** [s.replace(/kw[=:]\s*[^\s]+/gi, 'kw=***')]: the leftmost match is
    replaced and the search resumes behind it; where nothing matches, the
    code unit is copied.  [fuel] bounds the number of steps. *)
Fixpoint replaceFrom (fuel : nat) (kw s : list ascii) : list ascii :=
  match fuel with
  | O => s
  | S fuel' =>
      match s with
      | [] => []
      | c :: s' =>
          match matchSecret kw s with
          | Some rest => mask kw ++ replaceFrom fuel' kw rest
          | None => c :: replaceFrom fuel' kw s'
          end
      end
  end.

Definition replaceSecret (kw : string) (s : list ascii) : list ascii :=
  replaceFrom (List.length s) (chars kw) s.

Definition secretKeywords : list string := ["password"; "token"; "key"; "secret"].

Definition sanitizeChars (s : list ascii) : list ascii :=
  replaceSecret "secret" (replaceSecret "key" (replaceSecret "token"
    (replaceSecret "password" s))).

Definition sanitizeErrorMessage (message : string) : string :=
  string_of_list_ascii (sanitizeChars (chars message)).

(** The keys under which the assignment [sanitized[key] = ...] stores a
    field of the copy: every key but [__proto__], which reaches the setter
    of [Object.prototype] and sets the prototype of the copy (to an object
    value; any other value is dropped) instead of a field of its own. *)
Definition ownKey (kv : string * JsValue) : bool :=
  negb (String.eqb kv.1 "__proto__").

Fixpoint sanitizeErrorDetails (details : JsValue) : JsValue :=
  (* the body of the loop over [Object.entries(details)] *)
  let entry (value : JsValue) : JsValue :=
    match value with
    | JStr s => JStr (sanitizeErrorMessage s)
    | JNull | JObj _ | JArr _ => sanitizeErrorDetails value
    | _ => value
    end in
  match details with
  | JStr s => if String.eqb s "" then details else JStr (sanitizeErrorMessage s)
  | JObj fields =>
      JObj (List.filter ownKey (map (fun kv => (kv.1, entry kv.2)) fields))
  | JArr items => JObj (indexed 0 (map entry items))
  | _ => details
  end.

(** *** Specification vocabulary for the sanitizer *)

(** The end of the text, or a space: what follows a maximal run of
    non-spaces. *)
Definition endOrSpace (l : list ascii) : Prop :=
  match l with
  | [] => True
  | c :: _ => isSpace c = true
  end.

(** [text] holds, behind [pre], an occurrence of [kw] (in any case), one
    of [=] and [:], the spaces [ws] and the value [v]: the whole run of
    non-spaces that follows. *)
Definition SecretAt (kw text : string) (pre k : list ascii) (d : ascii)
    (ws v post : list ascii) : Prop :=
  chars text = (pre ++ k ++ d :: ws ++ v ++ post)%list
  /\ Forall2 (fun a b => ciEq a b = true) k (chars kw)
  /\ isDelim d = true
  /\ Forall (fun c => isSpace c = true) ws
  /\ v <> []
  /\ Forall (fun c => isSpace c = false) v
  /\ endOrSpace post.

(** Every occurrence of a secret in [text] is masked: it reads [kw=***]. *)
Definition Masked (text : string) : Prop :=
  forall kw, In kw secretKeywords ->
  forall pre k d ws v post, SecretAt kw text pre k d ws v post ->
    k = chars kw /\ d = "="%char /\ ws = [] /\ v = chars "***".






(** [text] holds no occurrence of a secret. *)
Definition SecretFree (text : string) : Prop :=
  forall kw, In kw secretKeywords ->
  forall pre k d ws v post, ~ SecretAt kw text pre k d ws v post.

(** The ends of a text, the text itself first. *)
Fixpoint suffixes (s : list ascii) : list (list ascii) :=
  match s with
  | [] => [[]]
  | _ :: s' => s :: suffixes s'
  end.

(** No keyword matches at any offset of [text]. *)
Definition secretFreeb (text : string) : bool :=
  forallb (fun kw =>
    forallb (fun q => match matchSecret (chars kw) q with
                      | Some _ => false
                      | None => true
                      end)
            (suffixes (chars text)))
    secretKeywords.


(** The strings that are values somewhere inside [v]. *)
Fixpoint stringLeaves (v : JsValue) : list string :=
  match v with
  | JStr s => [s]
  | JObj fields => flat_map (fun kv => stringLeaves kv.2) fields
  | JArr items => flat_map stringLeaves items
  | _ => []
  end.

(** The global replace as a relation between a text and its replacement:
    what [replaceFrom] computes when the fuel suffices. *)
Inductive Replaced (kw : list ascii) : list ascii -> list ascii -> Prop :=
| Replaced_nil : Replaced kw [] []
| Replaced_keep c s o :
    matchSecret kw (c :: s) = None ->
    Replaced kw s o ->
    Replaced kw (c :: s) (c :: o)
| Replaced_mask s rest o :
    matchSecret kw s = Some rest ->
    Replaced kw rest o ->
    Replaced kw s (mask kw ++ o)%list.

(** A keyword is a word of lower-case letters. *)
Definition letters (kw : list ascii) : Prop := Forall (fun k => isLower k = true) kw.

(** Every match of [kw] in [s], at any offset, is the mask itself. *)
Definition Clean (kw s : list ascii) : Prop :=
  forall p q rest,
    s = (p ++ q)%list -> matchSecret kw q = Some rest -> q = (mask kw ++ rest)%list.

(** [w] starts with [kw] (in any case) and a delimiter. *)
Definition keywordThenDelim (kw w : list ascii) : bool :=
  match stripPrefixI kw w with
  | Some (d :: _) => isDelim d
  | _ => false
  end.

Definition keywordChars : list (list ascii) := map chars secretKeywords.

(** Inside the mask of a keyword, a keyword followed by a delimiter starts
    only at the first code unit, and it is the keyword of the mask. *)
Definition maskCheck : bool :=
  forallb (fun kw =>
    forallb (fun kw2 =>
      forallb (fun j =>
        negb (keywordThenDelim kw (drop j (mask kw2)))
        || ((j =? 0)%nat && bool_decide (kw = kw2)))
        (seq 0 (List.length (mask kw2))))
      keywordChars)
    keywordChars.

(** No proper, non-empty end of a keyword, followed by a delimiter, starts
    a mask. *)
Definition straddleCheck : bool :=
  forallb (fun kw =>
    forallb (fun kw2 =>
      forallb (fun a => negb (keywordThenDelim (drop a kw) (mask kw2)))
        (seq 1 (List.length kw - 1)))
      keywordChars)
    keywordChars.

(** *** Responses *)

(** One call of [logger.error]. *)
Record LogEntry : Type := {
  log_message : string;
  log_meta : JsValue;
}.

(** How the promise returned by the wrapped function settles. *)
Inductive Settled (T : Type) : Type :=
| Fulfilled (value : T)
| Rejected (reason : Thrown).
Arguments Fulfilled {T} value.
Arguments Rejected {T} reason.


Section WithClock.
(** [new Date().toISOString()] at the time of the call *)
Variable now : string.

Definition createErrorResponse (code : ErrorCode) (message : string) (details : JsValue)
    : ErrorResponse :=
  {| success := false;
     error := {| code := code;
                 message := sanitizeErrorMessage message;
                 details := sanitizeErrorDetails details;
                 timestamp := now |} |}.

Definition createSuccessResponse {T : Type} (data : T) : SuccessResponse T :=
  {| ok_success := true; data := data; ok_timestamp := now |}.

Definition errorCodeName (c : ErrorCode) : string :=
  match c with
  | VALIDATION_ERROR => "VALIDATION_ERROR"
  | DATABASE_ERROR => "DATABASE_ERROR"
  | AUTHENTICATION_ERROR => "AUTHENTICATION_ERROR"
  | AUTHORIZATION_ERROR => "AUTHORIZATION_ERROR"
  | NOT_FOUND => "NOT_FOUND"
  | INTERNAL_ERROR => "INTERNAL_ERROR"
  | TIMEOUT_ERROR => "TIMEOUT_ERROR"
  | RATE_LIMIT_ERROR => "RATE_LIMIT_ERROR"
  | EXTERNAL_SERVICE_ERROR => "EXTERNAL_SERVICE_ERROR"
  end.

(** [handleError] logs once and returns a response: the pair of both. *)
Definition handleError (error : Thrown) (context : option string)
    : LogEntry * ErrorResponse :=
  let contextStr :=
    match context with
    | Some c => if String.eqb c "" then "" else "[" ++ c ++ "] "
    | None => ""
    end in
  match error with
  | ThrownAppError e =>
      ({| log_message := contextStr ++ "Application Error:";
          log_meta := JObj [("code", JStr (errorCodeName (app_code e)));
                            ("message", JStr (app_message e));
                            ("details", app_details e);
                            ("stack", JStr (app_stack e))] |},
       createErrorResponse (app_code e) (app_message e) (app_details e))
  | ThrownError msg stack =>
      ({| log_message := contextStr ++ "Unexpected Error:";
          log_meta := JObj [("message", JStr msg); ("stack", JStr stack)] |},
       createErrorResponse INTERNAL_ERROR "An unexpected error occurred"
         (JObj [("originalMessage", JStr msg)]))
  | ThrownValue v =>
      ({| log_message := contextStr ++ "Unknown Error:"; log_meta := v |},
       createErrorResponse INTERNAL_ERROR "An unknown error occurred" JUndefined)
  end.

(** [wrapAsync]: what its promise is fulfilled with, and what was logged;
    [None] is a rejected promise. *)
Definition wrapAsync {T : Type} (fn : unit -> Settled T) (context : option string)
    : option (list LogEntry * ApiResponse T) :=
  match fn tt with
  | Fulfilled result => Some ([], IsSuccess (createSuccessResponse result))
  | Rejected error =>
      let '(entry, response) := handleError error context in
      Some ([entry], IsError response)
  end.

End WithClock.

End ErrorHandler.

(** ** The document model (specification, section 3) *)

Module Model.

(** Modelled from the spec: the document model of section 3; the parser
    and the types it builds are not among the source files.  A string
    template is literal text and variable references ([VariableRef],
    identified by name). *)
Inductive Segment : Type :=
| Lit (text : string)
| Ref (name : string).

Definition Template : Type := list Segment.

(** The names a template refers to, in textual order. *)
Fixpoint refs (t : Template) : list string :=
  match t with
  | [] => []
  | Lit _ :: t' => refs t'
  | Ref n :: t' => n :: refs t'
  end.

Record RequestItem : Type := {
  ri_name : string;
  ri_method : string;
  ri_url : Template;
  ri_headers : option Template;
  ri_body : option Template;
  ri_authConfig : option Template;
  ri_folderPath : string;
  (** local overrides carried by the item itself *)
  ri_variables : gmap string Template;
}.

(** A node of the tree is a folder or a request (the tagged variant of
    section 9); a folder owns its children. *)
Inductive Node : Type :=
| FolderNode (name : string) (variables : gmap string Template) (children : list Node)
| RequestNode (item : RequestItem).

Record Collection : Type := {
  c_name : string;
  c_version : string;
  c_description : option string;
  c_nodes : list Node;
  c_variables : gmap string Template;
}.

(** A [RequestItem] after substitution: the same shape, every template
    replaced by its literal value. *)
Record ResolvedRequest : Type := {
  rr_name : string;
  rr_method : string;
  rr_url : string;
  rr_headers : option string;
  rr_body : option string;
  rr_authConfig : option string;
  rr_folderPath : string;
}.

(** A folder's full path is the [/]-joined names of its ancestors and its
    own; the root has the empty path. *)
Definition joinPath (parent name : string) : string :=
  if String.eqb parent "" then name else parent ++ "/" ++ name.

(** The request items of a tree, in document order. *)
Fixpoint nodeItems (n : Node) : list RequestItem :=
  match n with
  | RequestNode r => [r]
  | FolderNode _ _ children => flat_map nodeItems children
  end.

Definition requestItems (c : Collection) : list RequestItem :=
  flat_map nodeItems (c_nodes c).

End Model.

(** ** The variable resolver (specification, section 4.2) *)

Module Resolver.
Import Model.

(** The scope a variable map belongs to. *)
Inductive ScopeId : Type :=
| ItemScope
| FolderScope (path : string)
| CollectionScope
| GlobalScope.

#[global] Instance ScopeId_eq_dec : EqDecision ScopeId.
Proof. solve_decision. Defined.

Definition Scope : Type := ScopeId * gmap string Template.

(** The scope chain of a reference: the variable maps to search, nearest
    enclosing first. *)
Definition ScopeChain : Type := list Scope.

Inductive VariableResolutionError : Type :=
| CircularReference (chain : list string)
| Unresolved (name : string).

(** A resolution: [None] when the step bound is exhausted, else a failure
    or a value. *)
Definition Res (A : Type) : Type := option (VariableResolutionError + A).

Definition ok {A : Type} (a : A) : Res A := Some (inr a).
Definition fail {A : Type} (e : VariableResolutionError) : Res A := Some (inl e).

Definition bind {A B : Type} (m : Res A) (k : A -> Res B) : Res B :=
  match m with
  | Some (inr a) => k a
  | Some (inl e) => Some (inl e)
  | None => None
  end.

Notation "'let*' x ':=' m 'in' k" := (bind m (fun x => k))
  (at level 10, x name, m at level 100, k at level 200).

(** Runs [f] over a list from left to right and stops at the first failure. *)
Fixpoint mapM {A B : Type} (f : A -> Res B) (l : list A) : Res (list B) :=
  match l with
  | [] => ok []
  | a :: l' => let* b := f a in let* bs := mapM f l' in ok (b :: bs)
  end.

(** Modelled from the spec: the scope search of section 4.2 ("First scope
    that defines the name wins; no merging of partial values"); the
    resolver's source is not among the files.  The chain is searched front
    to back. *)
Fixpoint lookupScopes (chain : ScopeChain) (name : string)
    : option (ScopeId * Template) :=
  match chain with
  | [] => None
  | (sid, m) :: chain' =>
      match m !! name with
      | Some value => Some (sid, value)
      | None => lookupScopes chain' name
      end
  end.

(** The part of the visited sequence that starts at [key]: the cycle that
    revisiting [key] closes. *)
Fixpoint cycleFrom (key : string * ScopeId) (visited : list (string * ScopeId))
    : list string :=
  match visited with
  | [] => []
  | k :: visited' =>
      if decide (k = key) then map fst visited else cycleFrom key visited'
  end.

(** Textual substitution: every reference is replaced by its value. *)
Fixpoint fill (t : Template) (values : list (string * string)) : Res string :=
  match t with
  | [] => ok ""
  | Lit s :: t' => let* rest := fill t' values in ok (s ++ rest)
  | Ref n :: t' =>
      match list_find (fun nv => nv.1 = n) values with
      | Some (_, (_, v)) => let* rest := fill t' values in ok (v ++ rest)
      | None => fail (Unresolved n)
      end
  end.

(** All the names some scope of the chain defines. *)
Definition definedNames (chain : ScopeChain) : gset string :=
  ⋃ (map (fun s : Scope => dom s.2) chain).

Section WithOrder.

(** The order in which the references of one template are resolved: the
    specification leaves it open ("regardless of traversal order"). *)
Variable visitOrder : list string -> list string.

(** Modelled from the spec: resolution of one variable reference (section
    4.2); the resolver's source is not among the files.  The name is looked
    up in the scope chain; meeting again a name already being resolved,
    from the same scope, is a circular reference, reported with the cycle
    itself; a name no scope defines is unresolved; otherwise the references
    inside the value are resolved and substituted. *)
Fixpoint resolveVar (fuel : nat) (chain : ScopeChain)
    (visited : list (string * ScopeId)) (name : string) : Res string :=
  match fuel with
  | O => None
  | S fuel' =>
      match lookupScopes chain name with
      | None => fail (Unresolved name)
      | Some (sid, value) =>
          if decide ((name, sid) ∈ visited)
          then fail (CircularReference (cycleFrom (name, sid) visited))
          else
            let* values :=
              mapM (fun n =>
                      let* v := resolveVar fuel' chain (visited ++ [(name, sid)]) n in
                      ok (n, v))
                   (visitOrder (refs value)) in
            fill value values
      end
  end.

(** A chain of live references never repeats a name, so it is no longer
    than the number of defined names. *)
Definition fuelFor (chain : ScopeChain) : nat := S (size (definedNames chain)).

(** One resolution call: the visited set starts empty. *)
Definition resolveRef (chain : ScopeChain) (name : string) : Res string :=
  resolveVar (fuelFor chain) chain [] name.

Definition resolveTemplate (chain : ScopeChain) (t : Template) : Res string :=
  let* values :=
    mapM (fun n => let* v := resolveRef chain n in ok (n, v)) (visitOrder (refs t)) in
  fill t values.

Definition resolveOptional (chain : ScopeChain) (t : option Template)
    : Res (option string) :=
  match t with
  | None => ok None
  | Some t => let* s := resolveTemplate chain t in ok (Some s)
  end.

Definition resolveRequest (chain : ScopeChain) (r : RequestItem) : Res ResolvedRequest :=
  let* url := resolveTemplate chain (ri_url r) in
  let* headers := resolveOptional chain (ri_headers r) in
  let* body := resolveOptional chain (ri_body r) in
  let* authConfig := resolveOptional chain (ri_authConfig r) in
  ok {| rr_name := ri_name r; rr_method := ri_method r; rr_url := url;
        rr_headers := headers; rr_body := body; rr_authConfig := authConfig;
        rr_folderPath := ri_folderPath r |}.

End WithOrder.

(** Modelled from the spec: the scope chain of section 4.2 ("nearest
    wins"); the resolver's source is not among the files.  Every request
    item of a tree comes with its scope chain: its own overrides, then the
    folders that enclose it, innermost first, then what [outer] holds (the
    collection and the global map). *)
Fixpoint scopedNode (path : string) (outer : ScopeChain) (n : Node)
    : list (ScopeChain * RequestItem) :=
  match n with
  | RequestNode r => [((ItemScope, ri_variables r) :: outer, r)]
  | FolderNode name variables children =>
      let path' := joinPath path name in
      flat_map (scopedNode path' ((FolderScope path', variables) :: outer)) children
  end.

Definition scopedRequests (c : Collection) (globals : gmap string Template)
    : list (ScopeChain * RequestItem) :=
  flat_map (scopedNode "" [(CollectionScope, c_variables c); (GlobalScope, globals)])
           (c_nodes c).

(** *** Specification vocabulary *)

(** [x] requires [y]: the value the chain gives [x] refers to [y]. *)
Definition requires (chain : ScopeChain) (x y : string) : Prop :=
  exists sid value, lookupScopes chain x = Some (sid, value) /\ In y (refs value).



(** [n] settles within [h] levels: it is defined, and every name its value
    refers to settles within [h - 1] levels.  A name settles when nothing
    it requires, however far, is undefined or requires itself. *)
Fixpoint Settles (chain : ScopeChain) (h : nat) (n : string) : Prop :=
  match h with
  | O => False
  | S h' =>
      exists sid value,
        lookupScopes chain n = Some (sid, value)
        /\ Forall (Settles chain h') (refs value)
  end.

Definition settles (chain : ScopeChain) (n : string) : Prop :=
  exists h, Settles chain h n.

(** [x] leads to [y]: it requires [y], and whatever else it requires
    settles. *)
Definition leadsTo (chain : ScopeChain) (x y : string) : Prop :=
  requires chain x y /\ forall n, requires chain x n -> n = y \/ settles chain n.

(** Every name of [path] leads to the next one, the last one to [back]. *)
Fixpoint chained (chain : ScopeChain) (path : list string) (back : string) : Prop :=
  match path with
  | [] => True
  | x :: path' => leadsTo chain x (hd back path') /\ chained chain path' back
  end.

(** A way into a cycle and round it, with nothing else in the way: the
    names of [tail] and then those of [cycle], all distinct, each leading
    to the next and the last one to the first name of [cycle].  The only
    failure that resolution can meet from these names is this cycle. *)
Definition lasso (chain : ScopeChain) (tail cycle : list string) : Prop :=
  cycle <> [] /\ NoDup (tail ++ cycle)%list
  /\ chained chain (tail ++ cycle)%list (hd EmptyString cycle).






(** The scope that defines [v] nearest to a request: the first of its
    scopes, innermost first, that has [v]. *)
Definition nearest (scopes : list (gmap string Template)) (v : string)
    (value : Template) : Prop :=
  exists pre m post,
    scopes = (pre ++ m :: post)%list
    /\ Forall (fun s : gmap string Template => s !! v = None) pre
    /\ m !! v = Some value.

(** The text a template stands for in the scopes of a request: literal
    text stands for itself, a reference for what the nearest value of its
    name stands for. *)
Inductive Denotes (scopes : list (gmap string Template)) : Template -> string -> Prop :=
| Denotes_nil : Denotes scopes [] ""
| Denotes_lit s t text :
    Denotes scopes t text -> Denotes scopes (Lit s :: t) (s ++ text)
| Denotes_ref v t value vtext text :
    nearest scopes v value ->
    Denotes scopes value vtext ->
    Denotes scopes t text ->
    Denotes scopes (Ref v :: t) (vtext ++ text).





(** The key under which a name enters the visited set. *)
Definition keyOf (chain : ScopeChain) (name : string) : string * ScopeId :=
  (name, match lookupScopes chain name with
         | Some (sid, _) => sid
         | None => GlobalScope
         end).

(** The keys of the visited set are keys of the chain. *)
Definition validKeys (chain : ScopeChain) (visited : list (string * ScopeId)) : Prop :=
  Forall (fun k => keyOf chain k.1 = k /\ is_Some (lookupScopes chain k.1)) visited.

(** *** Examples *)

(** Two variables that refer to each other. *)
Definition twoCycle : gmap string Template :=
  {[ "A" := [Lit "a-"; Ref "B"]; "B" := [Ref "A"; Lit "-b"] ]}.



(** A collection with one request, whose URL refers to [name], over the
    given collection variables. *)
Definition oneRequest (variables : gmap string Template) (name : string) : Collection :=
  {| c_name := "Aruba Central"; c_version := "1.0.0"; c_description := None;
     c_nodes :=
       [ RequestNode {| ri_name := "devices"; ri_method := "GET";
                        ri_url := [Lit "https://"; Ref name];
                        ri_headers := None; ri_body := None; ri_authConfig := None;
                        ri_folderPath := EmptyString; ri_variables := ∅ |} ];
     c_variables := variables |}.



(** Modelled from the spec: the contract [Resolve] of section 4.2; the
    resolver's source is not among the files.  One resolved request per
    request item, in document order; the first failure fails the whole. *)
Definition Resolve (visitOrder : list string -> list string)
    (c : Collection) (globals : gmap string Template) : Res (list ResolvedRequest) :=
  mapM (fun cr => resolveRequest visitOrder cr.1 cr.2) (scopedRequests c globals).

End Resolver.

(** ** The batch importer (specification, section 4.4) *)

Module Importer.
Import Model Resolver.

Inductive ParseError : Type :=
| MalformedStructure
| MissingField.

(** The error taxonomy of section 7. *)
Inductive ImportError : Type :=
| ParseFailed (e : ParseError)
| ResolutionFailed (e : VariableResolutionError)
| ValidationFailed (errors : list string)
| PersistenceFailed (cause : string).

Inductive SkipReason : Type :=
| BatchRolledBack
| Cancelled.

Inductive ImportOutcome : Type :=
| Imported
| Skipped (reason : SkipReason)
| Failed (error : ImportError).

Inductive Status : Type :=
| Committed
| RolledBack.

Record ImportResult : Type := {
  totalItems : nat;
  importedCount : nat;
  skippedCount : nat;
  failedCount : nat;
  outcomes : list ImportOutcome;
  status : Status;
}.

Record ImportOptions : Type := {
  maxFailureRatio : option Q;
  concurrencyLimit : option nat;
}.

Definition isImported (o : ImportOutcome) : bool :=
  match o with Imported => true | _ => false end.
Definition isSkipped (o : ImportOutcome) : bool :=
  match o with Skipped _ => true | _ => false end.
Definition isFailed (o : ImportOutcome) : bool :=
  match o with Failed _ => true | _ => false end.

Definition countOf (p : ImportOutcome -> bool) (l : list ImportOutcome) : nat :=
  List.length (List.filter p l).

Definition mkResult (st : Status) (os : list ImportOutcome) : ImportResult :=
  {| totalItems := List.length os;
     importedCount := countOf isImported os;
     skippedCount := countOf isSkipped os;
     failedCount := countOf isFailed os;
     outcomes := os;
     status := st |}.

(** Modelled from the spec: [failedCount / totalCount] of step 5, as a
    rational number. *)
Definition failureRatio (os : list ImportOutcome) : Q :=
  inject_Z (Z.of_nat (countOf isFailed os)) / inject_Z (Z.of_nat (List.length os)).

Definition defaultMaxFailureRatio : Q := 1 # 2.

(** Modelled from the spec: what the rollback of step 5 makes of an
    outcome; a tentative [Imported] becomes [Skipped BatchRolledBack]. *)
Definition rollbackOutcome (o : ImportOutcome) : ImportOutcome :=
  match o with
  | Imported => Skipped BatchRolledBack
  | other => other
  end.

(** The natural key of a record: collection identity (name and version),
    folder path, request name. *)
Definition NaturalKey : Type := string * string * string * string.

Definition naturalKey (c : Collection) (r : ResolvedRequest) : NaturalKey :=
  (c_name c, c_version c, rr_folderPath r, rr_name r).

Section WithCollaborators.

(** The raw document and the parser of section 4.1. *)
Variable Raw : Type.
Variable Parse : Raw -> ParseError + Collection.

(** The resolver of section 4.2: the check of the collection's and the
    folders' own variable maps, and the resolution of one request item in
    its scope chain. *)
Variable ResolveScopes :
  Collection -> gmap string Template -> option VariableResolutionError.
Variable ResolveItem : ScopeChain -> RequestItem -> VariableResolutionError + ResolvedRequest.

(** The validator of section 4.3. *)
Variable Validate : ResolvedRequest -> Validators.ValidationResult.

(** The store: an upsert by natural key either fails or gives the next
    state of the open transaction. *)
Variable Store : Type.
Variable upsert : Store -> NaturalKey -> ResolvedRequest -> string + Store.

(** Modelled from the spec: steps 2 and 3 of section 4.4 for one item; a
    resolution failure or a validation failure is that item's failure. *)
Definition check (cr : ScopeChain * RequestItem) : ImportError + ResolvedRequest :=
  match ResolveItem cr.1 cr.2 with
  | inl e => inl (ResolutionFailed e)
  | inr r =>
      let v := Validate r in
      if Validators.isValid v then inr r
      else inl (ValidationFailed (Validators.errors v))
  end.

(** Modelled from the spec: step 4 of section 4.4.  Inside the one
    transaction, every item still pending is upserted in order; an error of
    the store fails that item only. *)
Fixpoint persistAll (c : Collection) (items : list (ImportError + ResolvedRequest))
    (working : Store) : list ImportOutcome * Store :=
  match items with
  | [] => ([], working)
  | inl e :: items' =>
      let '(os, final) := persistAll c items' working in
      (Failed e :: os, final)
  | inr r :: items' =>
      match upsert working (naturalKey c r) r with
      | inl cause =>
          let '(os, final) := persistAll c items' working in
          (Failed (PersistenceFailed cause) :: os, final)
      | inr working' =>
          let '(os, final) := persistAll c items' working' in
          (Imported :: os, final)
      end
  end.

(** The outcomes after step 4, before the commit decision, and the state of
    the open transaction. *)
Definition tentative (c : Collection) (globals : gmap string Template) (store : Store)
    : list ImportOutcome * Store :=
  persistAll c (map check (scopedRequests c globals)) store.

Definition threshold (options : ImportOptions) : Q :=
  default defaultMaxFailureRatio (maxFailureRatio options).

(** Modelled from the spec: the algorithm of section 4.4, steps 1 to 5; the
    importer's source is not among the files.  The result comes with the
    store as the call leaves it: the state the transaction reached after a
    commit, the state before the call after a rollback or an abort. *)
Definition Import (raw : Raw) (globals : gmap string Template)
    (options : ImportOptions) (store : Store) : ImportResult * Store :=
  match Parse raw with
  | inl e => (mkResult RolledBack [Failed (ParseFailed e)], store)
  | inr c =>
      match ResolveScopes c globals with
      | Some e => (mkResult RolledBack [Failed (ResolutionFailed e)], store)
      | None =>
          let '(os, working) := tentative c globals store in
          if negb (Qle_bool (failureRatio os) (threshold options))
          then (mkResult RolledBack (map rollbackOutcome os), store)
          else (mkResult Committed os, working)
      end
  end.

End WithCollaborators.

(** *** Examples *)

(** A request at the root of a document, with a literal URL. *)
Definition rootRequest (name url : string) : Node :=
  RequestNode {| ri_name := name; ri_method := "GET"; ri_url := [Lit url];
                 ri_headers := None; ri_body := None; ri_authConfig := None;
                 ri_folderPath := EmptyString; ri_variables := ∅ |}.

(** A document of five requests, three of them over plain HTTP. *)
Definition fiveRequests : Collection :=
  {| c_name := "Aruba Central"; c_version := "1.0.0"; c_description := None;
     c_nodes :=
       [ rootRequest "devices" "https://central.example/devices";
         rootRequest "sites" "https://central.example/sites";
         rootRequest "users" "http://central.example/users";
         rootRequest "groups" "http://central.example/groups";
         rootRequest "labels" "http://central.example/labels" ];
     c_variables := ∅ |}.

(** A document of ten requests, three of them over plain HTTP. *)
Definition tenRequests : Collection :=
  {| c_name := "Aruba Central"; c_version := "1.0.0"; c_description := None;
     c_nodes :=
       [ rootRequest "devices" "https://central.example/devices";
         rootRequest "users" "http://central.example/users";
         rootRequest "sites" "https://central.example/sites";
         rootRequest "groups" "http://central.example/groups";
         rootRequest "labels" "http://central.example/labels";
         rootRequest "clients" "https://central.example/clients";
         rootRequest "alerts" "https://central.example/alerts";
         rootRequest "events" "https://central.example/events";
         rootRequest "reports" "https://central.example/reports";
         rootRequest "topology" "https://central.example/topology" ];
     c_variables := ∅ |}.

(** Collaborators for the examples: the document is its own parse; the
    references are visited in textual order; the rule set is
    [validateApiRequest] on [exampleHost]; the store is a map by natural
    key whose upserts succeed. *)
Definition exampleParse (raw : Collection) : ParseError + Collection := inr raw.

Definition exampleResolveScopes (c : Collection) (globals : gmap string Template)
    : option VariableResolutionError := None.

(** The resolver of the model; its step bound is never exhausted, so the
    last branch is never taken. *)
Definition exampleResolveItem (chain : ScopeChain) (r : RequestItem)
    : VariableResolutionError + ResolvedRequest :=
  match resolveRequest id chain r with
  | Some outcome => outcome
  | None => inl (CircularReference [])
  end.

Definition exampleValidate (r : ResolvedRequest) : Validators.ValidationResult :=
  Validators.validateApiRequest (H := exampleHost)
    {| Validators.req_name := Js.JStr (rr_name r);
       Validators.req_method := Js.JStr (rr_method r);
       Validators.req_url := Js.JStr (rr_url r);
       Validators.req_description := Js.JUndefined;
       Validators.req_headers :=
         match rr_headers r with Some h => Js.JStr h | None => Js.JUndefined end;
       Validators.req_authConfig := Js.JUndefined;
       Validators.req_body :=
         match rr_body r with Some b => Js.JStr b | None => Js.JUndefined end |}.

Definition exampleUpsert (store : gmap NaturalKey ResolvedRequest)
    (key : NaturalKey) (r : ResolvedRequest)
    : string + gmap NaturalKey ResolvedRequest :=
  inr (<[key := r]> store).

Definition exampleImport (raw : Collection) (options : ImportOptions)
    : ImportResult * gmap NaturalKey ResolvedRequest :=
  Import Collection exampleParse exampleResolveScopes exampleResolveItem
         exampleValidate (gmap NaturalKey ResolvedRequest) exampleUpsert
         raw ∅ options ∅.

Definition defaultOptions : ImportOptions :=
  {| maxFailureRatio := None; concurrencyLimit := None |}.

End Importer.

(** ** The words of a regular expression *)

Module RegexWords.
Import Regex.
#[local] Open Scope list_scope.

(** [Matches r l]: the code units [l] form a word of [r]. *)
Inductive Matches : Re -> list ascii -> Prop :=
| MEps : Matches Eps []
| MChr p c : p c = true -> Matches (Chr p) [c]
| MCat r1 r2 l1 l2 :
    Matches r1 l1 -> Matches r2 l2 -> Matches (Cat r1 r2) (l1 ++ l2)
| MAltL r1 r2 l : Matches r1 l -> Matches (Alt r1 r2) l
| MAltR r1 r2 l : Matches r2 l -> Matches (Alt r1 r2) l
| MStarNil r : Matches (Star r) []
| MStarApp r l1 l2 :
    Matches r l1 -> Matches (Star r) l2 -> Matches (Star r) (l1 ++ l2).

(** [l] holds a word of [r] somewhere. *)
Definition Contains (r : Re) (l : list ascii) : Prop :=
  exists pre m post, l = pre ++ m ++ post /\ Matches r m.

(** Two words that differ in the case of their letters only. *)
Definition sameLetters (k kw : list ascii) : Prop :=
  Forall2 (fun a b => Js.ciEq a b = true) k kw.

End RegexWords.


(** ** The texts the validators accept, said without regular expressions *)

Module Shapes.
Import Js RegexWords.
#[local] Open Scope list_scope.

Definition isHexDigit (c : ascii) : bool :=
  existsb (Ascii.eqb c) (list_ascii_of_string "0123456789abcdefABCDEF").

Definition isWord (c : ascii) : bool :=
  isDigit c || isLower c || isUpper c || Ascii.eqb c "_".

(** [n] hexadecimal digits *)
Definition hexDigits (n : nat) (l : list ascii) : Prop :=
  List.length l = n /\ Forall (fun c => isHexDigit c = true) l.

(** The layout 8-4-4-4-12 of a UUID of version 1 to 5, whose variant digit
    is one of 8, 9, a and b. *)
Definition Uuid (l : list ascii) : Prop :=
  exists a b v c r d e,
    l = a ++ "-"%char :: b ++ "-"%char :: v :: c ++ "-"%char :: r :: d ++ "-"%char :: e
    /\ hexDigits 8 a /\ hexDigits 4 b
    /\ In v (list_ascii_of_string "12345") /\ hexDigits 3 c
    /\ In r (list_ascii_of_string "89abAB") /\ hexDigits 3 d
    /\ hexDigits 12 e.

(** One decimal digit or more *)
Definition Numeric (l : list ascii) : Prop :=
  l <> [] /\ Forall (fun c => isDigit c = true) l.

(** A part of an address: not empty, no space and no [@] *)
Definition emailPart (l : list ascii) : Prop :=
  l <> [] /\ Forall (fun c => isSpace c = false /\ c <> "@"%char) l.

(** [local@domain.tld]; the domain and the last part may hold dots
    themselves. *)
Definition Email (l : list ascii) : Prop :=
  exists loc domain tld,
    l = loc ++ "@"%char :: domain ++ "."%char :: tld
    /\ emailPart loc /\ emailPart domain /\ emailPart tld.

(** Only spaces, or nothing *)
Definition Blank (l : list ascii) : Prop := Forall (fun c => isSpace c = true) l.

(** [on], a word, spaces and [=]: the start of an event handler *)
Definition Handler (m : list ascii) : Prop :=
  exists o w sp,
    m = o ++ w ++ sp ++ ["="%char]
    /\ sameLetters o (list_ascii_of_string "on")
    /\ w <> [] /\ Forall (fun c => isWord c = true) w
    /\ Forall (fun c => isSpace c = true) sp.

(** [m] occurs in [l] *)
Definition occursIn (P : list ascii -> Prop) (l : list ascii) : Prop :=
  exists pre m post, l = pre ++ m ++ post /\ P m.

(** What [validateSearchQuery] refuses: a script tag, a javascript or data
    scheme, or an event handler, somewhere in the text and in any case. *)
Definition Suspicious (l : list ascii) : Prop :=
  occursIn (fun m => sameLetters m (list_ascii_of_string "<script")) l
  \/ occursIn (fun m => sameLetters m (list_ascii_of_string "javascript:")) l
  \/ occursIn Handler l
  \/ occursIn (fun m => sameLetters m (list_ascii_of_string "data:")) l.

End Shapes.

(** ** src/utils/validators.ts: [sanitizeInput] and [validateOrThrow] *)

Module InputSanitizer.
Import Js.
#[local] Open Scope list_scope.

(** The classes of the first two replacements: the angle brackets, and
    the single and the double quote. *)
Definition isAngle (c : ascii) : bool := Ascii.eqb c "<" || Ascii.eqb c ">".
Definition isQuote (c : ascii) : bool :=
  Ascii.eqb c "'" || (nat_of_ascii c =? 34)%nat.

(** [s.replace(/[...]/g, '')] for a class of code units *)
Definition removeChars (p : ascii -> bool) (s : list ascii) : list ascii :=
  List.filter (fun c => negb (p c)) s.

(** [/javascript:/i] at the head of [s]: what follows the match. *)
Definition matchScheme (s : list ascii) : option (list ascii) :=
  ErrorHandler.stripPrefixI (list_ascii_of_string "javascript:") s.

(** [/on\w+\s*=/i] at the head of [s]: what follows the match.  Both
    repetitions are greedy, and giving back a code unit never helps,
    since [=] is neither a word character nor a space. *)
Definition matchHandler (s : list ascii) : option (list ascii) :=
  match ErrorHandler.stripPrefixI (list_ascii_of_string "on") s with
  | Some (w :: r) =>
      if Shapes.isWord w then
        match ErrorHandler.dropWhile isSpace (ErrorHandler.dropWhile Shapes.isWord r) with
        | e :: rest => if Ascii.eqb e "=" then Some rest else None
        | [] => None
        end
      else None
  | _ => None
  end.

(** [s.replace(re, '')] under the [g] flag: the leftmost match is dropped
    and the search resumes behind it; where nothing matches, the code unit
    is copied.  [fuel] bounds the number of steps. *)
Fixpoint removeFrom (fuel : nat) (m : list ascii -> option (list ascii))
    (s : list ascii) : list ascii :=
  match fuel with
  | O => s
  | S fuel' =>
      match s with
      | [] => []
      | c :: s' =>
          match m s with
          | Some rest => removeFrom fuel' m rest
          | None => c :: removeFrom fuel' m s'
          end
      end
  end.

Definition removeAll (m : list ascii -> option (list ascii)) (s : list ascii)
    : list ascii :=
  removeFrom (List.length s) m s.

Definition sanitizeInput (input : JsValue) : string :=
  match input with
  | JStr s =>
      trim (string_of_list_ascii
              (removeAll matchHandler
                 (removeAll matchScheme
                    (removeChars isQuote
                       (removeChars isAngle (list_ascii_of_string s))))))
  | _ => ""
  end.

(** A text has no space at either end. *)
Definition Trimmed (l : list ascii) : Prop :=
  match l with [] => True | c :: _ => isSpace c = false end
  /\ match rev l with [] => True | c :: _ => isSpace c = false end.

End InputSanitizer.

Module Throwing.
Import Js Validators ErrorHandler.

(** How a call ends: it returns, or it throws. *)
Inductive Completion (A : Type) : Type :=
| Returns (a : A)
| Throws (e : Thrown).
Arguments Returns {A} a.
Arguments Throws {A} e.

Definition validateOrThrow (validation : ValidationResult) (context : option string)
    (stack : string) : Completion unit :=
  if negb (isValid validation) then
    let message :=
      match context with
      | Some c =>
          if String.eqb c ""
          then "Validation failed: " ++ join ", " (errors validation)
          else "Validation failed in " ++ c ++ ": " ++ join ", " (errors validation)
      | None => "Validation failed: " ++ join ", " (errors validation)
      end in
    Throws (ThrownAppError
              (newValidationError message
                 (JObj [("errors", JArr (map JStr (errors validation)))]) stack))
  else Returns tt.

End Throwing.

(** ** Vocabulary for the details of a response *)

Module Details.
Import Js ErrorHandler.

(** The body of the loop of [sanitizeErrorDetails], and what it makes of
    one entry. *)
Definition entry (value : JsValue) : JsValue :=
  match value with
  | JStr s => JStr (sanitizeErrorMessage s)
  | JNull | JObj _ | JArr _ => sanitizeErrorDetails value
  | _ => value
  end.

Definition field (kv : string * JsValue) : string * JsValue := (kv.1, entry kv.2).

(** No array anywhere inside a value. *)
Fixpoint noArrays (v : JsValue) : bool :=
  match v with
  | JArr _ => false
  | JObj fields => forallb (fun kv => noArrays kv.2) fields
  | _ => true
  end.

(** No key [__proto__] anywhere inside a value: an assignment to that key
    sets the prototype of the copy instead of a field of its own. *)
Fixpoint plainKeys (v : JsValue) : bool :=
  match v with
  | JObj fields =>
      forallb (fun kv => negb (String.eqb kv.1 "__proto__") && plainKeys kv.2) fields
  | JArr items => forallb plainKeys items
  | _ => true
  end.

End Details.

(* ===================================================================== *)
(** * Part II: theorems                                                   *)
(* ===================================================================== *)


(** ** Validators *)

Module ValidatorsFacts.
Import Js Validators.

Lemma result_consistent (errs : list string) : Consistent (result errs).
Proof.
  unfold Consistent, result; simpl.
  destruct errs; simpl; split; intros; congruence.
Qed.

Lemma result_isValid (errs : list string) :
  isValid (result errs) = true <-> errs = [].
Proof. apply result_consistent. Qed.

Lemma result_isValid_false (errs : list string) :
  isValid (result errs) = false <-> errs <> [].
Proof. unfold result; simpl. destruct errs; simpl; split; intros; congruence. Qed.

Create HintDb validators.
#[local] Hint Resolve result_consistent : validators.

Lemma validateAuthConfig_consistent (v : JsValue) : Consistent (validateAuthConfig v).
Proof.
  unfold validateAuthConfig.
  destruct (falsy v); [ unfold Consistent; simpl; tauto | ].
  destruct (negb (isObjectType v)); [ | auto with validators ].
  unfold Consistent, push; simpl; split; intros; congruence.
Qed.

Lemma validateJson_consistent `{Host} (v : JsValue) (field : string) :
  Consistent (validateJson v field).
Proof.
  unfold validateJson.
  destruct (falsy v); [ unfold Consistent; simpl; tauto | auto with validators ].
Qed.

(** C4: every validation operation returns a result whose [isValid] is true
    if and only if its [errors] list is empty. *)
Theorem validators_isValid_iff_no_errors `{Host} :
  (forall method, Consistent (validateHttpMethod method))
  /\ (forall url, Consistent (validateUrl url))
  /\ (forall value field lo hi, Consistent (validateStringLength value field lo hi))
  /\ (forall value field lo hi, Consistent (validateNumericRange value field lo hi))
  /\ (forall id, Consistent (validateDatabaseId id))
  /\ (forall email, Consistent (validateEmail email))
  /\ (forall value field, Consistent (validateJson value field))
  /\ (forall query, Consistent (validateSearchQuery query))
  /\ (forall page limit, Consistent (validatePaginationParams page limit))
  /\ (forall authConfig, Consistent (validateAuthConfig authConfig))
  /\ (forall request, Consistent (validateApiRequest request))
  /\ (forall validations, Consistent (combineValidations validations)).
Proof.
  repeat match goal with |- _ /\ _ => split end; intros;
    try apply result_consistent;
    try apply validateAuthConfig_consistent;
    try apply validateJson_consistent;
    try apply (result_consistent (flat_map errors validations)).
Qed.

Lemma existsb_eqb_In (x : string) (l : list string) :
  existsb (String.eqb x) l = true <-> In x l.
Proof.
  rewrite existsb_exists. split.
  - intros (y & Hy & Heq). apply String.eqb_eq in Heq. now subst.
  - intros Hx. exists x. split; [ assumption | apply String.eqb_refl ].
Qed.

Lemma falsy_JStr (s : string) : falsy (JStr s) = String.eqb s "".
Proof. unfold falsy; simpl. apply negb_involutive. Qed.

(** C5: on a string, [validateHttpMethod] accepts exactly the inputs whose
    upper case is one of GET, POST, PUT, DELETE, PATCH, HEAD, OPTIONS; the
    empty string gets 'HTTP method is required', every other rejected
    string the whitelist error. *)
Theorem validateHttpMethod_spec (s : string) :
  (isValid (validateHttpMethod (JStr s)) = true <-> In (toUpperCase s) validMethods)
  /\ validateHttpMethod (JStr "")
     = {| isValid := false; errors := ["HTTP method is required"] |}
  /\ errors (validateHttpMethod (JStr s))
     = (if String.eqb s "" then ["HTTP method is required"]
        else if decide (In (toUpperCase s) validMethods) then []
        else [whitelistError]).
Proof.
  assert (Herrs : errors (validateHttpMethod (JStr s))
     = (if String.eqb s "" then ["HTTP method is required"]
        else if decide (In (toUpperCase s) validMethods) then []
        else [whitelistError])).
  { unfold validateHttpMethod. rewrite falsy_JStr.
    destruct (String.eqb s ""); [ reflexivity | ].
    destruct (existsb (String.eqb (toUpperCase s)) validMethods) eqn:E;
      destruct (decide (In (toUpperCase s) validMethods)) as [Hin | Hin];
      try reflexivity.
    - apply existsb_eqb_In in E. contradiction.
    - apply existsb_eqb_In in Hin. congruence. }
  split; [ | split; [ reflexivity | exact Herrs ] ].
  pose proof (result_consistent
                (errors (validateHttpMethod (JStr s)))) as Hc.
  assert (Hv : isValid (validateHttpMethod (JStr s)) = true
               <-> errors (validateHttpMethod (JStr s)) = []).
  { apply (result_consistent _). }
  rewrite Hv, Herrs.
  destruct (String.eqb s "") eqn:Es.
  - apply String.eqb_eq in Es. subst s. split; [ congruence | ].
    vm_compute. intuition congruence.
  - destruct (decide (In (toUpperCase s) validMethods)); split; intros; congruence || tauto.
Qed.

(** C6: on a string, [validateUrl] accepts exactly the non-empty inputs that
    the URL parser accepts, that start with 'https://' and that are at most
    2000 code units long; the empty string gets 'URL is required', an input
    the parser accepts gets 'URL must use HTTPS protocol' unless it starts
    with 'https://', and an input the parser refuses gets only 'URL format
    is invalid'. *)
Theorem validateUrl_spec `{Host} (s : string) :
  (isValid (validateUrl (JStr s)) = true
   <-> s <> "" /\ urlParses s = true /\ startsWith s "https://" = true
       /\ String.length s <= 2000)
  /\ errors (validateUrl (JStr s))
     = (if String.eqb s "" then ["URL is required"]
        else if urlParses s then
          ((if startsWith s "https://" then [] else ["URL must use HTTPS protocol"])
           ++ (if decide (String.length s <= 2000) then []
               else ["URL is too long (max 2000 characters)"]))%list
        else ["URL format is invalid"]).
Proof.
  assert (Herrs : errors (validateUrl (JStr s))
     = (if String.eqb s "" then ["URL is required"]
        else if urlParses s then
          ((if startsWith s "https://" then [] else ["URL must use HTTPS protocol"])
           ++ (if decide (String.length s <= 2000) then []
               else ["URL is too long (max 2000 characters)"]))%list
        else ["URL format is invalid"])).
  { unfold validateUrl. rewrite falsy_JStr.
    destruct (String.eqb s ""); [ reflexivity | ].
    destruct (urlParses s); [ | reflexivity ].
    destruct (startsWith s "https://"); simpl;
      destruct (Nat.ltb_spec 2000 (String.length s));
      destruct (decide (String.length s <= 2000)); try reflexivity; lia. }
  split; [ | exact Herrs ].
  assert (Hv : isValid (validateUrl (JStr s)) = true
               <-> errors (validateUrl (JStr s)) = []).
  { apply (result_consistent _). }
  rewrite Hv, Herrs.
  destruct (String.eqb s "") eqn:Es.
  - apply String.eqb_eq in Es. split; [ congruence | tauto ].
  - apply String.eqb_neq in Es.
    destruct (urlParses s); [ | split; [ congruence | intros (_ & ? & _); congruence ] ].
    destruct (startsWith s "https://");
      destruct (decide (String.length s <= 2000)); simpl;
      split; try congruence; try tauto; intros (_ & _ & ? & ?); congruence || lia.
Qed.


(** *** [validateApiRequest] *)

Lemma push_sub (errs : list string) (v : ValidationResult) :
  Consistent v ->
  (if negb (isValid v) then pushAll errs (errors v) else errs) = (errs ++ errors v)%list.
Proof.
  intros Hc. unfold pushAll. destruct (isValid v) eqn:E; simpl; [ | reflexivity ].
  apply Hc in E. rewrite E. now rewrite app_nil_r.
Qed.

Section ApiRequest.
Context `{Host}.
Variable request : ApiRequest.

Lemma validateApiRequest_errors :
  errors (validateApiRequest request)
  = (nameErrors request ++ methodErrors request ++ urlErrors request
       ++ descriptionErrors request ++ authErrors request
       ++ headersErrors request ++ bodyErrors request)%list.
Proof.
  unfold validateApiRequest, nameErrors, methodErrors, urlErrors, descriptionErrors,
    authErrors, headersErrors, bodyErrors, nameValidation, descValidation.
  cbv zeta. unfold result at 1. cbn [errors].
  rewrite !push_sub by
    (apply result_consistent || apply validateAuthConfig_consistent
     || apply validateJson_consistent).
  unfold push.
  destruct (falsy (req_name request)), (falsy (req_method request)),
    (falsy (req_url request)), (truthy (req_description request)),
    (truthy (req_authConfig request)),
    (truthy (req_headers request) && isString (req_headers request)),
    (truthy (req_body request) && isString (req_body request));
    cbn [app]; rewrite ?app_nil_r, <- ?app_assoc; reflexivity.
Qed.

End ApiRequest.

Lemma truthy_falsy (v : JsValue) : truthy v = true <-> falsy v = false.
Proof. unfold falsy. destruct (truthy v); simpl; split; congruence. Qed.

Lemma required_nil (field : JsValue) (msg : string) (v : ValidationResult) :
  Consistent v ->
  (if falsy field then [msg] else errors v) = []
  <-> truthy field = true /\ isValid v = true.
Proof.
  intros Hc. unfold Consistent in Hc. unfold falsy. destruct (truthy field); simpl.
  - tauto.
  - split; [ discriminate | intros [? _]; discriminate ].
Qed.

Lemma optional_nil (b : bool) (v : ValidationResult) :
  Consistent v ->
  (if b then errors v else []) = [] <-> (b = true -> isValid v = true).
Proof.
  intros Hc. unfold Consistent in Hc. destruct b.
  - tauto.
  - split; [ discriminate | reflexivity ].
Qed.

(** C7: when [name], [method] or [url] is absent or empty (or falsy in any
    other way), [validateApiRequest] rejects the request and reports the
    matching required-field message; and the request is accepted exactly
    when the three required fields are present and valid and no optional
    field that is checked is invalid. *)
Theorem validateApiRequest_required_fields `{Host} (request : ApiRequest) :
  let r := validateApiRequest request in
  (falsy (req_name request) = true ->
     isValid r = false /\ In "API name is required" (errors r))
  /\ (falsy (req_method request) = true ->
     isValid r = false /\ In "HTTP method is required" (errors r))
  /\ (falsy (req_url request) = true ->
     isValid r = false /\ In "URL is required" (errors r))
  /\ (isValid r = true <->
        (truthy (req_name request) = true
         /\ isValid (validateStringLength (req_name request) "name"
                                          (Some (ofZ 1)) (Some (ofZ 200))) = true)
        /\ (truthy (req_method request) = true
            /\ isValid (validateHttpMethod (req_method request)) = true)
        /\ (truthy (req_url request) = true
            /\ isValid (validateUrl (req_url request)) = true)
        /\ (truthy (req_description request) = true ->
            isValid (validateStringLength (req_description request) "description"
                                          (Some (ofZ 0)) (Some (ofZ 1000))) = true)
        /\ (truthy (req_authConfig request) = true ->
            isValid (validateAuthConfig (req_authConfig request)) = true)
        /\ (truthy (req_headers request) && isString (req_headers request) = true ->
            isValid (validateJson (req_headers request) "headers") = true)
        /\ (truthy (req_body request) && isString (req_body request) = true ->
            isValid (validateJson (req_body request) "body") = true)).
Proof.
  intros r.
  assert (Hv : forall b, isValid r = b <-> (if b then errors r = [] else errors r <> [])).
  { intros [|]; [ apply (result_consistent _) | apply (result_isValid_false _) ]. }
  assert (He := validateApiRequest_errors request). fold r in He.
  assert (Hreq : forall part pre post msg,
             errors r = (pre ++ part ++ post)%list -> part = [msg] ->
             isValid r = false /\ In msg (errors r)).
  { intros part pre post msg E ->. split.
    - apply (Hv false). rewrite E. destruct pre; discriminate.
    - rewrite E. apply in_or_app. right. now left. }
  split; [ | split; [ | split ] ].
  - intros Hf. apply (Hreq (nameErrors request) [] _ _ He).
    unfold nameErrors. now rewrite Hf.
  - intros Hf. apply (Hreq (methodErrors request) _ _ _ He).
    unfold methodErrors. now rewrite Hf.
  - intros Hf. rewrite app_assoc in He.
    apply (Hreq (urlErrors request) _ _ _ He).
    unfold urlErrors. now rewrite Hf.
  - rewrite (Hv true), He, !app_nil.
    unfold nameErrors, methodErrors, urlErrors, descriptionErrors, authErrors,
      headersErrors, bodyErrors, nameValidation, descValidation.
    pose proof (required_nil (req_name request) "API name is required" _
                  (result_consistent _ : Consistent
                     (validateStringLength (req_name request) "name"
                        (Some (ofZ 1)) (Some (ofZ 200))))).
    pose proof (required_nil (req_method request) "HTTP method is required" _
                  (result_consistent _ : Consistent
                     (validateHttpMethod (req_method request)))).
    pose proof (required_nil (req_url request) "URL is required" _
                  (result_consistent _ : Consistent (validateUrl (req_url request)))).
    pose proof (optional_nil (truthy (req_description request)) _
                  (result_consistent _ : Consistent
                     (validateStringLength (req_description request) "description"
                        (Some (ofZ 0)) (Some (ofZ 1000))))).
    pose proof (optional_nil (truthy (req_authConfig request)) _
                  (validateAuthConfig_consistent (req_authConfig request))).
    pose proof (optional_nil
                  (truthy (req_headers request) && isString (req_headers request)) _
                  (validateJson_consistent (req_headers request) "headers")).
    pose proof (optional_nil
                  (truthy (req_body request) && isString (req_body request)) _
                  (validateJson_consistent (req_body request) "body")).
    tauto.
Qed.

(** The request with no field at all, on [exampleHost]: the three
    required-field messages. *)
Lemma validateApiRequest_required_fields_witness :
  (isValid (validateApiRequest (H := exampleHost) emptyRequest) = false
   /\ In "API name is required"
         (errors (validateApiRequest (H := exampleHost) emptyRequest)))
  /\ (isValid (validateApiRequest (H := exampleHost) emptyRequest) = false
   /\ In "HTTP method is required"
         (errors (validateApiRequest (H := exampleHost) emptyRequest)))
  /\ (isValid (validateApiRequest (H := exampleHost) emptyRequest) = false
   /\ In "URL is required"
         (errors (validateApiRequest (H := exampleHost) emptyRequest))).
Proof.
  pose proof (validateApiRequest_required_fields (H := exampleHost) emptyRequest)
    as (Hname & Hmethod & Hurl & _).
  split; [ | split ].
  - apply Hname. reflexivity.
  - apply Hmethod. reflexivity.
  - apply Hurl. reflexivity.
Defined.

(** *** [validateAuthConfig] *)

Lemma includes_authTypes_truthy (v : JsValue) :
  includes authTypes v = true -> truthy v = true.
Proof.
  destruct v; simpl; try discriminate.
  destruct (String.eqb s "") eqn:E; [ | reflexivity ].
  apply String.eqb_eq in E. subst s. discriminate.
Qed.

(** C8, as the code has it: every falsy auth config ([null], [undefined],
    but also [false], [0], [NaN] and ['']) is accepted, with no error; a
    truthy config that is not of type object is rejected with the one
    error [Auth config must be an object]; a truthy object is accepted
    exactly when its type is one of bearer, apikey, basic, oauth2, its
    token is truthy if the type is bearer, and its key and value are both
    truthy if the type is apikey, and its errors are those of the three
    checks in their order. *)
Theorem validateAuthConfig_spec (authConfig : JsValue) :
  let type := getProp authConfig "type" in
  let token := getProp authConfig "token" in
  let key := getProp authConfig "key" in
  let value := getProp authConfig "value" in
  (isValid (validateAuthConfig authConfig) = true
   <-> falsy authConfig = true
       \/ (isObjectType authConfig = true
           /\ includes authTypes type = true
           /\ (strictEqStr type "bearer" = true -> truthy token = true)
           /\ (strictEqStr type "apikey" = true ->
               truthy key = true /\ truthy value = true)))
  /\ (falsy authConfig = true ->
      validateAuthConfig authConfig = {| isValid := true; errors := [] |})
  /\ (truthy authConfig = true -> isObjectType authConfig = false ->
      validateAuthConfig authConfig
      = {| isValid := false; errors := ["Auth config must be an object"] |})
  /\ (truthy authConfig = true -> isObjectType authConfig = true ->
      errors (validateAuthConfig authConfig)
      = ((if falsy type then ["Auth type is required"]
          else if includes authTypes type then []
          else ["Auth type must be one of: bearer, apikey, basic, oauth2"])
         ++ (if strictEqStr type "bearer" && falsy token
             then ["Bearer token is required for bearer auth"] else [])
         ++ (if strictEqStr type "apikey" && (falsy key || falsy value)
             then ["API key and value are required for apikey auth"] else []))%list).
Proof.
  intros type token key value.
  repeat match goal with |- _ /\ _ => split end.
  - unfold validateAuthConfig. fold type token key value.
    destruct (falsy authConfig) eqn:Ef; [ simpl; tauto | ].
    destruct (isObjectType authConfig) eqn:Eo; cbn [negb].
    2:{ cbn [isValid]. split; [ discriminate | intros [? | (? & _)]; discriminate ]. }
    rewrite result_isValid.
    pose proof (includes_authTypes_truthy type) as Hinc.
    unfold falsy, push.
    destruct (truthy type) eqn:Et, (includes authTypes type) eqn:Ei,
      (strictEqStr type "bearer") eqn:Eb, (strictEqStr type "apikey") eqn:Ea,
      (truthy token), (truthy key), (truthy value);
      simpl; try (specialize (Hinc eq_refl); discriminate);
      split; try discriminate; try reflexivity;
      intros; intuition (discriminate || congruence).
  - intros Ef. unfold validateAuthConfig. now rewrite Ef.
  - intros Et Eo. apply truthy_falsy in Et.
    unfold validateAuthConfig. now rewrite Et, Eo.
  - intros Et Eo. apply truthy_falsy in Et.
    unfold validateAuthConfig. fold type token key value. rewrite Et, Eo.
    cbn [negb errors result]. unfold push.
    destruct (falsy type), (includes authTypes type),
      (strictEqStr type "bearer" && falsy token),
      (strictEqStr type "apikey" && (falsy key || falsy value)); reflexivity.
Qed.

(** A number is a truthy config that is no object: it is rejected, and
    the message says why. *)
Lemma validateAuthConfig_spec_witness :
  truthy (JNum (ofZ 5)) = true /\ isObjectType (JNum (ofZ 5)) = false
  /\ validateAuthConfig (JNum (ofZ 5))
     = {| isValid := false; errors := ["Auth config must be an object"] |}.
Proof.
  split; [ reflexivity | split; [ reflexivity | ] ].
  apply (validateAuthConfig_spec (JNum (ofZ 5))); reflexivity.
Defined.

(** C8, counterexample: the empty string is present (neither [null] nor
    [undefined]) and is not an object, yet it is accepted. *)
Lemma validateAuthConfig_accepts_empty_string :
  JStr "" <> JNull /\ JStr "" <> JUndefined
  /\ isObjectType (JStr "") = false
  /\ isValid (validateAuthConfig (JStr "")) = true.
Proof. repeat split; discriminate. Qed.

(** *** Vectors of the test suite *)

Example validateHttpMethod_lowercase :
  validateHttpMethod (JStr "get") = {| isValid := true; errors := [] |}.
Proof. reflexivity. Qed.

Example validateUrl_http :
  validateUrl (H := exampleHost) (JStr "http://api.example.com")
  = {| isValid := false; errors := ["URL must use HTTPS protocol"] |}.
Proof. reflexivity. Qed.

Example validateAuthConfig_bearer_without_token :
  validateAuthConfig (JObj [("type", JStr "bearer")])
  = {| isValid := false; errors := ["Bearer token is required for bearer auth"] |}.
Proof. reflexivity. Qed.

Example validateApiRequest_valid :
  validateApiRequest (H := exampleHost)
    {| req_name := JStr "Get Users"; req_method := JStr "GET";
       req_url := JStr "https://api.example.com/users";
       req_description := JStr "Retrieve all users";
       req_headers := JObj [("Content-Type", JStr "application/json")];
       req_authConfig := JObj [("type", JStr "bearer"); ("token", JStr "abc123")];
       req_body := JUndefined |}
  = {| isValid := true; errors := [] |}.
Proof. vm_compute. reflexivity. Qed.

(** The suite expects this address to be refused; the pattern of the code
    accepts it. *)
Example validateEmail_double_dot :
  validateEmail (JStr "user..double@domain.com") = {| isValid := true; errors := [] |}.
Proof. vm_compute. reflexivity. Qed.

End ValidatorsFacts.

(** ** Error handler *)

Module ErrorHandlerFacts.
Import Js ErrorHandler.
#[local] Open Scope list_scope.

(** *** Code units *)

Lemma lower_upper (k : ascii) : isLower k = true -> isUpper (upperChar k) = true.
Proof. each_ascii k; vm_compute; congruence. Qed.

Lemma upper_plain (c : ascii) :
  isUpper (upperChar c) = true ->
  isSpace c = false /\ isDelim c = false /\ c <> "*"%char.
Proof. each_ascii c; vm_compute; intuition congruence. Qed.

Lemma ciEq_letter (c k : ascii) :
  isLower k = true -> ciEq c k = true ->
  isSpace c = false /\ isDelim c = false /\ c <> "*"%char.
Proof.
  intros Hk Hc. apply upper_plain.
  unfold ciEq in Hc. apply Ascii.eqb_eq in Hc. rewrite Hc. now apply lower_upper.
Qed.

Lemma ciEq_refl (c : ascii) : ciEq c c = true.
Proof. unfold ciEq. apply Ascii.eqb_refl. Qed.

Lemma delim_not_space (d : ascii) : isDelim d = true -> isSpace d = false.
Proof. each_ascii d; vm_compute; congruence. Qed.

Lemma keyword_letters (kw : list ascii) : In kw keywordChars -> letters kw /\ kw <> [].
Proof.
  unfold keywordChars, secretKeywords. simpl.
  intros [<- | [<- | [<- | [<- | []]]]]; split; try discriminate;
    repeat constructor.
Qed.

(** *** [dropWhile] *)

Lemma dropWhile_app (p : ascii -> bool) (ws r : list ascii) :
  Forall (fun c => p c = true) ws -> dropWhile p (ws ++ r) = dropWhile p r.
Proof. induction 1 as [| c ws Hc _ IH]; simpl; [ reflexivity | now rewrite Hc ]. Qed.

Lemma dropWhile_stop (p : ascii -> bool) (r : list ascii) :
  match r with [] => True | c :: _ => p c = false end -> dropWhile p r = r.
Proof. destruct r as [| c r]; simpl; [ reflexivity | now intros -> ]. Qed.

Lemma dropWhile_split (p : ascii -> bool) (l : list ascii) :
  exists ws, l = ws ++ dropWhile p l
             /\ Forall (fun c => p c = true) ws
             /\ match dropWhile p l with [] => True | c :: _ => p c = false end.
Proof.
  induction l as [| c l (ws & E & Hws & Hr)]; simpl.
  - exists []. repeat split; constructor.
  - destruct (p c) eqn:Hc.
    + exists (c :: ws). repeat split; [ simpl; congruence | now constructor | exact Hr ].
    + exists []. repeat split; [ constructor | exact Hc ].
Qed.

Lemma endOrSpace_nonSpace (r : list ascii) :
  match r with [] => True | c :: _ => nonSpace c = false end <-> endOrSpace r.
Proof.
  destruct r as [| c r]; simpl; [ tauto | ].
  unfold nonSpace. destruct (isSpace c); simpl; split; congruence.
Qed.

(** *** What a match is *)

Lemma stripPrefixI_spec (kw s r : list ascii) :
  stripPrefixI kw s = Some r
  <-> exists k, s = k ++ r /\ Forall2 (fun a b => ciEq a b = true) k kw.
Proof.
  revert s. induction kw as [| b kw IH]; intros s; simpl.
  - split.
    + intros [= ->]. exists []. split; [ reflexivity | constructor ].
    + intros (k & -> & Hk). inversion Hk. reflexivity.
  - destruct s as [| c s].
    + split; [ discriminate | ].
      intros (k & E & Hk). inversion Hk; subst. discriminate.
    + destruct (ciEq c b) eqn:Hc.
      * rewrite IH. split.
        -- intros (k & -> & Hk). exists (c :: k). split; [ reflexivity | now constructor ].
        -- intros (k & E & Hk). inversion Hk; subst. injection E as -> ->.
           eexists; split; [ reflexivity | assumption ].
      * split; [ discriminate | ].
        intros (k & E & Hk). inversion Hk; subst. injection E as -> ->. congruence.
Qed.

Lemma matchValue_spec (s rest : list ascii) :
  matchValue s = Some rest
  <-> exists d ws v, s = d :: ws ++ v ++ rest
        /\ isDelim d = true
        /\ Forall (fun c => isSpace c = true) ws
        /\ v <> []
        /\ Forall (fun c => isSpace c = false) v
        /\ endOrSpace rest.
Proof.
  split.
  - destruct s as [| d r]; simpl; [ discriminate | ].
    destruct (isDelim d) eqn:Hd; [ | discriminate ].
    destruct (dropWhile_split isSpace r) as (ws & Er & Hws & Hstop).
    destruct (dropWhile isSpace r) as [| c r1] eqn:E1; [ discriminate | ].
    intros [= Hrest].
    destruct (dropWhile_split nonSpace (c :: r1)) as (v & Ev & Hv & Hend).
    change (dropWhile nonSpace (c :: r1) = rest) in Hrest.
    rewrite Hrest in Ev, Hend.
    exists d, ws, v. repeat split.
    + rewrite Er at 1. rewrite Ev at 1. reflexivity.
    + exact Hd.
    + exact Hws.
    + intros ->. simpl in Ev. rewrite <- Ev in Hend. simpl in Hend, Hstop.
      unfold nonSpace in Hend. rewrite Hstop in Hend. discriminate.
    + eapply Forall_impl; [ exact Hv | ].
      intros a Ha. unfold nonSpace in Ha. now destruct (isSpace a).
    + now apply endOrSpace_nonSpace.
  - intros (d & ws & v & -> & Hd & Hws & Hv & Hns & Hend).
    unfold matchValue. rewrite Hd. rewrite dropWhile_app by exact Hws.
    destruct v as [| c v]; [ congruence | ].
    assert (Hc : isSpace c = false) by (inversion Hns; assumption).
    rewrite (dropWhile_stop isSpace ((c :: v) ++ rest)) by (simpl; exact Hc).
    cbn [app]. f_equal.
    change (c :: v ++ rest) with ((c :: v) ++ rest).
    rewrite dropWhile_app.
    + apply dropWhile_stop. now apply endOrSpace_nonSpace.
    + eapply Forall_impl; [ exact Hns | ].
      intros a Ha. unfold nonSpace. now rewrite Ha.
Qed.

Lemma matchSecret_spec (kw s rest : list ascii) :
  matchSecret kw s = Some rest
  <-> exists r, stripPrefixI kw s = Some r /\ matchValue r = Some rest.
Proof.
  unfold matchSecret. destruct (stripPrefixI kw s) as [r |].
  - split; [ intros Hm; now exists r | intros (r' & [= <-] & Hm); exact Hm ].
  - split; [ discriminate | intros (r' & [=] & _) ].
Qed.

Lemma matchValue_shorter (s rest : list ascii) :
  matchValue s = Some rest -> List.length rest < List.length s.
Proof.
  intros (d & ws & v & -> & _ & _ & Hv & _)%matchValue_spec.
  simpl. rewrite !length_app. destruct v; [ congruence | simpl; lia ].
Qed.

Lemma stripPrefixI_length (kw s r : list ascii) :
  stripPrefixI kw s = Some r -> List.length r <= List.length s.
Proof.
  intros (k & -> & _)%stripPrefixI_spec. rewrite length_app. lia.
Qed.

Lemma matchSecret_shorter (kw s rest : list ascii) :
  matchSecret kw s = Some rest -> List.length rest < List.length s.
Proof.
  intros (r & Hs & Hv)%matchSecret_spec.
  apply stripPrefixI_length in Hs. apply matchValue_shorter in Hv. lia.
Qed.

Lemma matchSecret_endOrSpace (kw s rest : list ascii) :
  matchSecret kw s = Some rest -> endOrSpace rest.
Proof.
  intros (r & _ & Hv)%matchSecret_spec.
  apply matchValue_spec in Hv as (d & ws & v & _ & _ & _ & _ & _ & Hend). exact Hend.
Qed.

(** A match starts with a code unit that is no space. *)
Lemma matchSecret_head (kw s rest : list ascii) :
  letters kw -> kw <> [] -> matchSecret kw s = Some rest ->
  exists c s', s = c :: s' /\ isSpace c = false /\ isDelim c = false.
Proof.
  intros Hl Hne (r & Hs & _)%matchSecret_spec.
  destruct kw as [| k kw]; [ congruence | ].
  destruct s as [| c s']; simpl in Hs; [ discriminate | ].
  destruct (ciEq c k) eqn:Hc; [ | discriminate ].
  inversion Hl; subst.
  destruct (ciEq_letter c k) as (? & ? & _); auto.
  exists c, s'. auto.
Qed.

(** *** The replacement, as a relation *)

Lemma replaceFrom_Replaced (kw : list ascii) (fuel : nat) (s : list ascii) :
  List.length s <= fuel -> Replaced kw s (replaceFrom fuel kw s).
Proof.
  revert s. induction fuel as [| fuel IH]; intros s Hlen.
  - destruct s; [ constructor | simpl in Hlen; lia ].
  - destruct s as [| c s]; [ constructor | ].
    cbn [replaceFrom]. destruct (matchSecret kw (c :: s)) as [rest |] eqn:Hm.
    + apply Replaced_mask with rest; [ exact Hm | ].
      apply IH. apply matchSecret_shorter in Hm. simpl in *. lia.
    + apply Replaced_keep; [ exact Hm | ]. apply IH. simpl in Hlen. lia.
Qed.

Lemma replaceSecret_Replaced (kw : string) (s : list ascii) :
  Replaced (chars kw) s (replaceSecret kw s).
Proof. apply replaceFrom_Replaced. reflexivity. Qed.

Lemma Replaced_endOrSpace (kw s o : list ascii) :
  letters kw -> kw <> [] -> Replaced kw s o -> endOrSpace s -> endOrSpace o.
Proof.
  intros Hl Hne HR Hend. destruct HR as [| c s o _ _ | s rest o Hm _].
  - exact I.
  - exact Hend.
  - destruct (matchSecret_head _ _ _ Hl Hne Hm) as (c & s' & -> & Hc & _).
    simpl in Hend. congruence.
Qed.

(** *** Matches inside and across a mask *)

Lemma letters_drop (kw : list ascii) (a : nat) : letters kw -> letters (drop a kw).
Proof. unfold letters. apply Forall_drop. Qed.

Lemma in_mask (kw w z r r' : list ascii) :
  letters kw -> endOrSpace z ->
  stripPrefixI kw (w ++ z) = Some r -> matchValue r = Some r' ->
  keywordThenDelim kw w = true /\ exists w', stripPrefixI kw w = Some w' /\ r = w' ++ z.
Proof.
  intros Hl Hz. revert w. induction Hl as [| k kw Hk Hl IH]; intros w Hs Hv.
  - simpl in Hs. injection Hs as <-.
    destruct w as [| d w].
    + exfalso. simpl in Hv. destruct z as [| d z]; simpl in Hv; [ discriminate | ].
      simpl in Hz. destruct (isDelim d) eqn:Hd; [ | discriminate ].
      apply delim_not_space in Hd. congruence.
    + split; [ | exists (d :: w); split; reflexivity ].
      unfold keywordThenDelim. simpl. simpl in Hv.
      destruct (isDelim d); [ reflexivity | discriminate ].
  - destruct w as [| c w].
    + exfalso. simpl in Hs. destruct z as [| c z]; [ discriminate | ].
      simpl in Hz. destruct (ciEq c k) eqn:Hc; [ | discriminate ].
      destruct (ciEq_letter c k Hk Hc) as (? & _). congruence.
    + simpl in Hs. destruct (ciEq c k) eqn:Hc; [ | discriminate ].
      destruct (IH w Hs Hv) as (Hkd & w' & Hw' & ->).
      split; [ | exists w'; split; [ simpl; now rewrite Hc | reflexivity ] ].
      unfold keywordThenDelim in *. simpl. now rewrite Hc.
Qed.

Lemma maskCheck_ok : maskCheck = true.
Proof. vm_compute. reflexivity. Qed.

Lemma straddleCheck_ok : straddleCheck = true.
Proof. vm_compute. reflexivity. Qed.

(** Inside [mask kw2 ++ z], a match of [kw] starts only at the first code
    unit, and then [kw] is [kw2]. *)
Lemma mask_occurrence (kw kw2 z r' : list ascii) (j : nat) :
  In kw keywordChars -> In kw2 keywordChars -> j < List.length (mask kw2) ->
  endOrSpace z ->
  matchSecret kw (drop j (mask kw2) ++ z) = Some r' ->
  j = 0 /\ kw = kw2.
Proof.
  intros Hkw Hkw2 Hj Hz (r & Hs & Hv)%matchSecret_spec.
  destruct (keyword_letters kw Hkw) as (Hl & _).
  destruct (in_mask _ _ _ _ _ Hl Hz Hs Hv) as (Hkd & _).
  pose proof maskCheck_ok as Hc. unfold maskCheck in Hc.
  rewrite forallb_forall in Hc. specialize (Hc kw Hkw).
  rewrite forallb_forall in Hc. specialize (Hc kw2 Hkw2).
  rewrite forallb_forall in Hc. specialize (Hc j).
  rewrite Hkd in Hc. simpl in Hc.
  assert (Hin : In j (seq 0 (List.length (mask kw2)))) by (apply in_seq; lia).
  apply Hc in Hin. apply andb_true_iff in Hin as (Hj0 & Heq).
  apply Nat.eqb_eq in Hj0. apply bool_decide_eq_true in Heq. auto.
Qed.

Lemma stripPrefixI_self (kw r : list ascii) : stripPrefixI kw (kw ++ r) = Some r.
Proof.
  apply stripPrefixI_spec. exists kw. split; [ reflexivity | ].
  induction kw; constructor; [ apply ciEq_refl | assumption ].
Qed.

(** The mask itself is a match, as long as a space or the end follows. *)
Lemma mask_match (kw z : list ascii) :
  endOrSpace z -> matchSecret kw (mask kw ++ z) = Some z.
Proof.
  intros Hz. apply matchSecret_spec. exists (chars "=***" ++ z). split.
  - unfold mask. rewrite <- app_assoc. apply stripPrefixI_self.
  - apply matchValue_spec. exists "="%char, [], (chars "***").
    repeat split; try (repeat constructor); [ discriminate | exact Hz ].
Qed.

(** A proper end of a keyword never runs into the start of a mask. *)
Lemma straddle_impossible (kw kw2 z r r' : list ascii) (a : nat) :
  In kw keywordChars -> In kw2 keywordChars -> 1 <= a < List.length kw ->
  endOrSpace z ->
  stripPrefixI (drop a kw) (mask kw2 ++ z) = Some r -> matchValue r = Some r' ->
  False.
Proof.
  intros Hkw Hkw2 Ha Hz Hs Hv.
  destruct (keyword_letters kw Hkw) as (Hl & _).
  destruct (in_mask _ _ _ _ _ (letters_drop _ a Hl) Hz Hs Hv) as (Hkd & _).
  pose proof straddleCheck_ok as Hc. unfold straddleCheck in Hc.
  rewrite forallb_forall in Hc. specialize (Hc kw Hkw).
  rewrite forallb_forall in Hc. specialize (Hc kw2 Hkw2).
  rewrite forallb_forall in Hc. specialize (Hc a).
  rewrite Hkd in Hc. simpl in Hc.
  assert (Hin : In a (seq 1 (List.length kw - 1))) by (apply in_seq; lia).
  apply Hc in Hin. discriminate.
Qed.

(** *** From a match in the replacement back to the text *)

Section Back.
Variable kw2 : list ascii.
Hypothesis kw2_letters : letters kw2.
Hypothesis kw2_nonempty : kw2 <> [].

Lemma strip_back (kw s o r_o : list ascii) :
  Replaced kw2 s o -> stripPrefixI kw o = Some r_o ->
  (exists r_s, stripPrefixI kw s = Some r_s /\ Replaced kw2 r_s r_o)
  \/ (exists a s_b rest o_b,
        a < List.length kw
        /\ stripPrefixI (take a kw) s = Some s_b
        /\ matchSecret kw2 s_b = Some rest
        /\ Replaced kw2 rest o_b
        /\ stripPrefixI (drop a kw) (mask kw2 ++ o_b) = Some r_o).
Proof.
  revert s o. induction kw as [| k kw IH]; intros s o HR Hs.
  - left. simpl in Hs. injection Hs as <-. exists s. split; [ reflexivity | exact HR ].
  - destruct HR as [| c s o Hno HR | s rest o Hm HR].
    + discriminate.
    + simpl in Hs. destruct (ciEq c k) eqn:Hc; [ | discriminate ].
      destruct (IH s o HR Hs) as [(r_s & Hrs & HR') | (a & s_b & rest & o_b & Ha & Hsa & Hm & HRb & Hdrop)].
      * left. exists r_s. split; [ simpl; now rewrite Hc | exact HR' ].
      * right. exists (S a), s_b, rest, o_b. repeat split; try assumption.
        -- simpl. lia.
        -- simpl. now rewrite Hc.
    + right. exists 0, s, rest, o. repeat split; try assumption. simpl. lia.
Qed.

Lemma spaces_back (s o : list ascii) :
  Replaced kw2 s o -> dropWhile isSpace o <> [] -> dropWhile isSpace s <> [].
Proof.
  induction 1 as [| c s o Hno HR IH | s rest o Hm HR _]; intros Ho.
  - exact Ho.
  - simpl in *. destruct (isSpace c); [ auto | discriminate ].
  - destruct (matchSecret_head _ _ _ kw2_letters kw2_nonempty Hm)
      as (c & s' & -> & Hc & _).
    simpl. rewrite Hc. discriminate.
Qed.

Lemma value_back (s o r_o : list ascii) :
  Replaced kw2 s o -> matchValue o = Some r_o -> exists r_s, matchValue s = Some r_s.
Proof.
  intros HR Hv. destruct HR as [| d s o Hno HR | s rest o Hm HR].
  - discriminate.
  - simpl in *. destruct (isDelim d); [ | discriminate ].
    pose proof (spaces_back s o HR) as Hsp.
    destruct (dropWhile isSpace o) as [| x o1]; [ discriminate | ].
    destruct (dropWhile isSpace s) as [| y s1]; [ exfalso; now apply Hsp | ].
    eexists; reflexivity.
  - exfalso. destruct kw2 as [| k kw2']; [ congruence | ].
    inversion kw2_letters as [| ? ? Hk _]; subst.
    unfold mask in Hv. simpl in Hv.
    destruct (ciEq_letter k k Hk (ciEq_refl k)) as (_ & Hd & _).
    rewrite Hd in Hv. discriminate.
Qed.

End Back.

(** *** One replacement leaves only masked matches *)

Lemma Clean_suffix (kw p q : list ascii) : Clean kw (p ++ q) -> Clean kw q.
Proof.
  intros H p' q' rest -> Hm. apply (H (p ++ p') q' rest); [ | exact Hm ].
  now rewrite app_assoc.
Qed.

Lemma Clean_nil (kw : list ascii) : kw <> [] -> Clean kw [].
Proof.
  intros Hne p q rest E Hm. symmetry in E. apply app_eq_nil in E as (_ & ->).
  destruct kw; [ congruence | discriminate ].
Qed.

(** Behind a copied code unit, the replacement of [mask kw ++ z] by [kw2]
    copies the rest of the mask too. *)
Lemma mask_through (kw kw2 z : list ascii) :
  In kw keywordChars -> In kw2 keywordChars -> endOrSpace z ->
  forall n j o,
    j + n = List.length (mask kw) ->
    (j = 0 -> matchSecret kw2 (mask kw ++ z) = None) ->
    Replaced kw2 (drop j (mask kw) ++ z) o ->
    exists o', o = drop j (mask kw) ++ o' /\ Replaced kw2 z o'.
Proof.
  intros Hkw Hkw2 Hz. induction n as [| n IH]; intros j o Hj H0 HR.
  - rewrite drop_ge in * by lia. exists o. split; [ reflexivity | exact HR ].
  - destruct (drop j (mask kw)) as [| c w] eqn:Ed.
    { apply (f_equal (@List.length ascii)) in Ed. rewrite length_drop in Ed.
      simpl in Ed. lia. }
    assert (Ew : w = drop (S j) (mask kw)).
    { rewrite <- (Nat.add_1_l j), Nat.add_comm, <- drop_drop, Ed. reflexivity. }
    subst w. simpl in HR.
    inversion HR as [| c' s' o1 Hno HR1 E1 E2 | s' rest o1 Hm HR1 E1 E2].
    + destruct (IH (S j) o1) as (o' & -> & HR'); [ lia | discriminate | exact HR1 | ].
      exists o'. split; [ reflexivity | exact HR' ].
    + exfalso.
      change (c :: drop (S j) (mask kw) ++ z)
        with ((c :: drop (S j) (mask kw)) ++ z) in Hm.
      rewrite <- Ed in Hm.
      destruct (mask_occurrence kw2 kw z rest j) as (-> & _); auto; [ lia | ].
      rewrite drop_0 in Hm. rewrite H0 in Hm; [ discriminate | reflexivity ].
Qed.

(** If every match of [kw] in [s] is masked, or [kw] is the keyword being
    replaced, every match of [kw] in the replacement is masked. *)
Lemma Replaced_Clean (kw kw2 s o : list ascii) :
  In kw keywordChars -> In kw2 keywordChars ->
  Replaced kw2 s o -> kw = kw2 \/ Clean kw s -> Clean kw o.
Proof.
  intros Hkw Hkw2 HR.
  destruct (keyword_letters kw Hkw) as (Hl & Hne).
  destruct (keyword_letters kw2 Hkw2) as (Hl2 & Hne2).
  induction HR as [| c s o Hno HR IH | s rest o Hm HR IH]; intros Hs.
  - now apply Clean_nil.
  - assert (Hs' : kw = kw2 \/ Clean kw s).
    { destruct Hs as [-> | Hs]; [ now left | right ].
      apply (Clean_suffix kw [c] s). exact Hs. }
    specialize (IH Hs').
    intros p q r_o E Hq. destruct p as [| c' p].
    2:{ injection E as -> ->. now apply (IH p q r_o). }
    simpl in E. subst q.
    apply matchSecret_spec in Hq as (r1 & Hstrip & Hval).
    pose proof (Replaced_keep kw2 c s o Hno HR) as HR'.
    destruct (strip_back kw2 kw _ _ _ HR' Hstrip)
      as [(r_s & Hrs & HRr) | (a & s_b & rest & o_b & Ha & Hsa & Hm & HRb & Hdrop)].
    + (* the keyword was copied from the text *)
      destruct (value_back kw2 Hl2 Hne2 _ _ _ HRr Hval) as (rest_s & Hvs).
      assert (Hms : matchSecret kw (c :: s) = Some rest_s).
      { apply matchSecret_spec. eauto. }
      destruct Hs as [-> | Hs]; [ congruence | ].
      pose proof (Hs [] (c :: s) rest_s eq_refl Hms) as Emask.
      pose proof (matchSecret_endOrSpace _ _ _ Hms) as Hz.
      rewrite Emask in HR', Hno.
      destruct (mask_through kw kw2 rest_s Hkw Hkw2 Hz
                  (List.length (mask kw)) 0 (c :: o)) as (o' & Eo & HRo);
        [ reflexivity | intros _; exact Hno | now rewrite drop_0 | ].
      rewrite drop_0 in Eo. rewrite Eo. f_equal.
      pose proof (Replaced_endOrSpace _ _ _ Hl2 Hne2 HRo Hz) as Hz'.
      pose proof (mask_match kw o' Hz') as Hmo.
      rewrite <- Eo in Hmo.
      assert (Hq : matchSecret kw (c :: o) = Some r_o).
      { apply matchSecret_spec. eauto. }
      congruence.
    + (* the keyword would run into a mask *)
      exfalso. destruct a as [| a].
      * simpl in Hsa. injection Hsa as <-. congruence.
      * pose proof (matchSecret_endOrSpace _ _ _ Hm) as Hz.
        pose proof (Replaced_endOrSpace _ _ _ Hl2 Hne2 HRb Hz) as Hz'.
        apply (straddle_impossible kw kw2 o_b r1 r_o (S a)); auto. lia.
  - assert (Hs' : kw = kw2 \/ Clean kw rest).
    { destruct Hs as [-> | Hs]; [ now left | right ].
      apply matchSecret_spec in Hm as (r & (k & -> & _)%stripPrefixI_spec & Hv).
      apply matchValue_spec in Hv as (d & ws & v & -> & _).
      apply (Clean_suffix kw (k ++ d :: ws ++ v) rest).
      rewrite <- !app_assoc. simpl. rewrite <- !app_assoc. exact Hs. }
    specialize (IH Hs').
    pose proof (matchSecret_endOrSpace _ _ _ Hm) as Hz.
    pose proof (Replaced_endOrSpace _ _ _ Hl2 Hne2 HR Hz) as Hz'.
    intros p q r_o E Hq.
    destruct (decide (List.length p < List.length (mask kw2))) as [Hlt | Hge].
    + assert (Eq : q = drop (List.length p) (mask kw2) ++ o).
      { apply (f_equal (drop (List.length p))) in E.
        rewrite drop_app_length in E. rewrite <- E.
        rewrite drop_app_le by lia. reflexivity. }
      rewrite Eq in Hq.
      destruct (mask_occurrence kw kw2 o r_o _ Hkw Hkw2 Hlt Hz' Hq) as (Hp0 & ->).
      rewrite Hp0, drop_0 in Eq, Hq. subst q.
      rewrite (mask_match _ o Hz') in Hq. congruence.
    + apply (IH (drop (List.length (mask kw2)) p) q r_o); [ | exact Hq ].
      apply (f_equal (drop (List.length (mask kw2)))) in E.
      rewrite drop_app_length in E. rewrite E.
      rewrite drop_app_le by lia. reflexivity.
Qed.

(** *** The four replacements in a row *)

Lemma In_keywordChars (kw : string) : In kw secretKeywords -> In (chars kw) keywordChars.
Proof. intros H. unfold keywordChars. now apply in_map. Qed.

Lemma sanitizeChars_Clean (s kw : list ascii) :
  In kw keywordChars -> Clean kw (sanitizeChars s).
Proof.
  assert (Hpw : In (chars "password") keywordChars) by (apply In_keywordChars; simpl; tauto).
  assert (Htk : In (chars "token") keywordChars) by (apply In_keywordChars; simpl; tauto).
  assert (Hky : In (chars "key") keywordChars) by (apply In_keywordChars; simpl; tauto).
  assert (Hsc : In (chars "secret") keywordChars) by (apply In_keywordChars; simpl; tauto).
  set (s1 := replaceSecret "password" s).
  set (s2 := replaceSecret "token" s1).
  set (s3 := replaceSecret "key" s2).
  assert (R1 := replaceSecret_Replaced "password" s). fold s1 in R1.
  assert (R2 := replaceSecret_Replaced "token" s1). fold s2 in R2.
  assert (R3 := replaceSecret_Replaced "key" s2). fold s3 in R3.
  assert (R4 := replaceSecret_Replaced "secret" s3).
  assert (C1 : Clean (chars "password") s1).
  { eapply Replaced_Clean; [ | | exact R1 | now left ]; assumption. }
  assert (C2 : Clean (chars "password") s2 /\ Clean (chars "token") s2).
  { split; (eapply Replaced_Clean; [ | | exact R2 | ]; [ assumption .. | ]);
      [ now right | now left ]. }
  destruct C2 as (C2p & C2t).
  assert (C3 : Clean (chars "password") s3 /\ Clean (chars "token") s3
               /\ Clean (chars "key") s3).
  { repeat split; (eapply Replaced_Clean; [ | | exact R3 | ]; [ assumption .. | ]);
      [ now right | now right | now left ]. }
  destruct C3 as (C3p & C3t & C3k).
  intros Hkw. unfold sanitizeChars. fold s1 s2 s3.
  unfold keywordChars, secretKeywords in Hkw. simpl in Hkw.
  destruct Hkw as [<- | [<- | [<- | [<- | []]]]];
    (eapply Replaced_Clean; [ | | exact R4 | ]; [ assumption .. | ]);
    [ now right | now right | now right | now left ].
Qed.

Lemma Forall2_ciEq_length (k kw : list ascii) :
  Forall2 (fun a b => ciEq a b = true) k kw -> List.length k = List.length kw.
Proof. induction 1; simpl; congruence. Qed.

(** Every occurrence of a secret in a sanitized message is masked. *)
Lemma sanitizeErrorMessage_Masked (message : string) :
  Masked (sanitizeErrorMessage message).
Proof.
  intros kw Hkw pre k d ws v post (E & Hk & Hd & Hws & Hv & Hns & Hend).
  unfold sanitizeErrorMessage in E. unfold chars in E at 1.
  rewrite list_ascii_of_string_of_list_ascii in E.
  pose proof (sanitizeChars_Clean (chars message) (chars kw) (In_keywordChars kw Hkw))
    as HC.
  assert (Hm : matchSecret (chars kw) (k ++ d :: ws ++ v ++ post) = Some post).
  { apply matchSecret_spec. exists (d :: ws ++ v ++ post). split.
    - apply stripPrefixI_spec. exists k. split; [ reflexivity | exact Hk ].
    - apply matchValue_spec. exists d, ws, v. repeat split; assumption. }
  pose proof (HC pre _ post E Hm) as Eq.
  assert (Eq' : k ++ (d :: ws ++ v) = chars kw ++ chars "=***").
  { apply (app_inv_tail post). unfold mask in Eq.
    rewrite <- !app_assoc. simpl. rewrite <- !app_assoc.
    rewrite <- !app_assoc in Eq. exact Eq. }
  apply app_inj_1 in Eq' as (-> & Eq'); [ | now apply Forall2_ciEq_length ].
  split; [ reflexivity | ].
  injection Eq' as -> Eq'. split; [ reflexivity | ].
  destruct ws as [| w ws].
  - split; [ reflexivity | exact Eq' ].
  - exfalso. injection Eq' as -> _. inversion Hws; subst. discriminate.
Qed.

(** *** Messages without secrets *)

Lemma replaceFrom_unchanged (kw : list ascii) (fuel : nat) (s : list ascii) :
  (forall p q, s = p ++ q -> matchSecret kw q = None) ->
  replaceFrom fuel kw s = s.
Proof.
  revert s. induction fuel as [| fuel IH]; intros s Hs; [ reflexivity | ].
  destruct s as [| c s]; [ reflexivity | ]. cbn [replaceFrom].
  rewrite (Hs [] (c :: s) eq_refl). f_equal. apply IH.
  intros p q ->. apply (Hs (c :: p) q). reflexivity.
Qed.

Lemma SecretFree_nomatch (text kw : string) (p q : list ascii) :
  SecretFree text -> In kw secretKeywords -> chars text = p ++ q ->
  matchSecret (chars kw) q = None.
Proof.
  intros Hfree Hkw E. destruct (matchSecret (chars kw) q) as [rest |] eqn:Hm;
    [ exfalso | reflexivity ].
  apply matchSecret_spec in Hm as (r & (k & -> & Hk)%stripPrefixI_spec & Hv).
  apply matchValue_spec in Hv as (d & ws & v & -> & Hd & Hws & Hv & Hns & Hend).
  apply (Hfree kw Hkw p k d ws v rest). repeat split; assumption.
Qed.

(** A message that holds no occurrence of a secret is left as it is. *)
Lemma sanitizeErrorMessage_unchanged (text : string) :
  SecretFree text -> sanitizeErrorMessage text = text.
Proof.
  intros Hfree. unfold sanitizeErrorMessage, sanitizeChars, replaceSecret.
  assert (Hkw : forall kw, In kw secretKeywords ->
                  replaceFrom (List.length (chars text)) (chars kw) (chars text)
                  = chars text).
  { intros kw Hkw. apply replaceFrom_unchanged. intros p q E.
    now apply (SecretFree_nomatch text kw p q). }
  rewrite (Hkw "password") by (simpl; tauto).
  rewrite (Hkw "token") by (simpl; tauto).
  rewrite (Hkw "key") by (simpl; tauto).
  rewrite (Hkw "secret") by (simpl; tauto).
  apply string_of_list_ascii_of_string.
Qed.

Lemma suffixes_app (p q : list ascii) : In q (suffixes (p ++ q)).
Proof.
  induction p as [| c p IH]; simpl.
  - destruct q; simpl; auto.
  - now right.
Qed.

Lemma secretFreeb_sound (text : string) : secretFreeb text = true -> SecretFree text.
Proof.
  unfold secretFreeb. rewrite forallb_forall.
  intros Hb kw Hkw pre k d ws v post (E & Hk & Hd & Hws & Hv & Hns & Hend).
  specialize (Hb kw Hkw). rewrite forallb_forall in Hb.
  specialize (Hb (k ++ d :: ws ++ v ++ post)).
  rewrite E in Hb. specialize (Hb (suffixes_app _ _)).
  assert (Hm : matchSecret (chars kw) (k ++ d :: ws ++ v ++ post) = Some post).
  { apply matchSecret_spec. exists (d :: ws ++ v ++ post). split.
    - apply stripPrefixI_spec. exists k. split; [ reflexivity | exact Hk ].
    - apply matchValue_spec. exists d, ws, v. repeat split; assumption. }
  rewrite Hm in Hb. discriminate.
Qed.

(** *** The passes, said without the matcher *)








(** *** A text with occurrences of one keyword only *)

Lemma replaceFrom_Clean (kw : list ascii) (fuel : nat) (s : list ascii) :
  Clean kw s -> replaceFrom fuel kw s = s.
Proof.
  revert s. induction fuel as [| fuel IH]; intros s Hc; simpl; [ reflexivity | ].
  destruct s as [| c s]; [ reflexivity | ].
  destruct (matchSecret kw (c :: s)) as [rest |] eqn:E.
  - pose proof (Hc [] (c :: s) rest eq_refl E) as Es.
    rewrite Es. f_equal. apply IH. apply (Clean_suffix kw (mask kw)).
    now rewrite <- Es.
  - f_equal. apply IH. now apply (Clean_suffix kw [c]).
Qed.





(** *** The details *)


Lemma sanitizeErrorMessage_empty : sanitizeErrorMessage "" = "".
Proof. reflexivity. Qed.












(** A text with an occurrence that is not masked does not pass. *)
Example unsanitized_is_not_Masked : ~ Masked "token=abc123".
Proof.
  intros H.
  destruct (H "token" ltac:(simpl; tauto) [] (chars "token") "="%char []
              (chars "abc123") []) as (_ & _ & _ & E).
  - repeat split; try (repeat constructor); discriminate.
  - discriminate.
Qed.

(** The test vector of the error handler's suite for the message, and its
    vector for the details: a field that is named token is not an
    occurrence of [token=] inside a string, and the code leaves it as it
    is. *)
Example createErrorResponse_password :
  message (error (createErrorResponse "2024-01-01T00:00:00.000Z" DATABASE_ERROR
                    "Connection failed with password=secret123" JNull))
  = "Connection failed with password=***".
Proof. vm_compute. reflexivity. Qed.

Example createErrorResponse_token_field :
  details (error (createErrorResponse "2024-01-01T00:00:00.000Z" AUTHENTICATION_ERROR
                    "Auth failed"
                    (JObj [("token", JStr "secret_token_123");
                           ("other", JStr "safe_data")])))
  = JObj [("token", JStr "secret_token_123"); ("other", JStr "safe_data")].
Proof. vm_compute. reflexivity. Qed.

(** An own key [__proto__] is no field of the copy. *)
Example sanitizeErrorDetails_proto :
  sanitizeErrorDetails (JObj [("__proto__", JStr "token=abc"); ("id", JNum (ofZ 7))])
  = JObj [("id", JNum (ofZ 7))].
Proof. vm_compute. reflexivity. Qed.

(** *** [handleError] and [wrapAsync] *)

(** C10, as the code has it: [handleError] returns, for every thrown value,
    a response whose [success] is false; an [AppError] keeps its code and
    gives its message after sanitizing, which is the message itself when
    it holds no occurrence of a secret; any other [Error] gives
    INTERNAL_ERROR and 'An unexpected error occurred'; any other value
    gives INTERNAL_ERROR and 'An unknown error occurred'.  So [wrapAsync]
    always fulfils its promise, with a success response exactly when the
    wrapped function fulfils its own. *)
Theorem handleError_total (now : string) (thrown : Thrown) (context : option string) :
  let r := (handleError now thrown context).2 in
  success r = false
  /\ match thrown with
     | ThrownAppError e =>
         code (error r) = app_code e
         /\ message (error r) = sanitizeErrorMessage (app_message e)
         /\ (SecretFree (app_message e) -> message (error r) = app_message e)
     | ThrownError _ _ =>
         code (error r) = INTERNAL_ERROR
         /\ message (error r) = "An unexpected error occurred"
     | ThrownValue _ =>
         code (error r) = INTERNAL_ERROR
         /\ message (error r) = "An unknown error occurred"
     end
  /\ forall (T : Type) (fn : unit -> Settled T),
       exists logs response,
         wrapAsync now fn context = Some (logs, response)
         /\ (responseSuccess response = true <-> exists value, fn tt = Fulfilled value).
Proof.
  split; [ | split ].
  - destruct thrown; reflexivity.
  - destruct thrown as [e | msg stack | v]; repeat split.
    intros Hfree. simpl. now apply sanitizeErrorMessage_unchanged.
  - intros T fn. unfold wrapAsync. destruct (fn tt) as [value | reason].
    + eexists _, _. split; [ reflexivity | ]. simpl. split; eauto.
    + destruct (handleError now reason context) as [entry response] eqn:E.
      eexists _, _. split; [ reflexivity | ]. simpl.
      assert (Hs : success response = false).
      { replace response with (handleError now reason context).2 by now rewrite E.
        destruct reason; reflexivity. }
      rewrite Hs. split; [ discriminate | intros (value & [=]) ].
Qed.

(** The test vector of the suite: an [AppError] without secrets keeps its
    code and its message. *)
Lemma handleError_total_witness :
  let e := newAppError NOT_FOUND "Resource not found"
                       (JObj [("id", JStr "123")]) None EmptyString in
  let r := (handleError "2024-01-01T00:00:00.000Z" (ThrownAppError e)
                        (Some "TestContext")).2 in
  SecretFree "Resource not found"
  /\ success r = false
  /\ code (error r) = NOT_FOUND
  /\ message (error r) = "Resource not found".
Proof.
  intros e r.
  assert (Hfree : SecretFree "Resource not found")
    by (apply secretFreeb_sound; vm_compute; reflexivity).
  destruct (handleError_total "2024-01-01T00:00:00.000Z" (ThrownAppError e)
              (Some "TestContext")) as (Hs & (Hc & _ & Hm) & _).
  split; [ exact Hfree | split; [ exact Hs | split; [ exact Hc | ] ] ].
  apply Hm. exact Hfree.
Defined.

(** C10, counterexample: an [AppError] whose message holds a secret does
    not keep its message. *)
Lemma handleError_rewrites_message :
  let e := newAppError AUTHENTICATION_ERROR "login failed: token=abc123"
                       JUndefined None "" in
  let r := (handleError "2024-01-01T00:00:00.000Z" (ThrownAppError e) None).2 in
  message (error r) = "login failed: token=***"
  /\ message (error r) <> app_message e.
Proof. vm_compute. split; [ reflexivity | discriminate ]. Qed.

End ErrorHandlerFacts.

(** ** Resolver *)

Module ResolverFacts.
Import Model Resolver.
#[local] Open Scope list_scope.

(** *** The resolution monad *)

Lemma bind_ok {A B : Type} (m : Res A) (k : A -> Res B) (b : B) :
  bind m k = ok b <-> exists a, m = ok a /\ k a = ok b.
Proof.
  unfold bind, ok. destruct m as [[e | a] |]; split;
    try discriminate; try (intros (a' & E & _); discriminate).
  - intros H. now exists a.
  - intros (a' & [= <-] & H). exact H.
Qed.


Lemma mapM_ok {A B : Type} (f : A -> Res B) (l : list A) (bs : list B) :
  mapM f l = ok bs <-> Forall2 (fun a b => f a = ok b) l bs.
Proof.
  revert bs. induction l as [| a l IH]; intros bs; simpl.
  - split.
    + intros [= <-]. constructor.
    + intros H. inversion H. reflexivity.
  - rewrite bind_ok. split.
    + intros (b & Hb & (bs' & Hbs & [= <-])%bind_ok).
      constructor; [ exact Hb | now apply IH ].
    + intros H. inversion H as [| ? b ? bs' Hb Hbs]; subst.
      exists b. split; [ exact Hb | ]. apply bind_ok. exists bs'.
      split; [ now apply IH | reflexivity ].
Qed.



Lemma mapM_all_ok {A B : Type} (f : A -> Res B) (l : list A) :
  (forall a, In a l -> exists b, f a = ok b) -> exists bs, mapM f l = ok bs.
Proof.
  induction l as [| a l IH]; intros Hall; simpl; [ now exists [] | ].
  destruct (Hall a (or_introl eq_refl)) as (b & ->).
  destruct IH as (bs & ->); [ intros a' Ha'; apply Hall; now right | ].
  now exists (b :: bs).
Qed.


Lemma fill_defined (t : Template) (values : list (string * string)) :
  (forall n, In n (refs t) -> In n (map fst values)) -> exists s, fill t values = ok s.
Proof.
  induction t as [| [s | n] t IH]; intros Hall; simpl.
  - now exists "".
  - destruct (IH Hall) as (rest & ->). now eexists.
  - destruct (list_find (fun nv : string * string => nv.1 = n) values)
      as [[i [n' v]] |] eqn:E.
    + destruct IH as (rest & ->); [ intros m Hm; apply Hall; now right | ].
      now eexists.
    + exfalso. apply list_find_None in E.
      assert (Hin : In n (map fst values)) by (apply Hall; now left).
      apply in_map_iff in Hin as ([n' v] & <- & Hin).
      rewrite Forall_forall in E. apply (E (n', v)); [ | reflexivity ].
      now apply list_elem_of_In.
Qed.

(** *** Requirements *)


Lemma chained_app (chain : ScopeChain) (l1 l2 : list string) (back : string) :
  chained chain (l1 ++ l2) back
  <-> chained chain l1 (hd back l2) /\ chained chain l2 back.
Proof.
  induction l1 as [| x l1 IH]; simpl; [ tauto | ].
  rewrite IH. destruct l1; simpl; tauto.
Qed.




Lemma Settles_requires (chain : ScopeChain) (h : nat) (x y : string) :
  Settles chain (S h) x -> requires chain x y -> Settles chain h y.
Proof.
  intros (sid & value & Hl & Hall) (sid' & value' & Hl' & Hy).
  rewrite Hl in Hl'. injection Hl' as <- <-.
  rewrite Forall_forall in Hall. apply Hall. now apply list_elem_of_In.
Qed.

Lemma Settles_tc (chain : ScopeChain) (x y : string) :
  tc (requires chain) x y ->
  forall h, Settles chain h x -> exists h', h' < h /\ Settles chain h' y.
Proof.
  induction 1 as [x y Hxy | x z y Hxz _ IH]; intros h Hs.
  - destruct h as [| h]; [ destruct Hs | ].
    exists h. split; [ lia | now apply (Settles_requires chain h x) ].
  - destruct h as [| h]; [ destruct Hs | ].
    destruct (IH h (Settles_requires chain h x z Hs Hxz)) as (h' & Hlt & Hy).
    exists h'. split; [ lia | exact Hy ].
Qed.

(** A name that settles requires itself at no distance. *)
Lemma Settles_acyclic (chain : ScopeChain) (h : nat) (x : string) :
  Settles chain h x -> ~ tc (requires chain) x x.
Proof.
  induction h as [h IH] using lt_wf_ind. intros Hs Hc.
  destruct (Settles_tc chain x x Hc h Hs) as (h' & Hlt & Hs').
  exact (IH h' Hlt Hs' Hc).
Qed.



Lemma lookupScopes_defined (chain : ScopeChain) (y : string) :
  is_Some (lookupScopes chain y) -> y ∈ definedNames chain.
Proof.
  unfold definedNames. induction chain as [| [sid m] chain IH]; simpl.
  - intros [? [=]].
  - destruct (m !! y) as [value |] eqn:E.
    + intros _. apply elem_of_union. left. apply elem_of_dom. now rewrite E.
    + intros H. apply elem_of_union. right. now apply IH.
Qed.


Lemma keyOf_lookup (chain : ScopeChain) (y : string) (sid : ScopeId) (value : Template) :
  lookupScopes chain y = Some (sid, value) -> keyOf chain y = (y, sid).
Proof. intros H. unfold keyOf. now rewrite H. Qed.

(** *** Resolution always ends *)





Lemma visited_bound (chain : ScopeChain) (visited : list (string * ScopeId)) :
  validKeys chain visited -> NoDup visited ->
  List.length visited <= size (definedNames chain).
Proof.
  intros Hvalid Hnd.
  assert (Hnames : NoDup (map fst visited)).
  { apply NoDup_fmap_2_strong; [ | exact Hnd ].
    intros k1 k2 H1 H2 E. unfold validKeys in Hvalid. rewrite Forall_forall in Hvalid.
    destruct (Hvalid k1 H1) as (E1 & _), (Hvalid k2 H2) as (E2 & _). congruence. }
  rewrite <- (length_map fst visited).
  rewrite <- (size_list_to_set (C := gset string) _ Hnames).
  apply subseteq_size. intros y Hy. apply elem_of_list_to_set in Hy.
  apply list_elem_of_fmap in Hy as (k & -> & Hk).
  unfold validKeys in Hvalid. rewrite Forall_forall in Hvalid.
  apply lookupScopes_defined. now apply Hvalid.
Qed.

Section Termination.
Variable visitOrder : list string -> list string.






End Termination.


(** *** The chain of a circular reference is an exact cycle *)



Section WithOrder.
Variable visitOrder : list string -> list string.
Hypothesis visitOrder_perm : forall l, visitOrder l ≡ₚ l.

Lemma visitOrder_In (l : list string) (n : string) : In n (visitOrder l) -> In n l.
Proof.
  rewrite <- !list_elem_of_In. now rewrite (visitOrder_perm l).
Qed.

Lemma In_visitOrder (l : list string) (n : string) : In n l -> In n (visitOrder l).
Proof.
  rewrite <- !list_elem_of_In. now rewrite (visitOrder_perm l).
Qed.

Lemma mapM_names (chain : ScopeChain) (fuel : nat) (visited : list (string * ScopeId))
    (l : list string) (values : list (string * string)) :
  mapM (fun n => let* v := resolveVar visitOrder fuel chain visited n in ok (n, v)) l
  = ok values ->
  map fst values = l.
Proof.
  intros H%mapM_ok. induction H as [| n nv l values Hn _ IH]; [ reflexivity | ].
  apply bind_ok in Hn as (v & _ & [= <-]). simpl. now rewrite IH.
Qed.






(** *** What is resolved settles *)



(** *** What settles is resolved *)

Lemma Settles_resolves (chain : ScopeChain) :
  forall (h : nat) (n : string) (fuel : nat) (visited : list (string * ScopeId)),
    Settles chain h n ->
    validKeys chain visited -> NoDup visited ->
    size (definedNames chain) < fuel + List.length visited ->
    (forall k, In k visited -> ~ rtc (requires chain) n k.1) ->
    exists v, resolveVar visitOrder fuel chain visited n = ok v.
Proof.
  induction h as [| h IH]; intros n fuel visited Hs Hvalid Hnd Hfuel Hfar; [ destruct Hs | ].
  pose proof (visited_bound chain visited Hvalid Hnd) as Hbound.
  destruct fuel as [| fuel]; [ simpl in Hfuel; lia | ].
  pose proof Hs as (sid & value & Hlk & Hall).
  cbn [resolveVar]. rewrite Hlk.
  destruct (decide ((n, sid) ∈ visited)) as [Hin | Hnew].
  { exfalso. apply list_elem_of_In in Hin. exact (Hfar _ Hin (rtc_refl _ _)). }
  destruct (mapM_all_ok
              (fun m => let* v := resolveVar visitOrder fuel chain
                                    (visited ++ [(n, sid)]) m in ok (m, v))
              (visitOrder (refs value))) as (values & Hvalues).
  { intros m Hm. apply visitOrder_In in Hm.
    assert (Hnm : requires chain n m) by (exists sid, value; auto).
    destruct (IH m fuel (visited ++ [(n, sid)])) as (v & Hv).
    - rewrite Forall_forall in Hall. apply Hall. now apply list_elem_of_In.
    - apply Forall_app. split; [ exact Hvalid | ]. constructor; [ | constructor ].
      simpl. split; [ now apply keyOf_lookup with value | now rewrite Hlk ].
    - apply NoDup_app. split; [ exact Hnd | split; [ | apply NoDup_singleton ] ].
      intros k Hk ->%list_elem_of_singleton. contradiction.
    - rewrite length_app. simpl. lia.
    - intros k [Hk | [<- | []]]%in_app_iff Hreach.
      + apply (Hfar k Hk). eapply rtc_l; eassumption.
      + simpl in Hreach. apply (Settles_acyclic chain (S h) n Hs).
        eapply tc_rtc_r; [ apply tc_once; exact Hnm | exact Hreach ].
    - exists (m, v). now rewrite Hv. }
  rewrite Hvalues. cbn [bind ok].
  apply fill_defined. intros m Hm.
  rewrite (mapM_names _ _ _ _ _ Hvalues). now apply In_visitOrder.
Qed.

(** *** Round the cycle *)








Lemma hd_app (back : string) (l1 l2 : list string) :
  hd back (l1 ++ l2) = hd (hd back l2) l1.
Proof. destruct l1; reflexivity. Qed.

(** A cycle can be entered at any of its variables. *)
Lemma lasso_rotate (chain : ScopeChain) (pre post : list string) :
  post <> [] -> lasso chain [] (pre ++ post) -> lasso chain [] (post ++ pre).
Proof.
  intros Hpost (_ & Hnd & Hl). unfold lasso. simpl in *.
  split; [ destruct post; [ congruence | discriminate ] | split ].
  - apply NoDup_app in Hnd as (Hpre & Hdis & Hpost').
    apply NoDup_app. split; [ exact Hpost' | split; [ | exact Hpre ] ].
    intros y Hy Hy'. exact (Hdis y Hy' Hy).
  - apply chained_app in Hl as (Hl1 & Hl2). rewrite hd_app in Hl1, Hl2.
    apply chained_app. rewrite hd_app.
    destruct post as [| x post]; [ congruence | ]. simpl hd in *.
    split; [ exact Hl2 | exact Hl1 ].
Qed.

(** *** Templates, requests and collections *)

Lemma settles_resolveRef (chain : ScopeChain) (n : string) :
  settles chain n -> exists v, resolveRef visitOrder chain n = ok v.
Proof.
  intros (h & Hs). unfold resolveRef, fuelFor.
  apply (Settles_resolves chain h n); [ exact Hs | constructor | constructor | | ].
  - simpl. lia.
  - intros k [].
Qed.













(** *** Nearest wins *)


Lemma nearest_fun (scopes : list (gmap string Template)) (v : string)
    (value1 value2 : Template) :
  nearest scopes v value1 -> nearest scopes v value2 -> value1 = value2.
Proof.
  intros (pre1 & m1 & post1 & -> & Hpre1 & Hm1) (pre2 & m2 & post2 & E & Hpre2 & Hm2).
  revert pre2 E Hpre2. induction Hpre1 as [| s pre1 Hs _ IH]; intros pre2 E Hpre2.
  - destruct Hpre2 as [| s pre2 Hs _]; simpl in E; injection E as <-; [ congruence | ].
    congruence.
  - destruct Hpre2 as [| s' pre2 Hs' Hpre2]; simpl in E; injection E as <- E.
    + congruence.
    + exact (IH pre2 E Hpre2).
Qed.

(** A template stands for one text. *)
Lemma Denotes_fun (scopes : list (gmap string Template)) (t : Template) (s1 s2 : string) :
  Denotes scopes t s1 -> Denotes scopes t s2 -> s1 = s2.
Proof.
  intros H. revert s2.
  induction H as [| s t text _ IH | v t value vtext text Hn _ IHv _ IHt];
    intros s2 H2; inversion H2; subst.
  - reflexivity.
  - f_equal. now apply IH.
  - match goal with Hn' : nearest scopes v ?value' |- _ =>
      pose proof (nearest_fun _ _ _ _ Hn Hn') as <- end.
    f_equal; [ now apply IHv | now apply IHt ].
Qed.





End WithOrder.

(** The resolver meets the request items in document order. *)
Lemma scopedNode_items :
  forall (n : Node) (path : string) (outer : ScopeChain),
    map snd (scopedNode path outer n) = nodeItems n.
Proof.
  fix IH 1. intros n path outer.
  destruct n as [name variables children | item]; simpl; [ | reflexivity ].
  generalize ((FolderScope (joinPath path name), variables) :: outer).
  generalize (joinPath path name). intros path' outer'.
  induction children as [| child children IHc]; simpl; [ reflexivity | ].
  rewrite map_app, IHc, IH. reflexivity.
Qed.

Lemma scopedRequests_items (c : Collection) (globals : gmap string Template) :
  map snd (scopedRequests c globals) = requestItems c.
Proof.
  unfold scopedRequests, requestItems.
  induction (c_nodes c) as [| n nodes IH]; simpl; [ reflexivity | ].
  rewrite map_app, IH, scopedNode_items. reflexivity.
Qed.


Section AnyOrder.
Variable visitOrder : list string -> list string.


End AnyOrder.

(** *** The examples *)










(** The chain [A -> B -> A] of the specification, in both orders of
    visit. *)
Example chain_A_B_A :
  Resolve id (oneRequest twoCycle "A") ∅ = fail (CircularReference ["A"; "B"])
  /\ Resolve (@rev string) (oneRequest twoCycle "A") ∅
     = fail (CircularReference ["A"; "B"])
  /\ Resolve id (oneRequest twoCycle "B") ∅ = fail (CircularReference ["B"; "A"]).
Proof. vm_compute. repeat split. Qed.


End ResolverFacts.

(** ** Importer *)

Module ImporterFacts.
Import Model Resolver Importer.
#[local] Open Scope list_scope.

Lemma rollbackOutcome_not_Imported (os : list ImportOutcome) :
  Forall (fun o => o <> Imported) (map rollbackOutcome os).
Proof.
  induction os as [| o os IH]; simpl; constructor; [ | exact IH ].
  destruct o; discriminate.
Qed.

Lemma rollbackOutcome_failed (os : list ImportOutcome) :
  countOf isFailed (map rollbackOutcome os) = countOf isFailed os.
Proof.
  unfold countOf. induction os as [| o os IH]; [ reflexivity | ].
  destruct o; simpl in *; congruence.
Qed.

Lemma rollbackOutcome_imported (os : list ImportOutcome) :
  countOf isImported (map rollbackOutcome os) = 0.
Proof.
  unfold countOf. induction os as [| o os IH]; [ reflexivity | ].
  destruct o; simpl in *; congruence.
Qed.

Lemma rollbackOutcome_rewrites (os : list ImportOutcome) :
  Forall2 (fun before after =>
             match before with
             | Imported => after = Skipped BatchRolledBack
             | _ => after = before
             end) os (map rollbackOutcome os).
Proof.
  induction os as [| o os IH]; simpl; constructor; [ | exact IH ].
  destruct o; reflexivity.
Qed.

Section WithCollaborators.
Variable Raw : Type.
Variable Parse : Raw -> ParseError + Collection.
Variable ResolveScopes :
  Collection -> gmap string Template -> option VariableResolutionError.
Variable ResolveItem : ScopeChain -> RequestItem -> VariableResolutionError + ResolvedRequest.
Variable Validate : ResolvedRequest -> Validators.ValidationResult.
Variable Store : Type.
Variable upsert : Store -> NaturalKey -> ResolvedRequest -> string + Store.

Lemma persistAll_length (c : Collection) (items : list (ImportError + ResolvedRequest))
    (working : Store) :
  List.length (persistAll Store upsert c items working).1 = List.length items.
Proof.
  revert working. induction items as [| [e | r] items IH]; intros working; simpl.
  - reflexivity.
  - specialize (IH working).
    destruct (persistAll Store upsert c items working) as [os final]. simpl in *. lia.
  - destruct (upsert working (naturalKey c r) r) as [cause | working'].
    + specialize (IH working).
      destruct (persistAll Store upsert c items working) as [os final]. simpl in *. lia.
    + specialize (IH working').
      destruct (persistAll Store upsert c items working') as [os final]. simpl in *. lia.
Qed.

(** C1: when the parse and the resolution of the collection's and folders'
    scopes succeed, there is one outcome per request item, and the failure
    ratio is the number of failed outcomes over the number of request
    items.  The ratio is compared with [options.maxFailureRatio], or with
    one half when the options give none: if the ratio is greater, the
    result is RolledBack, its outcomes are the tentative ones with every
    Imported rewritten to Skipped BatchRolledBack (so none is Imported)
    and the store is as before the call; otherwise the result is
    Committed, the tentative outcomes are final and the store is what the
    transaction reached.  Either way the result counts every request item
    and every failure. *)
Theorem import_commit_decision (raw : Raw) (globals : gmap string Template)
    (options : ImportOptions) (store : Store) (c : Collection) :
  Parse raw = inr c ->
  ResolveScopes c globals = None ->
  let pending := tentative ResolveItem Validate Store upsert c globals store in
  let result := Import Raw Parse ResolveScopes ResolveItem Validate Store upsert
                       raw globals options store in
  let failed := countOf isFailed pending.1 in
  let total := List.length (requestItems c) in
  let ratio := (inject_Z (Z.of_nat failed) / inject_Z (Z.of_nat total))%Q in
  let limit := match maxFailureRatio options with
               | Some q => q
               | None => (1 # 2)%Q
               end in
  List.length pending.1 = total
  /\ failureRatio pending.1 = ratio
  /\ totalItems result.1 = total
  /\ failedCount result.1 = failed
  /\ ((limit < ratio)%Q ->
        status result.1 = RolledBack
        /\ outcomes result.1 = map rollbackOutcome pending.1
        /\ Forall (fun o => o <> Imported) (outcomes result.1)
        /\ importedCount result.1 = 0
        /\ Forall2 (fun before after =>
                      match before with
                      | Imported => after = Skipped BatchRolledBack
                      | _ => after = before
                      end) pending.1 (outcomes result.1)
        /\ result.2 = store)
  /\ (~ (limit < ratio)%Q ->
        status result.1 = Committed
        /\ outcomes result.1 = pending.1
        /\ result.2 = pending.2).
Proof.
  intros Hparse Hscopes pending result failed total ratio limit.
  assert (Hlen : List.length pending.1 = total).
  { unfold pending, tentative, total. rewrite persistAll_length, length_map.
    rewrite <- (ResolverFacts.scopedRequests_items c globals). now rewrite length_map. }
  assert (Hratio : failureRatio pending.1 = ratio).
  { unfold failureRatio, ratio, failed. now rewrite Hlen. }
  assert (Hlimit : threshold options = limit).
  { unfold threshold, limit. now destruct (maxFailureRatio options). }
  assert (Eresult : result
     = if negb (Qle_bool ratio limit)
       then (mkResult RolledBack (map rollbackOutcome pending.1), store)
       else (mkResult Committed pending.1, pending.2)).
  { unfold result, Import. rewrite Hparse, Hscopes. fold pending.
    rewrite <- Hratio, <- Hlimit. destruct pending as [os working]. reflexivity. }
  assert (Hcmp : negb (Qle_bool ratio limit) = true <-> (limit < ratio)%Q).
  { rewrite negb_true_iff, <- not_true_iff_false, Qle_bool_iff.
    split; [ apply Qnot_le_lt | apply Qlt_not_le ]. }
  assert (Hfailed : countOf isFailed (map rollbackOutcome pending.1) = failed)
    by apply rollbackOutcome_failed.
  assert (Himported : countOf isImported (map rollbackOutcome pending.1) = 0)
    by apply rollbackOutcome_imported.
  repeat match goal with |- _ /\ _ => split end.
  - exact Hlen.
  - exact Hratio.
  - rewrite Eresult. destruct (negb (Qle_bool ratio limit)); cbn [fst mkResult totalItems];
      [ now rewrite length_map | exact Hlen ].
  - rewrite Eresult. destruct (negb (Qle_bool ratio limit)); cbn [fst mkResult failedCount];
      [ exact Hfailed | reflexivity ].
  - intros Hlt. apply Hcmp in Hlt. rewrite Eresult, Hlt. cbn [fst snd mkResult status outcomes importedCount].
    repeat match goal with |- _ /\ _ => split end; try reflexivity;
      [ apply rollbackOutcome_not_Imported | exact Himported | apply rollbackOutcome_rewrites ].
  - intros Hge. rewrite Eresult.
    destruct (negb (Qle_bool ratio limit)) eqn:E.
    + exfalso. apply Hge. now apply Hcmp.
    + simpl. repeat split.
Qed.

End WithCollaborators.

(** The document of the specification's example: three requests of five
    fail validation, which is above one half, so the batch is rolled back;
    with [maxFailureRatio] set to seven tenths the same document commits. *)
Lemma import_commit_decision_witness :
  let lenient := {| maxFailureRatio := Some (7 # 10)%Q; concurrencyLimit := None |} in
  status (exampleImport fiveRequests defaultOptions).1 = RolledBack
  /\ outcomes (exampleImport fiveRequests defaultOptions).1
     = [ Skipped BatchRolledBack; Skipped BatchRolledBack;
         Failed (ValidationFailed ["URL must use HTTPS protocol"]);
         Failed (ValidationFailed ["URL must use HTTPS protocol"]);
         Failed (ValidationFailed ["URL must use HTTPS protocol"]) ]
  /\ (exampleImport fiveRequests defaultOptions).2 = ∅
  /\ status (exampleImport fiveRequests lenient).1 = Committed.
Proof.
  intros lenient.
  destruct (import_commit_decision Collection exampleParse exampleResolveScopes
              exampleResolveItem exampleValidate (gmap NaturalKey ResolvedRequest)
              exampleUpsert fiveRequests ∅ defaultOptions ∅ fiveRequests
              eq_refl eq_refl)
    as (_ & _ & _ & _ & Hrollback & _).
  destruct (import_commit_decision Collection exampleParse exampleResolveScopes
              exampleResolveItem exampleValidate (gmap NaturalKey ResolvedRequest)
              exampleUpsert fiveRequests ∅ lenient ∅ fiveRequests
              eq_refl eq_refl)
    as (_ & _ & _ & _ & _ & Hcommit).
  destruct Hrollback as (Hstatus & Houtcomes & _ & _ & _ & Hstore).
  - vm_compute. reflexivity.
  - destruct Hcommit as (Hcommitted & _).
    + vm_compute. discriminate.
    + split; [ exact Hstatus | split; [ | split; [ exact Hstore | exact Hcommitted ] ] ].
      unfold exampleImport. rewrite Houtcomes. vm_compute. reflexivity.
Defined.

(** Three requests of ten fail validation, which is below one half: the
    batch commits, and the seven others are imported. *)
Example import_thirty_percent :
  status (exampleImport tenRequests defaultOptions).1 = Committed
  /\ importedCount (exampleImport tenRequests defaultOptions).1 = 7
  /\ failedCount (exampleImport tenRequests defaultOptions).1 = 3
  /\ size (exampleImport tenRequests defaultOptions).2 = 7.
Proof. vm_compute. repeat split. Qed.

End ImporterFacts.

(** ** The regular expressions of the validators *)

Module RegexFacts.
Import Js Regex RegexWords.
#[local] Open Scope list_scope.

Lemma nullable_spec (r : Re) : nullable r = true <-> Matches r [].
Proof.
  split.
  - induction r; simpl; intros H; try discriminate.
    + constructor.
    + apply andb_true_iff in H as (H1 & H2).
      change (@nil ascii) with (@nil ascii ++ []). constructor; auto.
    + apply orb_true_iff in H as [H | H]; [ apply MAltL | apply MAltR ]; auto.
    + constructor.
  - intros H. remember [] as l eqn:El.
    induction H; simpl; try reflexivity; try discriminate.
    + apply app_eq_nil in El as (-> & ->). rewrite IHMatches1, IHMatches2; auto.
    + rewrite IHMatches; auto.
    + rewrite IHMatches; auto. apply orb_true_r.
Qed.

Lemma star_cons (r : Re) (c : ascii) (l : list ascii) :
  Matches (Star r) (c :: l) ->
  exists l1 l2, l = l1 ++ l2 /\ Matches r (c :: l1) /\ Matches (Star r) l2.
Proof.
  intros H. remember (Star r) as sr eqn:Er. remember (c :: l) as cl eqn:El.
  revert l El.
  induction H as [| | | | | | r' l1 l2 H1 _ H2 IH2]; intros l0 El; try discriminate.
  injection Er as ->.
  destruct l1 as [| c1 l1].
  - simpl in El. now apply IH2.
  - simpl in El. injection El as -> <-. exists l1, l2. auto.
Qed.

Lemma Cat_spec (r1 r2 : Re) (l : list ascii) :
  Matches (Cat r1 r2) l <-> exists l1 l2, l = l1 ++ l2 /\ Matches r1 l1 /\ Matches r2 l2.
Proof.
  split.
  - intros H. inversion H; subst. eauto.
  - intros (l1 & l2 & -> & H1 & H2). now constructor.
Qed.

Lemma Alt_spec (r1 r2 : Re) (l : list ascii) :
  Matches (Alt r1 r2) l <-> Matches r1 l \/ Matches r2 l.
Proof.
  split.
  - intros H. inversion H; subst; auto.
  - intros [H | H]; [ now apply MAltL | now apply MAltR ].
Qed.

Lemma Cat_cons (r1 r2 : Re) (c : ascii) (l : list ascii) :
  Matches (Cat r1 r2) (c :: l)
  <-> (exists l1 l2, l = l1 ++ l2 /\ Matches r1 (c :: l1) /\ Matches r2 l2)
      \/ (Matches r1 [] /\ Matches r2 (c :: l)).
Proof.
  rewrite Cat_spec. split.
  - intros (l1 & l2 & E & H1 & H2). destruct l1 as [| c1 l1]; simpl in E.
    + subst l2. now right.
    + injection E as <- ->. left. eauto.
  - intros [(l1 & l2 & -> & H1 & H2) | (H1 & H2)].
    + exists (c :: l1), l2. auto.
    + exists [], (c :: l). auto.
Qed.

Lemma deriv_spec (r : Re) (c : ascii) (l : list ascii) :
  Matches (deriv c r) l <-> Matches r (c :: l).
Proof.
  revert l. induction r as [| | p | r1 IH1 r2 IH2 | r1 IH1 r2 IH2 | r IH]; intros l; simpl.
  - split; intros H; inversion H.
  - split; intros H; inversion H.
  - destruct (p c) eqn:Hp; split; intros H; inversion H; subst.
    + now constructor.
    + constructor.
    + congruence.
  - rewrite Cat_cons. destruct (nullable r1) eqn:Hn.
    + rewrite Alt_spec, Cat_spec, IH2. split.
      * intros [(l1 & l2 & -> & H1 & H2) | H2].
        -- left. exists l1, l2. rewrite <- IH1. auto.
        -- right. split; [ now apply nullable_spec | exact H2 ].
      * intros [(l1 & l2 & -> & H1 & H2) | (_ & H2)].
        -- left. exists l1, l2. rewrite IH1. auto.
        -- now right.
    + rewrite Cat_spec. split.
      * intros (l1 & l2 & -> & H1 & H2). left. exists l1, l2. rewrite <- IH1. auto.
      * intros [(l1 & l2 & -> & H1 & H2) | (H1 & _)].
        -- exists l1, l2. rewrite IH1. auto.
        -- apply nullable_spec in H1. congruence.
  - rewrite !Alt_spec, IH1, IH2. tauto.
  - rewrite Cat_spec. split.
    + intros (l1 & l2 & -> & H1 & H2). apply IH in H1.
      change (c :: l1 ++ l2) with ((c :: l1) ++ l2). now constructor.
    + intros (l1 & l2 & -> & H1 & H2)%star_cons.
      exists l1, l2. rewrite IH. auto.
Qed.

(** [fullMatch] decides the words of a regular expression. *)
Lemma fullMatch_spec (r : Re) (s : string) :
  fullMatch r s = true <-> Matches r (list_ascii_of_string s).
Proof.
  revert r. induction s as [| c s IH]; intros r; simpl.
  - apply nullable_spec.
  - rewrite IH. apply deriv_spec.
Qed.

Lemma anything_spec (l : list ascii) : Matches anything l.
Proof.
  unfold anything. induction l as [| c l IH]; [ constructor | ].
  change (c :: l) with ([c] ++ l). constructor; [ now constructor | exact IH ].
Qed.

(** [search] decides whether a word occurs somewhere. *)
Lemma search_spec (r : Re) (s : string) :
  search r s = true <-> Contains r (list_ascii_of_string s).
Proof.
  unfold search, Contains. rewrite fullMatch_spec, Cat_spec. split.
  - intros (pre & rest & -> & _ & (m & post & -> & Hm & _)%Cat_spec).
    exists pre, m, post. auto.
  - intros (pre & m & post & -> & Hm).
    exists pre, (m ++ post). split; [ reflexivity | split; [ apply anything_spec | ] ].
    constructor; [ exact Hm | apply anything_spec ].
Qed.

(** *** The shapes of some expressions *)

Lemma Chr_spec (p : ascii -> bool) (l : list ascii) :
  Matches (Chr p) l <-> exists c, l = [c] /\ p c = true.
Proof.
  split.
  - intros H. inversion H; subst. eauto.
  - intros (c & -> & Hc). now constructor.
Qed.

Lemma Star_Chr_spec (p : ascii -> bool) (l : list ascii) :
  Matches (Star (Chr p)) l <-> Forall (fun c => p c = true) l.
Proof.
  split.
  - intros H. remember (Star (Chr p)) as r eqn:Er.
    induction H as [| | | | | | r' l1 l2 H1 _ H2 IH2]; try discriminate.
    + constructor.
    + injection Er as ->. inversion H1; subst. constructor; auto.
  - induction 1 as [| c l Hc _ IH]; [ constructor | ].
    change (c :: l) with ([c] ++ l). constructor; [ now constructor | exact IH ].
Qed.

Lemma Plus_Chr_spec (p : ascii -> bool) (l : list ascii) :
  Matches (Plus (Chr p)) l <-> l <> [] /\ Forall (fun c => p c = true) l.
Proof.
  unfold Plus. split.
  - intros H. inversion H as [| | ? ? l1 l2 H1 H2 | | | |]; subst.
    inversion H1; subst. apply Star_Chr_spec in H2.
    split; [ discriminate | constructor; assumption ].
  - intros (Hne & Hall). destruct l as [| c l]; [ congruence | ].
    inversion Hall; subst. change (c :: l) with ([c] ++ l).
    constructor; [ now constructor | now apply Star_Chr_spec ].
Qed.

Lemma Times_Chr_spec (n : nat) (p : ascii -> bool) (l : list ascii) :
  Matches (Times n (Chr p)) l
  <-> List.length l = n /\ Forall (fun c => p c = true) l.
Proof.
  revert l. induction n as [| n IH]; intros l; simpl.
  - split.
    + intros H. inversion H. split; [ reflexivity | constructor ].
    + intros (Hl & _). destruct l; [ constructor | discriminate ].
  - split.
    + intros H. inversion H as [| | ? ? l1 l2 H1 H2 | | | |]; subst.
      inversion H1; subst. apply IH in H2 as (Hl & Hall).
      split; [ simpl; congruence | constructor; assumption ].
    + intros (Hl & Hall). destruct l as [| c l]; [ discriminate | ].
      inversion Hall; subst. change (c :: l) with ([c] ++ l).
      constructor; [ now constructor | apply IH ]. split; [ simpl in Hl; lia | assumption ].
Qed.

Lemma litI_spec (kw : string) (l : list ascii) :
  Matches (litI kw) l <-> sameLetters l (list_ascii_of_string kw).
Proof.
  unfold sameLetters. revert l. induction kw as [| k kw IH]; intros l; simpl.
  - split.
    + intros H. inversion H. constructor.
    + intros H. inversion H. constructor.
  - split.
    + intros H. inversion H as [| | ? ? l1 l2 H1 H2 | | | |]; subst.
      inversion H1; subst. constructor; [ assumption | now apply IH ].
    + intros H. inversion H as [| c ? l' ? Hc Hl]; subst.
      change (c :: l') with ([c] ++ l').
      constructor; [ now constructor | now apply IH ].
Qed.

End RegexFacts.

(** ** Lengths, ranges and pages *)

Module RangeFacts.
Import Js Validators ValidatorsFacts.
#[local] Open Scope list_scope.

Lemma lt_Finite (p q : Q) : lt (Finite p) (Finite q) = false <-> (q <= p)%Q.
Proof.
  simpl. rewrite negb_false_iff. apply Qle_bool_iff.
Qed.

Lemma two_checks (a b : bool) (e1 e2 : string) :
  isValid (result (let errs := [] in
                   let errs := if a then push errs e1 else errs in
                   let errs := if b then push errs e2 else errs in errs)) = true
  <-> a = false /\ b = false.
Proof.
  rewrite result_isValid. unfold push. destruct a, b; cbn; intuition discriminate.
Qed.

Section WithHost.
Context `{Host}.

Lemma stringLength_valid (value : JsValue) (field : string) (lo hi : JsNumber) :
  isValid (validateStringLength value field (Some lo) (Some hi)) = true
  <-> exists s, value = JStr s
        /\ lt (ofNat (String.length s)) lo = false
        /\ gt (ofNat (String.length s)) hi = false.
Proof.
  unfold validateStringLength. cbn [default]. destruct value;
    try (rewrite result_isValid; split;
         [ intros E; apply app_eq_nil in E as (_ & E); discriminate
         | intros (s0 & E & _); discriminate ]).
  rewrite two_checks. split.
  - intros (Ha & Hb). eauto.
  - intros (s0 & E & Ha & Hb). injection E as ->. auto.
Qed.

Lemma numericRange_valid (value : JsValue) (field : string) (lo hi : JsNumber) :
  isValid (validateNumericRange value field (Some lo) (Some hi)) = true
  <-> exists q, value = JNum (Finite q)
        /\ lt (Finite q) lo = false /\ gt (Finite q) hi = false.
Proof.
  unfold validateNumericRange. cbn [default]. destruct value as [| | b | n | s | f | i |];
    try (rewrite result_isValid; split;
         [ intros E; apply app_eq_nil in E as (_ & E); discriminate
         | intros (q & E & _); discriminate ]).
  destruct n as [| | | q]; cbn [isFinite negb];
    try (rewrite result_isValid; split;
         [ intros E; apply app_eq_nil in E as (_ & E); discriminate
         | intros (q & E & _); discriminate ]).
  rewrite two_checks. split.
  - intros (Ha & Hb). eauto.
  - intros (q0 & E & Ha & Hb). injection E as ->. auto.
Qed.

Lemma stringLength_between (value : JsValue) (field : string) (lo hi : nat) :
  errors (validateStringLength value field (Some (ofNat lo)) (Some (ofNat hi))) = []
  <-> exists s, value = JStr s /\ lo <= String.length s <= hi.
Proof.
  etransitivity; [ symmetry; apply result_consistent | ].
  change (isValid (validateStringLength value field (Some (ofNat lo)) (Some (ofNat hi))) = true
          <-> exists s, value = JStr s /\ lo <= String.length s <= hi).
  rewrite stringLength_valid. unfold gt, ofNat. setoid_rewrite lt_Finite.
  split.
  - intros (s & -> & Ha & Hb). exists s. split; [ reflexivity | ].
    rewrite <- Zle_Qle in Ha, Hb. lia.
  - intros (s & -> & Ha). exists s. split; [ reflexivity | ].
    rewrite <- !Zle_Qle. lia.
Qed.


(** X2: validateNumericRange: a value passes exactly when it is a finite
    number between the bounds (0 and Number.MAX_SAFE_INTEGER when left
    out); NaN and the infinities are refused whatever the bounds are. *)
Theorem validateNumericRange_spec (value : JsValue) (field : string) :
  (forall lo hi : Q,
      isValid (validateNumericRange value field (Some (Finite lo)) (Some (Finite hi))) = true
      <-> exists q, value = JNum (Finite q) /\ (lo <= q)%Q /\ (q <= hi)%Q)
  /\ (isValid (validateNumericRange value field None None) = true
      <-> exists q, value = JNum (Finite q)
            /\ (0 <= q)%Q /\ (q <= inject_Z 9007199254740991)%Q)
  /\ (forall lo hi,
      Forall (fun n => validateNumericRange (JNum n) field lo hi
                       = {| isValid := false;
                            errors := [field ++ " must be a finite number"]%string |})
             [NaN; PosInf; NegInf]).
Proof.
  split; [ | split ].
  - intros lo hi. rewrite numericRange_valid. unfold gt.
    setoid_rewrite lt_Finite. reflexivity.
  - change (validateNumericRange value field None None)
      with (validateNumericRange value field (Some (ofZ 0)) (Some MAX_SAFE_INTEGER)).
    rewrite numericRange_valid. unfold gt, MAX_SAFE_INTEGER, ofZ.
    setoid_rewrite lt_Finite. reflexivity.
  - intros lo hi. repeat constructor.
Qed.

Lemma page_errors (value : JsValue) (name : string) (lo hi : JsNumber) (errs : list string) :
  match value with
  | JUndefined => errs
  | _ => let v := validateNumericRange value name (Some lo) (Some hi) in
         if negb (isValid v) then pushAll errs (errors v) else errs
  end
  = errs ++ (match value with
             | JUndefined => []
             | _ => errors (validateNumericRange value name (Some lo) (Some hi))
             end).
Proof.
  assert (Hc : Consistent (validateNumericRange value name (Some lo) (Some hi)))
    by apply result_consistent.
  destruct value; try (apply push_sub; exact Hc). now rewrite app_nil_r.
Qed.

(** X3: validatePaginationParams: the parameters pass exactly when each of
    them is either undefined or a finite number in its range, 1 to 10000
    for the page and 1 to 1000 for the limit. *)
Theorem validatePaginationParams_spec (page limit : JsValue) :
  isValid (validatePaginationParams page limit) = true
  <-> (page = JUndefined
       \/ exists q, page = JNum (Finite q) /\ (1 <= q)%Q /\ (q <= 10000)%Q)
      /\ (limit = JUndefined
          \/ exists q, limit = JNum (Finite q) /\ (1 <= q)%Q /\ (q <= 1000)%Q).
Proof.
  unfold validatePaginationParams. cbv zeta.
  rewrite (page_errors page), (page_errors limit), result_isValid. cbn [app].
  rewrite app_nil.
  assert (Hone : forall v name hi,
    match v with
    | JUndefined => []
    | _ => errors (validateNumericRange v name (Some (ofZ 1)) (Some (ofZ hi)))
    end = []
    <-> v = JUndefined
        \/ exists q, v = JNum (Finite q) /\ (1 <= q)%Q /\ (q <= inject_Z hi)%Q).
  { intros v name hi.
    assert (Hv : errors (validateNumericRange v name (Some (ofZ 1)) (Some (ofZ hi))) = []
                 <-> exists q, v = JNum (Finite q) /\ (1 <= q)%Q /\ (q <= inject_Z hi)%Q).
    { etransitivity; [ symmetry; apply result_consistent | ].
      change (isValid (validateNumericRange v name (Some (ofZ 1)) (Some (ofZ hi))) = true
              <-> exists q, v = JNum (Finite q) /\ (1 <= q)%Q /\ (q <= inject_Z hi)%Q).
      rewrite numericRange_valid. unfold gt, ofZ. setoid_rewrite lt_Finite. reflexivity. }
    destruct v; try (rewrite Hv; split; [ now right | intros [E | E]; [ discriminate | exact E ] ]).
    split; [ now left | reflexivity ]. }
  rewrite (Hone page "page" 10000%Z), (Hone limit "limit" 1000%Z). reflexivity.
Qed.

End WithHost.

End RangeFacts.

(** ** Identifiers, addresses and search queries *)

Module ShapeFacts.
Import Js Regex RegexWords Shapes Validators ValidatorsFacts RegexFacts.
#[local] Open Scope list_scope.

Lemma existsb_eqb_ascii (x : ascii) (l : list ascii) :
  existsb (Ascii.eqb x) l = true <-> In x l.
Proof.
  rewrite existsb_exists. split.
  - intros (y & Hy & E). apply Ascii.eqb_eq in E. now subst.
  - intros Hx. exists x. split; [ exact Hx | apply Ascii.eqb_refl ].
Qed.

Lemma hexI_isHexDigit (c : ascii) :
  (isDigit c || existsb (ciEq c) (list_ascii_of_string "abcdef")) = isHexDigit c.
Proof. ErrorHandler.each_ascii c; reflexivity. Qed.

Lemma chr_spec (c : ascii) (l : list ascii) : Matches (chr c) l <-> l = [c].
Proof.
  unfold chr. rewrite Chr_spec. split.
  - intros (x & -> & E). apply Ascii.eqb_eq in E. now subst.
  - intros ->. exists c. split; [ reflexivity | apply Ascii.eqb_refl ].
Qed.

Lemma oneOf_spec (s : string) (l : list ascii) :
  Matches (oneOf s) l <-> exists c, l = [c] /\ In c (list_ascii_of_string s).
Proof.
  unfold oneOf. rewrite Chr_spec. now setoid_rewrite existsb_eqb_ascii.
Qed.

Lemma hex_spec (n : nat) (l : list ascii) : Matches (Times n hexI) l <-> hexDigits n l.
Proof.
  unfold hexI, hexDigits. rewrite Times_Chr_spec.
  now setoid_rewrite hexI_isHexDigit.
Qed.

Lemma uuid_spec (l : list ascii) : Matches uuidRegex l <-> Uuid l.
Proof.
  unfold uuidRegex, Uuid. cbv zeta. split.
  - intros H.
    repeat match goal with
           | H : Matches (Cat _ _) _ |- _ =>
               let l1 := fresh "l" in let l2 := fresh "l" in
               apply Cat_spec in H as (l1 & l2 & -> & ? & H)
           end.
    repeat match goal with
           | H : Matches (Times _ hexI) _ |- _ => apply hex_spec in H
           | H : Matches (chr _) _ |- _ => apply chr_spec in H; subst
           | H : Matches (oneOf _) _ |- _ => apply oneOf_spec in H as (? & -> & H)
           end.
    do 7 eexists. split; [ reflexivity | ]. auto 10.
  - intros (a & b & v & c & r & d & e & -> & Ha & Hb & Hv & Hc & Hr & Hd & He).
    apply Cat_spec. exists a. eexists. split; [ reflexivity | ]. split; [ now apply hex_spec | ].
    apply (Cat_spec _ _ ("-"%char :: _)). exists ["-"%char]. eexists.
    split; [ reflexivity | ]. split; [ now apply chr_spec | ].
    apply Cat_spec. exists b. eexists. split; [ reflexivity | ]. split; [ now apply hex_spec | ].
    apply (Cat_spec _ _ ("-"%char :: _)). exists ["-"%char]. eexists.
    split; [ reflexivity | ]. split; [ now apply chr_spec | ].
    apply (Cat_spec _ _ (v :: _)). exists [v]. eexists.
    split; [ reflexivity | ]. split; [ apply oneOf_spec; eauto | ].
    apply Cat_spec. exists c. eexists. split; [ reflexivity | ]. split; [ now apply hex_spec | ].
    apply (Cat_spec _ _ ("-"%char :: _)). exists ["-"%char]. eexists.
    split; [ reflexivity | ]. split; [ now apply chr_spec | ].
    apply (Cat_spec _ _ (r :: _)). exists [r]. eexists.
    split; [ reflexivity | ]. split; [ apply oneOf_spec; eauto | ].
    apply Cat_spec. exists d. eexists. split; [ reflexivity | ]. split; [ now apply hex_spec | ].
    apply (Cat_spec _ _ ("-"%char :: _)). exists ["-"%char]. eexists.
    split; [ reflexivity | ]. split; [ now apply chr_spec | ].
    now apply hex_spec.
Qed.

Lemma Uuid_length (l : list ascii) : Uuid l -> List.length l = 36.
Proof.
  intros (a & b & v & c & r & d & e & -> & (Ha & _) & (Hb & _) & _ & (Hc & _) & _
          & (Hd & _) & (He & _)).
  repeat (rewrite ?length_app; cbn [List.length]). lia.
Qed.

Lemma numeric_spec (l : list ascii) : Matches numericRegex l <-> Numeric l.
Proof. unfold numericRegex, digit, Numeric. apply Plus_Chr_spec. Qed.

Lemma length_chars (s : string) : List.length (list_ascii_of_string s) = String.length s.
Proof. induction s; simpl; congruence. Qed.

Lemma chars_nil (s : string) : list_ascii_of_string s = [] <-> s = "".
Proof. destruct s; simpl; split; congruence. Qed.

(** X4: validateDatabaseId: an identifier passes exactly when it is a string of
    the UUID layout, in either case of the letters, or a string of one to
    a hundred decimal digits. *)
Theorem validateDatabaseId_spec (id : JsValue) :
  isValid (validateDatabaseId id) = true
  <-> exists s, id = JStr s
        /\ (Uuid (list_ascii_of_string s)
            \/ (Numeric (list_ascii_of_string s) /\ String.length s <= 100)).
Proof.
  unfold validateDatabaseId. cbv zeta. rewrite result_isValid.
  destruct (falsy id) eqn:Hf.
  - split; [ intros E; apply app_eq_nil in E as (_ & E); discriminate | ].
    intros (s & -> & Hs). rewrite falsy_JStr in Hf. apply String.eqb_eq in Hf. subst s.
    destruct Hs as [Hu | ((Hn & _) & _)]; [ apply Uuid_length in Hu; discriminate | now destruct Hn ].
  - destruct id as [| | b | n | s | f | i |];
      try (split; [ intros E; apply app_eq_nil in E as (_ & E); discriminate
                  | intros (s & E & _); discriminate ]).
    pose proof (fullMatch_spec uuidRegex s) as Hu. rewrite uuid_spec in Hu.
    pose proof (fullMatch_spec numericRegex s) as Hn. rewrite numeric_spec in Hn.
    pose proof (Nat.ltb_spec 100 (String.length s)) as Hl.
    split.
    + intros E. exists s. split; [ reflexivity | ].
      destruct (fullMatch uuidRegex s); [ left; now apply Hu | ].
      destruct (fullMatch numericRegex s); [ | destruct (100 <? String.length s)%nat; discriminate ].
      right. split; [ now apply Hn | ].
      destruct Hl; [ discriminate | assumption ].
    + intros (s0 & E & Hs). injection E as <-.
      destruct Hs as [Hs | (Hs & Hlen)].
      * pose proof (Uuid_length _ Hs) as L. rewrite length_chars in L.
        apply Hu in Hs. rewrite Hs. destruct Hl; [ lia | reflexivity ].
      * apply Hn in Hs. rewrite Hs, andb_false_r. destruct Hl; [ lia | reflexivity ].
Qed.

Lemma part_spec (l : list ascii) :
  Matches (Plus (Chr (fun x => negb (isSpace x || Ascii.eqb x "@")))) l <-> emailPart l.
Proof.
  rewrite Plus_Chr_spec. unfold emailPart.
  assert (Hc : forall c, negb (isSpace c || Ascii.eqb c "@") = true
                         <-> isSpace c = false /\ c <> "@"%char).
  { intros c. rewrite negb_true_iff, orb_false_iff, Ascii.eqb_neq. reflexivity. }
  split; intros (Hne & Hall); (split; [ exact Hne | ]);
    revert Hall; apply List.Forall_impl; intros c; apply Hc.
Qed.

Lemma email_spec (l : list ascii) : Matches emailRegex l <-> Email l.
Proof.
  unfold emailRegex, Email. cbv zeta. split.
  - intros H.
    apply Cat_spec in H as (loc & l1 & -> & Hloc & H).
    apply Cat_spec in H as (at' & l2 & -> & Hat & H).
    apply Cat_spec in H as (domain & l3 & -> & Hdom & H).
    apply Cat_spec in H as (dot & tld & -> & Hdot & Htld).
    apply chr_spec in Hat, Hdot. subst.
    exists loc, domain, tld. rewrite <- !part_spec. auto.
  - intros (loc & domain & tld & -> & Hloc & Hdom & Htld).
    apply Cat_spec. exists loc. eexists. split; [ reflexivity | ].
    split; [ now apply part_spec | ].
    apply (Cat_spec _ _ ("@"%char :: _)). exists ["@"%char]. eexists.
    split; [ reflexivity | ]. split; [ now apply chr_spec | ].
    apply Cat_spec. exists domain. eexists. split; [ reflexivity | ].
    split; [ now apply part_spec | ].
    apply (Cat_spec _ _ ("."%char :: _)). exists ["."%char], tld.
    split; [ reflexivity | ]. split; [ now apply chr_spec | now apply part_spec ].
Qed.

(** X5: validateEmail: an address passes exactly when it is a string of at most
    254 code units that reads local@domain.tld, the three parts not empty
    and free of spaces and of further at-signs; nothing else is asked of
    the parts, dots included. *)
Theorem validateEmail_spec (email : JsValue) :
  isValid (validateEmail email) = true
  <-> exists s, email = JStr s
        /\ Email (list_ascii_of_string s) /\ String.length s <= 254.
Proof.
  unfold validateEmail. cbv zeta. rewrite result_isValid.
  destruct (falsy email) eqn:Hf.
  - split; [ intros E; apply app_eq_nil in E as (_ & E); discriminate | ].
    intros (s & -> & Hs & _). rewrite falsy_JStr in Hf. apply String.eqb_eq in Hf. subst s.
    destruct Hs as (loc & domain & tld & E & _). simpl in E. now destruct loc.
  - destruct email as [| | b | n | s | f | i |];
      try (split; [ intros E; apply app_eq_nil in E as (_ & E); discriminate
                  | intros (s & E & _); discriminate ]).
    pose proof (fullMatch_spec emailRegex s) as He. rewrite email_spec in He.
    pose proof (Nat.ltb_spec 254 (String.length s)) as Hl.
    split.
    + intros E. exists s. split; [ reflexivity | ].
      destruct (fullMatch emailRegex s);
        [ | destruct (254 <? String.length s)%nat; discriminate ].
      split; [ now apply He | ]. destruct Hl; [ discriminate | assumption ].
    + intros (s0 & E & Hs & Hlen). injection E as <-.
      apply He in Hs. rewrite Hs. destruct Hl; [ lia | reflexivity ].
Qed.

(** *** Search queries *)

Lemma dropSpaces_nil (l : list ascii) : dropSpaces l = [] <-> Blank l.
Proof.
  unfold Blank. induction l as [| c l IH]; simpl.
  - split; [ constructor | reflexivity ].
  - destruct (isSpace c) eqn:Hc.
    + rewrite IH. split; [ now constructor | now inversion 1 ].
    + split; [ discriminate | ]. inversion 1; congruence.
Qed.

Lemma dropSpaces_head (l : list ascii) :
  match dropSpaces l with [] => True | c :: _ => isSpace c = false end.
Proof.
  induction l as [| c l IH]; simpl; [ exact I | ].
  destruct (isSpace c) eqn:Hc; [ exact IH | exact Hc ].
Qed.

Lemma trim_blank (s : string) :
  String.length (trim s) = 0 <-> Blank (list_ascii_of_string s).
Proof.
  unfold trim. rewrite <- length_chars, list_ascii_of_string_of_list_ascii, length_rev.
  rewrite <- dropSpaces_nil.
  pose proof (dropSpaces_head (list_ascii_of_string s)) as Hh.
  destruct (dropSpaces (list_ascii_of_string s)) as [| c l] eqn:E; [ now simpl | ].
  split; [ | discriminate ].
  intros Hl. apply length_zero_iff_nil, dropSpaces_nil in Hl.
  apply Forall_rev in Hl. rewrite rev_involutive in Hl. inversion Hl; congruence.
Qed.

Lemma handler_spec (l : list ascii) :
  Matches (Cat (litI "on") (Cat (Plus word) (Cat (Star space) (chr "=")))) l
  <-> Handler l.
Proof.
  unfold Handler, word, space. split.
  - intros H.
    apply Cat_spec in H as (o & l1 & -> & Ho & H).
    apply Cat_spec in H as (w & l2 & -> & Hw & H).
    apply Cat_spec in H as (sp & e & -> & Hsp & He).
    apply litI_spec in Ho. apply Plus_Chr_spec in Hw as (Hne & Hw).
    apply Star_Chr_spec in Hsp. apply chr_spec in He. subst e.
    exists o, w, sp. auto.
  - intros (o & w & sp & -> & Ho & Hne & Hw & Hsp).
    apply Cat_spec. exists o. eexists. split; [ reflexivity | ].
    split; [ now apply litI_spec | ].
    apply Cat_spec. exists w. eexists. split; [ reflexivity | ].
    split; [ now apply Plus_Chr_spec | ].
    apply Cat_spec. exists sp, ["="%char]. split; [ reflexivity | ].
    split; [ now apply Star_Chr_spec | now apply chr_spec ].
Qed.

Lemma suspicious_spec (s : string) :
  existsb (fun pattern => search pattern s) suspiciousPatterns = true
  <-> Suspicious (list_ascii_of_string s).
Proof.
  unfold suspiciousPatterns, Suspicious, occursIn. cbn [existsb]. cbv beta.
  rewrite !orb_true_iff, !search_spec. unfold Contains.
  setoid_rewrite handler_spec. setoid_rewrite litI_spec.
  intuition discriminate.
Qed.

(** X6: validateSearchQuery: undefined and null pass; a string passes exactly
    when it is not blank, has at most 500 code units and holds, in no
    case of the letters, none of a script tag, a javascript or data scheme
    and an event handler; nothing else passes. *)
Theorem validateSearchQuery_spec (query : JsValue) :
  isValid (validateSearchQuery query) = true
  <-> query = JUndefined \/ query = JNull
      \/ exists s, query = JStr s
           /\ ~ Blank (list_ascii_of_string s)
           /\ String.length s <= 500
           /\ ~ Suspicious (list_ascii_of_string s).
Proof.
  unfold validateSearchQuery. cbv zeta. rewrite result_isValid.
  destruct query as [| | b | n | s | f | i |];
    try (split; [ intros E; apply app_eq_nil in E as (_ & E); discriminate
                | intros [E | [E | (s & E & _)]]; discriminate ]).
  - split; auto.
  - split; auto.
  - pose proof (trim_blank s) as Hb. pose proof (suspicious_spec s) as Hs.
    pose proof (Nat.ltb_spec 500 (String.length s)) as Hl.
    pose proof (Nat.eqb_spec (String.length (trim s)) 0) as Ht.
    split.
    + intros E. right. right. exists s. split; [ reflexivity | ].
      destruct Ht as [Ht | Ht];
        [ destruct (500 <? String.length s)%nat,
                   (existsb (fun pattern => search pattern s) suspiciousPatterns);
          discriminate | ].
      destruct Hl as [Hl | Hl];
        [ destruct (existsb (fun pattern => search pattern s) suspiciousPatterns);
          discriminate | ].
      destruct (existsb (fun pattern => search pattern s) suspiciousPatterns);
        [ discriminate | ].
      split; [ tauto | ]. split; [ lia | ]. intros Hx. apply Hs in Hx. discriminate.
    + intros [E | [E | (s0 & E & Hnb & Hlen & Hns)]]; try discriminate.
      injection E as <-.
      destruct Ht as [Ht | Ht]; [ tauto | ].
      destruct Hl as [Hl | Hl]; [ lia | ].
      destruct (existsb (fun pattern => search pattern s) suspiciousPatterns);
        [ exfalso; tauto | reflexivity ].
Qed.

End ShapeFacts.

(** ** Combined results and accepted requests *)

Module RequestFacts.
Import Js Validators ValidatorsFacts RangeFacts.
#[local] Open Scope list_scope.

Lemma flat_map_nil {A B : Type} (f : A -> list B) (l : list A) :
  flat_map f l = [] <-> Forall (fun a => f a = []) l.
Proof.
  induction l as [| a l IH]; simpl.
  - split; [ constructor | reflexivity ].
  - rewrite app_nil, IH. split.
    + intros (Ha & Hl). now constructor.
    + now inversion 1.
Qed.

(** X7: combineValidations: for all results, the combined errors are
    those of the results in their order, and the combined result is valid
    exactly when no result carries an error; only the errors of the
    results are read, never their flags: results with the same errors
    combine to the same result, whatever their flags say.  For results
    whose flag tells whether they carry errors, the combined result is
    valid exactly when every one of them is. *)
Theorem combineValidations_spec (validations : list ValidationResult) :
  errors (combineValidations validations) = concat (map errors validations)
  /\ (isValid (combineValidations validations) = true
      <-> Forall (fun v => errors v = []) validations)
  /\ (forall others,
        map errors others = map errors validations ->
        combineValidations others = combineValidations validations)
  /\ (Forall Consistent validations ->
      (isValid (combineValidations validations) = true
       <-> Forall (fun v => isValid v = true) validations)).
Proof.
  assert (Hv : isValid (combineValidations validations) = true
               <-> Forall (fun v => errors v = []) validations).
  { unfold combineValidations. cbn [isValid].
    rewrite Nat.eqb_eq, length_zero_iff_nil. apply flat_map_nil. }
  split; [ | split; [ | split ] ].
  - unfold combineValidations. cbn [errors]. apply flat_map_concat_map.
  - exact Hv.
  - intros others E. unfold combineValidations.
    rewrite !flat_map_concat_map, E. reflexivity.
  - intros Hc. rewrite Hv, !List.Forall_forall. rewrite List.Forall_forall in Hc.
    split; intros Hall v Hin; apply (Hc v Hin); auto.
Qed.

(** A result flagged invalid that carries no error does not make the
    combination invalid; two results of the validators combine to the
    errors of both. *)
Lemma combineValidations_spec_witness :
  let flagged := {| isValid := false; errors := [] |} in
  let vs := [validateHttpMethod (JStr "get"); validateHttpMethod (JStr "fetch")] in
  isValid (combineValidations [flagged]) = true
  /\ Forall Consistent vs
  /\ errors (combineValidations vs) = [whitelistError]
  /\ (isValid (combineValidations vs) = true <-> Forall (fun v => isValid v = true) vs).
Proof.
  intros flagged vs.
  assert (Hc : Forall Consistent vs) by (repeat constructor; apply result_consistent).
  split; [ | split; [ exact Hc | split ] ].
  - destruct (combineValidations_spec [flagged]) as (_ & Hv & _).
    apply Hv. repeat constructor.
  - destruct (combineValidations_spec vs) as (He & _). rewrite He. reflexivity.
  - destruct (combineValidations_spec vs) as (_ & _ & _ & Hall). exact (Hall Hc).
Defined.

Section Accepted.
Context `{Host}.

Lemma method_accepted (method : JsValue) :
  methodErrors {| req_name := JUndefined; req_method := method; req_url := JUndefined;
                  req_description := JUndefined; req_headers := JUndefined;
                  req_authConfig := JUndefined; req_body := JUndefined |} = []
  <-> exists m, method = JStr m /\ In (toUpperCase m) validMethods.
Proof.
  unfold methodErrors. cbn [req_method]. unfold validateHttpMethod. cbv zeta.
  destruct (falsy method) eqn:Hf.
  - split; [ discriminate | ]. intros (m & -> & Hm).
    rewrite falsy_JStr in Hf. apply String.eqb_eq in Hf. subst m.
    simpl in Hm. intuition discriminate.
  - destruct method as [| | b | n | m | f | i |];
      try (split; [ discriminate | intros (m & E & _); discriminate ]).
    cbn [errors result]. pose proof (existsb_eqb_In (toUpperCase m) validMethods) as Hin.
    destruct (existsb (String.eqb (toUpperCase m)) validMethods).
    + split; [ intros _; exists m; split; [ reflexivity | now apply Hin ] | reflexivity ].
    + split; [ discriminate | ]. intros (m0 & E & Hm). injection E as <-.
      apply Hin in Hm. discriminate.
Qed.

Lemma url_accepted (url : JsValue) :
  urlErrors {| req_name := JUndefined; req_method := JUndefined; req_url := url;
               req_description := JUndefined; req_headers := JUndefined;
               req_authConfig := JUndefined; req_body := JUndefined |} = []
  <-> exists u, url = JStr u /\ urlParses u = true
        /\ startsWith u "https://" = true /\ String.length u <= 2000.
Proof.
  unfold urlErrors. cbn [req_url]. unfold validateUrl. cbv zeta.
  destruct (falsy url) eqn:Hf.
  - split; [ discriminate | ]. intros (u & -> & _ & Hs & _).
    rewrite falsy_JStr in Hf. apply String.eqb_eq in Hf. subst u. discriminate.
  - destruct url as [| | b | n | u | f | i |];
      try (split; [ discriminate | intros (u & E & _); discriminate ]).
    cbn [errors result]. pose proof (Nat.ltb_spec 2000 (String.length u)) as Hl.
    destruct (urlParses u) eqn:Hp.
    + destruct (startsWith u "https://") eqn:Hs; cbn [negb].
      * destruct Hl as [Hl | Hl].
        -- split; [ discriminate | ]. intros (u0 & E & _ & _ & Hlen). injection E as <-. lia.
        -- split; [ | reflexivity ]. intros _. exists u. auto.
      * split.
        -- destruct (2000 <? String.length u)%nat; discriminate.
        -- intros (u0 & E & _ & Hs' & _). injection E as <-. congruence.
    + split; [ discriminate | ]. intros (u0 & E & Hp' & _). injection E as <-. congruence.
Qed.

Lemma json_accepted (value : JsValue) (field : string) :
  (if truthy value && isString value then errors (validateJson value field) else []) = []
  <-> forall s, value = JStr s -> s = "" \/ jsonParses s = true.
Proof.
  destruct value as [| | b | n | s | f | i |];
    try (cbn [isString]; rewrite andb_false_r;
         split; [ intros _ s E; discriminate E | reflexivity ]).
  unfold validateJson. cbv zeta. rewrite falsy_JStr. cbn [truthy isString].
  destruct (String.eqb_spec s "") as [-> | Hs]; cbn [negb andb].
  - split; [ | reflexivity ]. intros _ s0 E. injection E as <-. now left.
  - cbn [errors result]. destruct (jsonParses s) eqn:Hp.
    + split; [ | reflexivity ]. intros _ s0 E. injection E as <-. now right.
    + split; [ discriminate | ]. intros Hj. destruct (Hj s eq_refl); congruence.
Qed.

(** X8: validateApiRequest: a request that passes has a name that is a string
    of 1 to 200 code units, a method that is a string of the whitelist in
    some case of its letters, and a URL that is a string the URL parser
    accepts, starts with https:// and has at most 2000 code units; its
    description, if it has one, is a string of at most 1000 code units,
    its authentication settings pass validateAuthConfig, and its headers
    and body, if they are non-empty strings, parse as JSON. *)
Theorem accepted_request (request : ApiRequest) :
  isValid (validateApiRequest request) = true ->
  (exists name, req_name request = JStr name /\ 1 <= String.length name <= 200)
  /\ (exists method, req_method request = JStr method
        /\ In (toUpperCase method) validMethods)
  /\ (exists url, req_url request = JStr url /\ urlParses url = true
        /\ startsWith url "https://" = true /\ String.length url <= 2000)
  /\ (truthy (req_description request) = true ->
      exists d, req_description request = JStr d /\ String.length d <= 1000)
  /\ isValid (validateAuthConfig (req_authConfig request)) = true
  /\ (forall h, req_headers request = JStr h -> h = "" \/ jsonParses h = true)
  /\ (forall b, req_body request = JStr b -> b = "" \/ jsonParses b = true).
Proof.
  intros Hv.
  assert (He : errors (validateApiRequest request) = [])
    by (apply (result_consistent _); exact Hv).
  rewrite validateApiRequest_errors in He.
  repeat (apply app_nil in He as (? & He)).
  repeat match goal with |- _ /\ _ => split end.
  - unfold nameErrors, nameValidation in *.
    destruct (falsy (req_name request)); [ discriminate | ].
    now apply (stringLength_between (req_name request) "name" 1 200).
  - apply method_accepted.
    unfold methodErrors in *. cbn [req_method]. assumption.
  - apply url_accepted.
    unfold urlErrors in *. cbn [req_url]. assumption.
  - intros Ht. unfold descriptionErrors, descValidation in *. rewrite Ht in *.
    match goal with
    | E : errors (validateStringLength (req_description request) _ _ _) = [] |- _ =>
        apply (stringLength_between (req_description request) "description" 0 1000)
          in E as (d & Ed & _ & Hd)
    end.
    eauto.
  - unfold authErrors in *.
    destruct (truthy (req_authConfig request)) eqn:Ht.
    + now apply validateAuthConfig_consistent.
    + unfold validateAuthConfig, falsy. now rewrite Ht.
  - apply json_accepted with (field := "headers").
    unfold headersErrors in *. assumption.
  - apply json_accepted with (field := "body"). exact He.
Qed.

End Accepted.

Lemma accepted_request_witness :
  let request :=
    {| req_name := JStr "Get Users"; req_method := JStr "get";
       req_url := JStr "https://api.example.com/users";
       req_description := JUndefined; req_headers := JUndefined;
       req_authConfig := JUndefined; req_body := JUndefined |} in
  isValid (validateApiRequest (H := exampleHost) request) = true
  /\ exists url, req_url request = JStr url /\ String.length url <= 2000.
Proof.
  intros request.
  assert (Hv : isValid (validateApiRequest (H := exampleHost) request) = true)
    by reflexivity.
  split; [ exact Hv | ].
  destruct (accepted_request (H := exampleHost) request Hv)
    as (_ & _ & (url & Eu & _ & _ & Hl) & _).
  exists url. split; assumption.
Defined.

End RequestFacts.

(** ** The input sanitizer *)

Module InputSanitizerFacts.
Import Js InputSanitizer ErrorHandler ErrorHandlerFacts ShapeFacts.
#[local] Open Scope list_scope.

Lemma removeChars_sublist (p : ascii -> bool) (s : list ascii) :
  removeChars p s `sublist_of` s.
Proof.
  unfold removeChars. induction s as [| c s IH]; simpl; [ constructor | ].
  destruct (negb (p c)); now constructor.
Qed.

Lemma removeChars_none (p : ascii -> bool) (s : list ascii) :
  Forall (fun c => p c = false) (removeChars p s).
Proof.
  unfold removeChars. induction s as [| c s IH]; simpl; [ constructor | ].
  destruct (p c) eqn:Hc; simpl; [ exact IH | now constructor ].
Qed.

Lemma matchScheme_suffix (s rest : list ascii) :
  matchScheme s = Some rest -> exists k, s = k ++ rest.
Proof.
  unfold matchScheme. intros (k & -> & _)%stripPrefixI_spec. eauto.
Qed.

Lemma matchHandler_suffix (s rest : list ascii) :
  matchHandler s = Some rest -> exists k, s = k ++ rest.
Proof.
  unfold matchHandler.
  destruct (stripPrefixI (list_ascii_of_string "on") s) as [[| w r] |] eqn:E;
    try discriminate.
  apply stripPrefixI_spec in E as (k & -> & _).
  destruct (Shapes.isWord w); [ | discriminate ].
  destruct (dropWhile_split Shapes.isWord r) as (ws & Er & _).
  remember (dropWhile Shapes.isWord r) as r1 eqn:E1. clear E1.
  destruct (dropWhile_split isSpace r1) as (sp & Es & _).
  remember (dropWhile isSpace r1) as r2 eqn:E2. clear E2.
  destruct r2 as [| e rest']; [ discriminate | ].
  destruct (Ascii.eqb e "="); [ | discriminate ].
  intros [= <-]. exists (k ++ w :: ws ++ sp ++ [e]). subst.
  repeat (rewrite <- app_assoc; simpl). reflexivity.
Qed.

Lemma removeFrom_sublist (m : list ascii -> option (list ascii)) :
  (forall s rest, m s = Some rest -> exists k, s = k ++ rest) ->
  forall fuel s, removeFrom fuel m s `sublist_of` s.
Proof.
  intros Hm. induction fuel as [| fuel IH]; intros s; simpl; [ reflexivity | ].
  destruct s as [| c s]; [ constructor | ].
  destruct (m (c :: s)) as [rest |] eqn:E.
  - apply Hm in E as (k & ->). apply sublist_inserts_l, IH.
  - constructor. apply IH.
Qed.

Lemma dropSpaces_suffix (l : list ascii) : exists k, l = k ++ dropSpaces l.
Proof.
  induction l as [| c l (k & IH)]; simpl; [ now exists [] | ].
  destruct (isSpace c); [ | now exists [] ].
  exists (c :: k). simpl. congruence.
Qed.

Lemma trimmed_prefix (l : list ascii) :
  exists k, l = rev (dropSpaces (rev l)) ++ k.
Proof.
  destruct (dropSpaces_suffix (rev l)) as (k & E).
  exists (rev k). rewrite <- rev_app_distr, <- E. now rewrite rev_involutive.
Qed.

Lemma trim_sublist (l : list ascii) :
  rev (dropSpaces (rev (dropSpaces l))) `sublist_of` l.
Proof.
  destruct (dropSpaces_suffix l) as (k & E).
  destruct (trimmed_prefix (dropSpaces l)) as (k' & E').
  rewrite E at 2. apply sublist_inserts_l. rewrite E' at 2.
  now apply sublist_inserts_r.
Qed.

Lemma trim_Trimmed (l : list ascii) : Trimmed (rev (dropSpaces (rev (dropSpaces l)))).
Proof.
  unfold Trimmed. split.
  - pose proof (dropSpaces_head l) as Hh.
    destruct (trimmed_prefix (dropSpaces l)) as (k & E).
    destruct (rev (dropSpaces (rev (dropSpaces l)))) as [| c t]; [ exact I | ].
    rewrite E in Hh. exact Hh.
  - rewrite rev_involutive. apply dropSpaces_head.
Qed.

Lemma Forall_sublist {A : Type} (P : A -> Prop) (l1 l2 : list A) :
  l1 `sublist_of` l2 -> Forall P l2 -> Forall P l1.
Proof.
  induction 1 as [| x l1 l2 _ IH | x l1 l2 _ IH]; intros Hall.
  - constructor.
  - inversion Hall; subst. constructor; auto.
  - inversion Hall; subst. auto.
Qed.

(** X9: sanitizeInput: the result is what is left of the input after code
    units were deleted, none added and none moved; it holds no angle
    bracket and no quote, and no space at either end; an input that is
    not a string gives the empty text. *)
Theorem sanitizeInput_output (input : JsValue) :
  let out := list_ascii_of_string (sanitizeInput input) in
  out `sublist_of` (match input with JStr s => list_ascii_of_string s | _ => [] end)
  /\ Forall (fun c => isAngle c = false /\ isQuote c = false) out
  /\ Trimmed out.
Proof.
  destruct input as [| | b | n | s | f | i |];
    try (cbn; split; [ constructor | split; [ constructor | split; exact I ] ]).
  cbv zeta. unfold sanitizeInput, trim.
  rewrite !list_ascii_of_string_of_list_ascii.
  set (a := removeChars isAngle (list_ascii_of_string s)).
  set (q := removeChars isQuote a).
  set (j := removeAll matchScheme q).
  set (h := removeAll matchHandler j).
  assert (Hj : j `sublist_of` q) by (apply removeFrom_sublist, matchScheme_suffix).
  assert (Hh : h `sublist_of` j) by (apply removeFrom_sublist, matchHandler_suffix).
  assert (Hq : q `sublist_of` a) by apply removeChars_sublist.
  assert (Ha : a `sublist_of` list_ascii_of_string s) by apply removeChars_sublist.
  assert (Ht : rev (dropSpaces (rev (dropSpaces h))) `sublist_of` q).
  { etransitivity; [ apply trim_sublist | ]. etransitivity; eassumption. }
  split; [ | split ].
  - etransitivity; [ exact Ht | ]. etransitivity; eassumption.
  - apply (Forall_sublist _ _ _ Ht).
    pose proof (removeChars_none isQuote a) as Nq. fold q in Nq.
    assert (Na : Forall (fun c => isAngle c = false) q)
      by (apply (Forall_sublist _ _ _ Hq), removeChars_none).
    clear -Nq Na. induction q as [| c q IH]; [ constructor | ].
    inversion Nq; inversion Na; subst. constructor; auto.
  - apply trim_Trimmed.
Qed.

(** *** The fuel of the replacements *)

Lemma removeFrom_fuel (m : list ascii -> option (list ascii)) :
  (forall s rest, m s = Some rest -> List.length rest < List.length s) ->
  forall fuel1 fuel2 s,
    List.length s <= fuel1 -> List.length s <= fuel2 ->
    removeFrom fuel1 m s = removeFrom fuel2 m s.
Proof.
  intros Hm. induction fuel1 as [| fuel1 IH]; intros fuel2 s H1 H2.
  - destruct s; [ | simpl in H1; lia ]. now destruct fuel2.
  - destruct s as [| c s]; [ now destruct fuel2 | ].
    destruct fuel2 as [| fuel2]; [ simpl in H2; lia | ].
    simpl in H1, H2. simpl. destruct (m (c :: s)) as [rest |] eqn:E.
    + apply Hm in E. simpl in E. apply IH; lia.
    + f_equal. apply IH; lia.
Qed.

(** Each replacement drops the leftmost match and goes on behind it. *)
Lemma removeAll_cons (m : list ascii -> option (list ascii)) (c : ascii) (s : list ascii) :
  (forall s rest, m s = Some rest -> List.length rest < List.length s) ->
  removeAll m (c :: s)
  = match m (c :: s) with
    | Some rest => removeAll m rest
    | None => c :: removeAll m s
    end.
Proof.
  intros Hm. unfold removeAll. simpl. destruct (m (c :: s)) as [rest |] eqn:E.
  - pose proof (Hm _ _ E) as Hl. simpl in Hl.
    apply (removeFrom_fuel m Hm); lia.
  - reflexivity.
Qed.

Lemma matchScheme_shorter (s rest : list ascii) :
  matchScheme s = Some rest -> List.length rest < List.length s.
Proof.
  unfold matchScheme. intros (k & -> & Hk)%stripPrefixI_spec.
  apply Forall2_ciEq_length in Hk. rewrite length_app, Hk. simpl. lia.
Qed.

Lemma matchHandler_shorter (s rest : list ascii) :
  matchHandler s = Some rest -> List.length rest < List.length s.
Proof.
  unfold matchHandler.
  destruct (stripPrefixI (list_ascii_of_string "on") s) as [[| w r] |] eqn:E;
    try discriminate.
  apply stripPrefixI_spec in E as (k & -> & _).
  destruct (Shapes.isWord w); [ | discriminate ].
  destruct (dropWhile_split Shapes.isWord r) as (ws & Er & _).
  remember (dropWhile Shapes.isWord r) as r1 eqn:E1. clear E1.
  destruct (dropWhile_split isSpace r1) as (sp & Es & _).
  remember (dropWhile isSpace r1) as r2 eqn:E2. clear E2.
  destruct r2 as [| e rest']; [ discriminate | ].
  destruct (Ascii.eqb e "="); [ | discriminate ].
  intros [= <-]. subst.
  repeat (rewrite ?length_app; simpl). lia.
Qed.

(** *** What a single pass leaves behind *)

Lemma removeFrom_keep (m : list ascii -> option (list ascii)) (fuel : nat)
    (c : ascii) (s : list ascii) :
  m (c :: s) = None -> removeFrom (S fuel) m (c :: s) = c :: removeFrom fuel m s.
Proof. intros E. simpl. now rewrite E. Qed.

Lemma removeFrom_drop (m : list ascii -> option (list ascii)) (fuel : nat)
    (c : ascii) (s rest : list ascii) :
  m (c :: s) = Some rest -> removeFrom (S fuel) m (c :: s) = removeFrom fuel m rest.
Proof. intros E. simpl. now rewrite E. Qed.

Lemma chars_append (s t : string) :
  list_ascii_of_string (s ++ t) = list_ascii_of_string s ++ list_ascii_of_string t.
Proof.
  induction s as [| c s IH]; [ reflexivity | ].
  change (list_ascii_of_string (String c (s ++ t))
          = c :: (list_ascii_of_string s ++ list_ascii_of_string t)).
  simpl. now rewrite IH.
Qed.

Lemma string_of_app (l k : list ascii) :
  string_of_list_ascii (l ++ k) = (string_of_list_ascii l ++ string_of_list_ascii k)%string.
Proof.
  induction l as [| c l IH]; [ reflexivity | ].
  change (String c (string_of_list_ascii (l ++ k))
          = String c (string_of_list_ascii l ++ string_of_list_ascii k)%string).
  now rewrite IH.
Qed.

Lemma dropSpaces_app_stop (l k : list ascii) :
  match k with [] => False | c :: _ => isSpace c = false end ->
  dropSpaces (l ++ k) = dropSpaces l ++ k.
Proof.
  intros Hk. induction l as [| c l IH]; simpl.
  - destruct k as [| c k]; [ contradiction | ]. simpl. now rewrite Hk.
  - destruct (isSpace c); [ exact IH | reflexivity ].
Qed.

(** X10: sanitizeInput deletes each match once and does not look at its own
    result: where the deletion of [javascript:] joins the text around it
    into [javascript:] again, the scheme stays.  Every input that starts
    with [javajavascript:script:] gives a result that starts with
    [javascript:]. *)
Theorem sanitizeInput_keeps_scheme (t : string) :
  exists rest,
    sanitizeInput (JStr ("javajavascript:script:" ++ t)) = ("javascript:" ++ rest)%string.
Proof.
  unfold sanitizeInput, trim.
  rewrite list_ascii_of_string_of_list_ascii, chars_append.
  unfold removeChars. rewrite !List.filter_app.
  set (T := List.filter (fun c => negb (isQuote c))
              (List.filter (fun c => negb (isAngle c)) (list_ascii_of_string t))).
  change (List.filter (fun c => negb (isQuote c))
            (List.filter (fun c => negb (isAngle c))
               (list_ascii_of_string "javajavascript:script:")))
    with (list_ascii_of_string "javajavascript:script:").
  unfold removeAll at 2. rewrite length_app.
  change (List.length (list_ascii_of_string "javajavascript:script:") + List.length T)
    with (S (S (S (S (S (S (S (S (S (S (S (S (10 + List.length T))))))))))))).
  cbn [list_ascii_of_string app].
  do 4 (rewrite removeFrom_keep by reflexivity).
  rewrite (removeFrom_drop _ _ _ _ ("s" :: "c" :: "r" :: "i" :: "p" :: "t" :: ":" :: T)%char)
    by reflexivity.
  do 7 (rewrite removeFrom_keep by reflexivity).
  set (X := removeFrom (10 + List.length T) matchScheme T).
  unfold removeAll. cbn [List.length].
  do 11 (rewrite removeFrom_keep by reflexivity).
  set (Y := removeFrom (List.length X) matchHandler X).
  change ("j" :: "a" :: "v" :: "a" :: "s" :: "c" :: "r" :: "i" :: "p" :: "t" :: ":" :: Y)%char
    with (list_ascii_of_string "javascript:" ++ Y).
  assert (Hd : dropSpaces (list_ascii_of_string "javascript:" ++ Y)
               = list_ascii_of_string "javascript:" ++ Y) by reflexivity.
  rewrite Hd, rev_app_distr, dropSpaces_app_stop by reflexivity.
  rewrite rev_app_distr, rev_involutive, string_of_app.
  eexists. reflexivity.
Qed.

End InputSanitizerFacts.

(** ** Sanitizing twice, arrays in details, and thrown validations *)

Module DetailsFacts.
Import Js Validators ErrorHandler ErrorHandlerFacts Throwing Details.
#[local] Open Scope list_scope.

(** Induction on a value and on the values inside it. *)
Lemma JsValue_nested_ind (P : JsValue -> Prop) :
  P JUndefined -> P JNull -> (forall b, P (JBool b)) -> (forall n, P (JNum n)) ->
  (forall s, P (JStr s)) ->
  (forall fields, Forall (fun kv => P kv.2) fields -> P (JObj fields)) ->
  (forall items, Forall P items -> P (JArr items)) ->
  P JFun ->
  forall v, P v.
Proof.
  intros Hu Hn Hb Hnum Hs Ho Ha Hf. fix IH 1. intros v.
  destruct v as [| | b | n | s | fields | items |];
    [ exact Hu | exact Hn | apply Hb | apply Hnum | apply Hs | | | exact Hf ].
  - apply Ho. induction fields as [| [k v] fields IHf]; constructor; [ apply IH | exact IHf ].
  - apply Ha. induction items as [| v items IHi]; constructor; [ apply IH | exact IHi ].
Qed.

Lemma sanitizeErrorDetails_JObj (fields : list (string * JsValue)) :
  sanitizeErrorDetails (JObj fields) = JObj (List.filter ownKey (map field fields)).
Proof. reflexivity. Qed.

(** The loop keeps the keys, so it does not matter whether [__proto__] is
    left out before or behind it. *)
Lemma filter_field (fields : list (string * JsValue)) :
  List.filter ownKey (map field fields) = map field (List.filter ownKey fields).
Proof.
  induction fields as [| [k v] fields IH]; [ reflexivity | ].
  cbn [map List.filter]. change (ownKey (field (k, v))) with (ownKey (k, v)).
  destruct (ownKey (k, v)); cbn [map]; now rewrite IH.
Qed.

Lemma filter_ownKey_twice (fields : list (string * JsValue)) :
  List.filter ownKey (List.filter ownKey fields) = List.filter ownKey fields.
Proof.
  induction fields as [| kv fields IH]; [ reflexivity | ].
  cbn [List.filter]. destruct (ownKey kv) eqn:E; [ | exact IH ].
  cbn [List.filter]. now rewrite E, IH.
Qed.

Lemma ownKey_indexed (i : nat) (items : list JsValue) :
  List.filter ownKey (indexed i items) = indexed i items.
Proof.
  revert i. induction items as [| v items IH]; intros i; [ reflexivity | ].
  cbn [indexed List.filter]. rewrite IH.
  replace (ownKey (indexKey i, v)) with true; [ reflexivity | ].
  unfold ownKey, indexKey. cbn [fst].
  destruct (Nat.to_uint i); reflexivity.
Qed.

Lemma sanitizeErrorDetails_JArr (items : list JsValue) :
  sanitizeErrorDetails (JArr items) = JObj (indexed 0 (map entry items)).
Proof. reflexivity. Qed.

Lemma map_field_indexed (i : nat) (items : list JsValue) :
  map field (indexed i items) = indexed i (map entry items).
Proof.
  revert i. induction items as [| v items IH]; intros i; simpl; [ reflexivity | ].
  now rewrite IH.
Qed.

(** *** Sanitizing twice *)

Lemma sanitizeChars_twice (s : list ascii) :
  sanitizeChars (sanitizeChars s) = sanitizeChars s.
Proof.
  assert (Hc : forall kw, In kw secretKeywords ->
                 replaceSecret kw (sanitizeChars s) = sanitizeChars s).
  { intros kw Hkw. apply replaceFrom_Clean, sanitizeChars_Clean, In_keywordChars, Hkw. }
  unfold sanitizeChars at 1.
  rewrite (Hc "password"), (Hc "token"), (Hc "key"), (Hc "secret");
    simpl; auto 6.
Qed.

(** X11: sanitizeErrorMessage: sanitizing a sanitized message changes nothing,
    the masks it wrote are not taken for secrets to mask again. *)
Theorem sanitizeErrorMessage_idempotent (message : string) :
  sanitizeErrorMessage (sanitizeErrorMessage message) = sanitizeErrorMessage message.
Proof.
  unfold sanitizeErrorMessage, chars.
  now rewrite list_ascii_of_string_of_list_ascii, sanitizeChars_twice.
Qed.

Lemma Masked_Clean (text kw : string) :
  Masked text -> In kw secretKeywords -> Clean (chars kw) (chars text).
Proof.
  intros Hm Hkw p q rest E Hq.
  apply matchSecret_spec in Hq as (r & (k & -> & Hk)%stripPrefixI_spec & Hr).
  apply matchValue_spec in Hr as (d & ws & v & -> & Hd & Hws & Hv & Hns & Hend).
  destruct (Hm kw Hkw p k d ws v rest) as (-> & -> & -> & ->).
  { unfold SecretAt. repeat match goal with |- _ /\ _ => split end; assumption. }
  unfold mask. now rewrite <- app_assoc.
Qed.

(** X12: sanitizeErrorMessage leaves a message as it is exactly when every
    occurrence of a secret in it is masked already; a message without such
    an occurrence is one of them. *)
Theorem sanitizeErrorMessage_fixed_points (text : string) :
  sanitizeErrorMessage text = text <-> Masked text.
Proof.
  split.
  - intros <-. apply sanitizeErrorMessage_Masked.
  - intros Hm.
    assert (Hc : forall kw, In kw secretKeywords ->
                   replaceSecret kw (chars text) = chars text).
    { intros kw Hkw. apply replaceFrom_Clean, Masked_Clean; assumption. }
    unfold sanitizeErrorMessage, sanitizeChars.
    rewrite (Hc "password"), (Hc "token"), (Hc "key"), (Hc "secret");
      simpl; auto 6.
    apply string_of_list_ascii_of_string.
Qed.

Lemma sanitizeErrorMessage_twice (s : string) :
  sanitizeErrorMessage (sanitizeErrorMessage s) = sanitizeErrorMessage s.
Proof.
  unfold sanitizeErrorMessage, chars.
  now rewrite list_ascii_of_string_of_list_ascii, sanitizeChars_twice.
Qed.

Lemma entry_twice (v : JsValue) :
  sanitizeErrorDetails (sanitizeErrorDetails v) = sanitizeErrorDetails v ->
  entry (entry v) = entry v.
Proof.
  destruct v as [| | b | n | s | fields | items |]; intros Hv; try reflexivity.
  - simpl. now rewrite sanitizeErrorMessage_twice.
  - exact Hv.
  - exact Hv.
Qed.

(** X13: sanitizeErrorDetails: sanitizing sanitized details changes nothing. *)
Theorem sanitizeErrorDetails_idempotent (details : JsValue) :
  sanitizeErrorDetails (sanitizeErrorDetails details) = sanitizeErrorDetails details.
Proof.
  induction details as [| | b | n | s | fields IH | items IH |] using JsValue_nested_ind;
    try reflexivity.
  - simpl. destruct (String.eqb s "") eqn:E.
    + simpl. now rewrite E.
    + simpl. rewrite sanitizeErrorMessage_twice.
      now destruct (String.eqb (sanitizeErrorMessage s) "").
  - rewrite !sanitizeErrorDetails_JObj. f_equal.
    rewrite !filter_field, filter_ownKey_twice, map_map.
    apply map_ext_in. intros [k v] Hin%filter_In. destruct Hin as (Hin & _).
    rewrite List.Forall_forall in IH. specialize (IH (k, v) Hin). simpl in IH.
    unfold field. simpl. now rewrite (entry_twice v IH).
  - rewrite sanitizeErrorDetails_JArr, sanitizeErrorDetails_JObj, map_field_indexed.
    rewrite ownKey_indexed.
    f_equal. f_equal. rewrite map_map.
    induction IH as [| v items Hv _ IHi]; [ reflexivity | ].
    simpl. now rewrite IHi, (entry_twice v Hv).
Qed.

(** *** Arrays *)

Lemma noArrays_indexed (i : nat) (items : list JsValue) :
  forallb (fun kv : string * JsValue => noArrays kv.2) (indexed i items)
  = forallb noArrays items.
Proof.
  revert i. induction items as [| v items IH]; intros i; simpl; [ reflexivity | ].
  now rewrite IH.
Qed.

Lemma noArrays_entry (v : JsValue) :
  noArrays (sanitizeErrorDetails v) = true -> noArrays (entry v) = true.
Proof. destruct v; intros Hv; try reflexivity; exact Hv. Qed.

(** X14: sanitizeErrorDetails: the result holds no array; an array, at the top
    or anywhere inside the details, comes back as an object whose keys are
    the indices and whose values are the sanitized elements. *)
Theorem sanitizeErrorDetails_no_arrays (details : JsValue) :
  noArrays (sanitizeErrorDetails details) = true
  /\ forall items,
       sanitizeErrorDetails (JArr items)
       = JObj (indexed 0 (map (fun v => match v with
                                        | JStr s => JStr (sanitizeErrorMessage s)
                                        | JUndefined | JBool _ | JNum _ | JFun => v
                                        | _ => sanitizeErrorDetails v
                                        end) items)).
Proof.
  split.
  - induction details as [| | b | n | s | fields IH | items IH |] using JsValue_nested_ind;
      try reflexivity.
    + simpl. now destruct (String.eqb s "").
    + rewrite sanitizeErrorDetails_JObj. cbn [noArrays].
      induction IH as [| [k v] fields Hv _ IHf]; [ reflexivity | ].
      cbn [map List.filter]. destruct (ownKey (field (k, v))); [ | exact IHf ].
      cbn [forallb]. unfold field at 1. cbn [fst snd].
      now rewrite (noArrays_entry v Hv), IHf.
    + rewrite sanitizeErrorDetails_JArr. simpl. rewrite noArrays_indexed.
      induction IH as [| v items Hv _ IHi]; [ reflexivity | ].
      simpl. now rewrite (noArrays_entry v Hv), IHi.
  - intros items. reflexivity.
Qed.

(** *** Masking goes by the text of a value *)

Lemma entry_unchanged (v : JsValue) :
  (noArrays v = true -> (forall s, In s (stringLeaves v) -> SecretFree s) ->
   sanitizeErrorDetails v = v) ->
  noArrays v = true -> (forall s, In s (stringLeaves v) -> SecretFree s) ->
  entry v = v.
Proof.
  intros Hv Hn Hs. destruct v; try reflexivity; try (now apply Hv).
  simpl. f_equal. apply sanitizeErrorMessage_unchanged, Hs. now left.
Qed.

(** X15: sanitizeErrorDetails masks by the text of a string value and
    never by the name of its key: details that hold no array, no key
    [__proto__] and no string with an occurrence of a secret (a keyword,
    [=] or [:], and a value) come back as they are, under whatever keys
    the strings stand, [token] and [password] included. *)
Theorem sanitizeErrorDetails_unchanged (details : JsValue) :
  noArrays details = true ->
  plainKeys details = true ->
  (forall s, In s (stringLeaves details) -> SecretFree s) ->
  sanitizeErrorDetails details = details.
Proof.
  induction details as [| | b | n | s | fields IH | items IH |] using JsValue_nested_ind;
    intros Hn Hp Hs; try reflexivity.
  - simpl. destruct (String.eqb s ""); [ reflexivity | ].
    f_equal. apply sanitizeErrorMessage_unchanged, Hs. now left.
  - rewrite sanitizeErrorDetails_JObj. f_equal. simpl in Hn, Hp, Hs.
    induction IH as [| [k v] fields Hv _ IHf]; [ reflexivity | ].
    simpl in Hn, Hp, Hs. apply andb_true_iff in Hn as (Hnv & Hnf).
    apply andb_true_iff in Hp as ((Hk & Hpv)%andb_true_iff & Hpf).
    cbn [map List.filter]. change (ownKey (field (k, v))) with (negb (String.eqb k "__proto__")).
    rewrite Hk.
    rewrite IHf; [ | exact Hnf | exact Hpf | intros s Hin; apply Hs, in_or_app; now right ].
    change (field (k, v)) with (k, entry v).
    rewrite (entry_unchanged v (fun Hn' => Hv Hn' Hpv) Hnv); [ reflexivity | ].
    intros s Hin. apply Hs, in_or_app. now left.
  - discriminate.
Qed.

Lemma sanitizeErrorDetails_unchanged_witness :
  let details := JObj [("token", JStr "secret_token_123"); ("other", JStr "safe_data")] in
  sanitizeErrorDetails details = details.
Proof.
  intros details. apply sanitizeErrorDetails_unchanged; [ reflexivity | reflexivity | ].
  intros s [<- | [<- | []]]; apply secretFreeb_sound; vm_compute; reflexivity.
Defined.

(** *** Thrown validations *)

(** X16: validateOrThrow, and handleError on what it throws: a result that is
    not valid makes validateOrThrow throw a ValidationError of status 400,
    the one createValidationError builds when no context is given; the
    response handleError makes of it has the code VALIDATION_ERROR and the
    sanitized message, and lists the sanitized errors under details.errors
    as an object keyed by index, not as an array. *)
Theorem validateOrThrow_response (now stack : string) (validation : ValidationResult)
    (context handlerContext : option string) :
  isValid validation = false ->
  exists e,
    validateOrThrow validation context stack = Throws (ThrownAppError e)
    /\ app_code e = VALIDATION_ERROR /\ app_statusCode e = 400%Z
    /\ app_name e = "ValidationError"
    /\ (context = None -> e = createValidationError (errors validation) stack)
    /\ let r := (handleError now (ThrownAppError e) handlerContext).2 in
       success r = false
       /\ code (error r) = VALIDATION_ERROR
       /\ message (error r) = sanitizeErrorMessage (app_message e)
       /\ details (error r)
          = JObj [("errors",
                   JObj (indexed 0 (map (fun m => JStr (sanitizeErrorMessage m))
                                        (errors validation))))].
Proof.
  intros Hv. unfold validateOrThrow. rewrite Hv. cbn [negb].
  eexists. split; [ reflexivity | ].
  repeat match goal with |- _ /\ _ => split end; try reflexivity.
  - intros ->. reflexivity.
  - cbn [handleError snd createErrorResponse details error newValidationError
         newAppError setName app_details].
    rewrite sanitizeErrorDetails_JObj. cbn [map List.filter]. unfold ownKey, field, entry.
    cbn [fst snd String.eqb Ascii.eqb Bool.eqb negb].
    rewrite sanitizeErrorDetails_JArr, map_map. reflexivity.
Qed.

Lemma validateOrThrow_response_witness :
  let validation := validateHttpMethod (JStr "fetch") in
  isValid validation = false
  /\ exists e,
       validateOrThrow validation (Some "import") "" = Throws (ThrownAppError e)
       /\ app_statusCode e = 400%Z.
Proof.
  intros validation.
  assert (Hv : isValid validation = false) by reflexivity.
  split; [ exact Hv | ].
  destruct (validateOrThrow_response "2024-01-01T00:00:00.000Z" "" validation
              (Some "import") None Hv) as (e & He & _ & Hs & _).
  exists e. split; assumption.
Defined.

End DetailsFacts.
